(** * analizadorPython-back: lexer, parser and semantic checker

    A shallow embedding of the three Go packages [lexer], [parser] and
    [semantico] and of the HTTP handler [analyzeCode] that chains them,
    followed by the properties of the pipeline.

    Conventions of the embedding:
    - a Go [string] is a byte sequence: [string] of the standard library,
      one [ascii] per byte; [rune(s[i])] is the byte read as a code point
      below 256;
    - a Go [int] that counts lines, columns or tokens is a [Z] (positions)
      or a [nat] (slice indices and lengths, which Go keeps in
      [0 .. len]); none of them can reach the 64-bit limit, since each is
      bounded by the length of the request body;
    - a [*ASTNode] is an [option ASTNode], [None] being the nil pointer;
    - a [map[string]T] is a [gmap string T];
    - a loop whose number of iterations has no structural bound is a
      function with a fuel argument; running out of fuel is a separate
      outcome, never confused with a result. *)

From Stdlib Require Import ZArith String Ascii List Lia Bool.
From stdpp Require Import base option gmap strings list sorting pretty.

Open Scope string_scope.
Open Scope Z_scope.

(** ** Byte strings *)

Module Str.

Definition len (s : string) : nat := String.length s.

(** [s[i]], defined for [i < len s]. *)
Definition at_ (s : string) (i : nat) : option ascii := String.get i s.

(** [s[i:]] *)
Fixpoint from (i : nat) (s : string) : string :=
  match i, s with
  | O, _ => s
  | S i', String _ s' => from i' s'
  | S _, EmptyString => EmptyString
  end.

(** [s[:i]] *)
Fixpoint upto (i : nat) (s : string) : string :=
  match i, s with
  | O, _ => EmptyString
  | S i', String c s' => String c (upto i' s')
  | S _, EmptyString => EmptyString
  end.

(** The string of the one byte [c]. *)
Definition of_byte (c : ascii) : string := String c EmptyString.

(** [string(r)] for a code point [r] below 256: its UTF-8 encoding, one
    byte below 128 and two bytes from 128 on. *)
Definition of_rune (r : ascii) : string :=
  let n := N_of_ascii r in
  if (n <? 128)%N then of_byte r
  else String (ascii_of_N (192 + n / 64)) (of_byte (ascii_of_N (128 + n mod 64))).

(** [strings.HasPrefix] *)
Fixpoint has_prefix (p s : string) : bool :=
  match p, s with
  | EmptyString, _ => true
  | String a p', String b s' => bool_decide (a = b) && has_prefix p' s'
  | String _ _, EmptyString => false
  end.

(** [strings.Contains] *)
Fixpoint contains (s sub : string) : bool :=
  has_prefix sub s ||
  match s with
  | EmptyString => false
  | String _ s' => contains s' sub
  end.

(** [strings.Split(s, sep)] for a separator of one byte, which is what both
    call sites pass (a line feed in the lexer, a dot in the checker). The
    result is never empty: a string without the separator is returned
    whole. *)
Fixpoint split_go (sep : ascii) (cur : string) (s : string) : list string :=
  match s with
  | EmptyString => [cur]
  | String c s' =>
      if decide (c = sep) then cur :: split_go sep EmptyString s'
      else split_go sep (cur ++ of_byte c) s'
  end.

Definition split (s : string) (sep : ascii) : list string :=
  split_go sep EmptyString s.

(** [strings.Join] with a separator, used by the [%v] verb on a slice. *)
Fixpoint join (sep : string) (l : list string) : string :=
  match l with
  | [] => EmptyString
  | [x] => x
  | x :: l' => x ++ sep ++ join sep l'
  end.

End Str.

(** ** Package [unicode], restricted to Latin-1

    The lexer only ever classifies [rune(line[i])], a code point below
    256. On that range Go's [unicode] package answers from a fixed table;
    the three predicates below are that table. *)

Module Unicode.

Definition code (c : ascii) : N := N_of_ascii c.

Definition between (lo hi : N) (c : ascii) : bool :=
  ((lo <=? code c) && (code c <=? hi))%N.

(** [unicode.IsSpace]: tab, line feed, vertical tab, form feed, carriage
    return, space, U+0085 and U+00A0. *)
Definition IsSpace (c : ascii) : bool :=
  between 9 13 c || bool_decide (code c = 32%N)
  || bool_decide (code c = 133%N) || bool_decide (code c = 160%N).

(** [unicode.IsDigit]: ['0' .. '9']. *)
Definition IsDigit (c : ascii) : bool := between 48 57 c.

(** [unicode.IsLetter]: the ASCII letters, U+00AA, U+00B5, U+00BA and
    U+00C0 .. U+00FF without the two signs U+00D7 and U+00F7. *)
Definition IsLetter (c : ascii) : bool :=
  between 65 90 c || between 97 122 c
  || bool_decide (code c = 170%N) || bool_decide (code c = 181%N)
  || bool_decide (code c = 186%N)
  || between 192 214 c || between 216 246 c || between 248 255 c.

End Unicode.

(** ** Package [fmt]: the verbs the program uses *)

Module Fmt.

(** [%d] *)
Definition d (z : Z) : string := pretty z.

(** [%c] of a rune below 256. *)
Definition c (r : ascii) : string := Str.of_rune r.

(** [%v] of a [[]string] *)
Definition v (l : list string) : string := "[" ++ Str.join " " l ++ "]".

End Fmt.

(** ** Package [lexer] *)

Module Lexer.

Inductive TokenType :=
  KEYWORD | IDENTIFIER | NUMBER | STRING | SYMBOL | WHITESPACE | NEWLINE | ERROR.

#[global] Instance TokenType_eq_dec : EqDecision TokenType.
Proof. solve_decision. Defined.

Record Token := mkToken {
  Type_ : TokenType;
  Value : string;
  Line : Z;
  Column : Z
}.

(** The zero value [Token{}]. *)
Definition zeroToken : Token := mkToken KEYWORD EmptyString 0 0.

Record TokenStatistics := mkStats {
  Keywords : Z;
  Identifiers : Z;
  Numbers : Z;
  Strings : Z;
  Symbols : Z;
  StatErrors : Z
}.

Record LexicalResult := mkLexicalResult {
  Tokens : list Token;
  Table : gmap string (list string);
  Statistics : TokenStatistics;
  Errors : list string;
  ReservedWords : Z
}.

Definition pythonKeywords : gmap string bool :=
  list_to_map (map (fun k => (k, true))
    ["def"; "if"; "else"; "elif"; "while";
     "for"; "in"; "try"; "except"; "finally";
     "with"; "as"; "pass"; "break"; "continue";
     "return"; "yield"; "import"; "from"; "class";
     "and"; "or"; "not"; "is"; "lambda";
     "None"; "True"; "False"; "print"]).

Definition pythonSymbols : list string :=
  ["=="; "!="; "<="; ">="; ">>"; "<<"; "**"; "//"; "+="; "-="; "*="; "/=";
   "="; "+"; "-"; "*"; "/"; "%"; "<"; ">"; "("; ")"; "["; "]"; "{"; "}";
   ":"; ";"; ","; "."; "&"; "|"; "^"; "~"; "!"; "@"; "#"; "$"; "?"].

(** [m[k]] on a [map[string]bool]: false for a missing key. *)
Definition isKeyword (value : string) : bool :=
  default false (pythonKeywords !! value).

(** [r.Table[k] = append(r.Table[k], v)] *)
Definition tableAppend (k v : string) (t : gmap string (list string))
  : gmap string (list string) :=
  <[k := (default [] (t !! k) ++ [v])%list]> t.

Definition addToken (token : Token) (r : LexicalResult) : LexicalResult :=
  let toks := (Tokens r ++ [token])%list in
  let st := Statistics r in
  let upd tbl st' :=
    mkLexicalResult toks tbl st' (Errors r) (ReservedWords r) in
  match Type_ token with
  | KEYWORD =>
      upd (tableAppend "PR" (Value token) (Table r))
          (mkStats (Keywords st + 1) (Identifiers st) (Numbers st)
                   (Strings st) (Symbols st) (StatErrors st))
  | IDENTIFIER =>
      upd (tableAppend "ID" (Value token) (Table r))
          (mkStats (Keywords st) (Identifiers st + 1) (Numbers st)
                   (Strings st) (Symbols st) (StatErrors st))
  | NUMBER =>
      upd (tableAppend "Numeros" (Value token) (Table r))
          (mkStats (Keywords st) (Identifiers st) (Numbers st + 1)
                   (Strings st) (Symbols st) (StatErrors st))
  | STRING =>
      upd (Table r)
          (mkStats (Keywords st) (Identifiers st) (Numbers st)
                   (Strings st + 1) (Symbols st) (StatErrors st))
  | SYMBOL =>
      upd (tableAppend "Simbolos" (Value token) (Table r))
          (mkStats (Keywords st) (Identifiers st) (Numbers st)
                   (Strings st) (Symbols st + 1) (StatErrors st))
  | ERROR =>
      upd (tableAppend "Error" (Value token) (Table r))
          (mkStats (Keywords st) (Identifiers st) (Numbers st)
                   (Strings st) (Symbols st) (StatErrors st + 1))
  | WHITESPACE | NEWLINE =>
      upd (Table r) st
  end.

Definition backslash : ascii := "\"%char.
Definition dquote : ascii := "034"%char.
Definition squote : ascii := "'"%char.
Definition dot : ascii := "."%char.
Definition hash : ascii := "#"%char.
Definition underscore : ascii := "_"%char.
Definition linefeed : ascii := "010"%char.

(** The loop of [processString]: from index [i], the index where it
    stops. One unit of fuel per iteration; [len text] units are enough
    since every iteration moves [i] forward. *)
Fixpoint processString_loop (fuel : nat) (text : string) (quote : ascii)
    (i : nat) : nat :=
  match fuel with
  | O => i
  | S fuel' =>
      match Str.at_ text i with
      | Some ch =>
          if decide (ch = quote) then i
          else if bool_decide (ch = backslash) && (i + 1 <? Str.len text)%nat
               then processString_loop fuel' text quote (i + 2)
               else processString_loop fuel' text quote (i + 1)
      | None => i
      end
  end.

Definition processString (text : string) (line column : Z) (quote : ascii)
  : Token * nat :=
  let i := processString_loop (Str.len text) text quote 1 in
  if (Str.len text <=? i)%nat
  then (mkToken ERROR text line column, Str.len text)
  else (mkToken STRING (Str.upto (i + 1) text) line column, (i + 1)%nat).

(** The loop of [processNumber], on the pair [(i, hasDecimal)]. *)
Fixpoint processNumber_loop (fuel : nat) (text : string)
    (i : nat) (hasDecimal : bool) : nat :=
  match fuel with
  | O => i
  | S fuel' =>
      match Str.at_ text i with
      | Some ch =>
          if Unicode.IsDigit ch || bool_decide (ch = dot) then
            if bool_decide (ch = dot) then
              if hasDecimal then i
              else processNumber_loop fuel' text (i + 1) true
            else processNumber_loop fuel' text (i + 1) hasDecimal
          else i
      | None => i
      end
  end.

Definition processNumber (text : string) (line column : Z) : Token * nat :=
  let i := processNumber_loop (Str.len text) text 0 false in
  (mkToken NUMBER (Str.upto i text) line column, i).

Fixpoint processIdentifier_loop (fuel : nat) (text : string) (i : nat) : nat :=
  match fuel with
  | O => i
  | S fuel' =>
      match Str.at_ text i with
      | Some ch =>
          if Unicode.IsLetter ch || Unicode.IsDigit ch
             || bool_decide (ch = underscore)
          then processIdentifier_loop fuel' text (i + 1)
          else i
      | None => i
      end
  end.

Definition processIdentifier (text : string) (line column : Z) : Token * nat :=
  let i := processIdentifier_loop (Str.len text) text 0 in
  let value := Str.upto i text in
  let tokenType := if isKeyword value then KEYWORD else IDENTIFIER in
  (mkToken tokenType value line column, i).

(** [for _, symbol := range pythonSymbols { if symbol == x { ... } }] *)
Definition inSymbols (x : string) : bool :=
  existsb (fun symbol => bool_decide (symbol = x)) pythonSymbols.

(** [oneChar := string(text[0])] converts the byte as a code point, so a
    byte from 128 on becomes two bytes. [text] is never empty here:
    [text[0]] is the byte the caller stands on. The empty case is the
    index panic of Go and is unreachable from [processLine]; the model
    returns the error token of an empty lexeme. *)
Definition processSymbol (text : string) (line column : Z) : Token * nat :=
  let twoChar := Str.upto 2 text in
  if (2 <=? Str.len text)%nat && inSymbols twoChar
  then (mkToken SYMBOL twoChar line column, 2%nat)
  else
    let oneChar := match Str.at_ text 0 with
                   | Some ch => Str.of_rune ch
                   | None => EmptyString
                   end in
    if inSymbols oneChar
    then (mkToken SYMBOL oneChar line column, 1%nat)
    else (mkToken ERROR oneChar line column, 1%nat).

Definition appendError (msg : string) (r : LexicalResult) : LexicalResult :=
  mkLexicalResult (Tokens r) (Table r) (Statistics r) (Errors r ++ [msg])%list
                  (ReservedWords r).

Definition unrecognized (ch : ascii) (lineNum column : Z) : string :=
  "Carácter no reconocido '" ++ Fmt.c ch ++ "' en línea " ++ Fmt.d lineNum
  ++ ", columna " ++ Fmt.d column.

(** The loop of [processLine] on the pair [(i, column)]. Every branch
    other than the comment moves [i] forward, so [len line] units of fuel
    cover the whole line. *)
Fixpoint processLine_loop (fuel : nat) (line : string) (lineNum : Z)
    (i : nat) (column : Z) (r : LexicalResult) : LexicalResult :=
  match fuel with
  | O => r
  | S fuel' =>
      match Str.at_ line i with
      | None => r
      | Some char =>
          if Unicode.IsSpace char then
            processLine_loop fuel' line lineNum (i + 1) (column + 1) r
          else if decide (char = hash) then r
          else if bool_decide (char = dquote) || bool_decide (char = squote) then
            let '(token, length) := processString (Str.from i line) lineNum column char in
            processLine_loop fuel' line lineNum (i + length)
              (column + Z.of_nat length) (addToken token r)
          else if Unicode.IsDigit char then
            let '(token, length) := processNumber (Str.from i line) lineNum column in
            processLine_loop fuel' line lineNum (i + length)
              (column + Z.of_nat length) (addToken token r)
          else if Unicode.IsLetter char || bool_decide (char = underscore) then
            let '(token, length) := processIdentifier (Str.from i line) lineNum column in
            processLine_loop fuel' line lineNum (i + length)
              (column + Z.of_nat length) (addToken token r)
          else
            let '(token, length) := processSymbol (Str.from i line) lineNum column in
            let r1 :=
              if decide (Type_ token = ERROR)
              then appendError (unrecognized char lineNum column) r
              else r in
            processLine_loop fuel' line lineNum (i + length)
              (column + Z.of_nat length) (addToken token r1)
      end
  end.

Definition processLine (line : string) (lineNum : Z) (r : LexicalResult)
  : LexicalResult :=
  processLine_loop (Str.len line) line lineNum 0 1 r.

(** [for lineNum, line := range lines { r.processLine(line, lineNum+1) }] *)
Fixpoint processLines (lines : list string) (lineNum : Z) (r : LexicalResult)
  : LexicalResult :=
  match lines with
  | [] => r
  | line :: rest => processLines rest (lineNum + 1) (processLine line (lineNum + 1) r)
  end.

Definition emptyResult : LexicalResult :=
  mkLexicalResult []
    (list_to_map [("PR", []); ("ID", []); ("Numeros", []);
                  ("Simbolos", []); ("Error", [])])
    (mkStats 0 0 0 0 0 0) [] 0.

Definition Analyze (code : string) : LexicalResult :=
  let lines := Str.split code linefeed in
  let result := processLines lines 0 emptyResult in
  mkLexicalResult (Tokens result) (Table result) (Statistics result)
    (Errors result) (Keywords (Statistics result)).

End Lexer.

(** ** Package [parser] *)

Module Parser.

Import Lexer.

#[local] Set Warnings "-register-all".

(** [ASTNode]; a child is a pointer and may be nil. *)
Inductive ASTNode :=
  Node (ty : string) (value : string) (line : Z) (children : list (option ASTNode)).

Definition NodeType (n : ASTNode) : string := let 'Node ty _ _ _ := n in ty.
Definition NodeValue (n : ASTNode) : string := let 'Node _ v _ _ := n in v.
Definition NodeLine (n : ASTNode) : Z := let 'Node _ _ l _ := n in l.
Definition Children (n : ASTNode) : list (option ASTNode) :=
  let 'Node _ _ _ ch := n in ch.

(** Induction over a tree goes through the list of children. *)
Definition childP (P : ASTNode -> Prop) (o : option ASTNode) : Prop :=
  match o with
  | None => True
  | Some n => P n
  end.

Fixpoint ASTNode_nested_ind (P : ASTNode -> Prop)
    (H : forall ty value line children,
           Forall (childP P) children -> P (Node ty value line children))
    (n : ASTNode) : P n :=
  match n with
  | Node ty value line children =>
      H ty value line children
        ((fix go (l : list (option ASTNode)) : Forall (childP P) l :=
            match l with
            | [] => List.Forall_nil _
            | o :: l' =>
                @List.Forall_cons _ _ o l'
                  (match o return childP P o with
                   | None => I
                   | Some c => ASTNode_nested_ind P H c
                   end)
                  (go l')
            end) children)
  end.

Record Parser := mkParser {
  tokens : list Token;
  current : nat;
  errors : list string;
  indent : Z
}.

Record SyntaxResult := mkSyntaxResult {
  AST : option ASTNode;
  Errors : list string;
  Success : bool;
  ErrorLine : Z
}.

(** What a call on the parser can end in: a value and the parser as the
    call left it, the run-time panic of a nil dereference, or no answer
    within the fuel given. *)
Inductive outcome (A : Type) :=
  | Ret (a : A) (p : Parser)
  | Panic
  | Timeout.
Arguments Ret {A} a p.
Arguments Panic {A}.
Arguments Timeout {A}.

Definition M (A : Type) : Type := Parser -> outcome A.

Definition ret {A} (a : A) : M A := fun p => Ret a p.
Definition bind {A B} (m : M A) (k : A -> M B) : M B :=
  fun p => match m p with
           | Ret a p' => k a p'
           | Panic => Panic
           | Timeout => Timeout
           end.
Definition panic {A} : M A := fun _ => Panic.
Definition timeout {A} : M A := fun _ => Timeout.

Notation "'do' x <- m ;; k" := (bind m (fun x => k))
  (at level 10, x name, m at level 99, k at level 200).
Notation "'exec' m ;; k" := (bind m (fun _ => k))
  (at level 10, m at level 99, k at level 200).

(** *** Auxiliary methods *)

Definition isAtEnd (p : Parser) : bool := (length (tokens p) <=? current p)%nat.

Definition peek (p : Parser) : Token :=
  if isAtEnd p then zeroToken else default zeroToken (tokens p !! current p).

(** [p.tokens[p.current-1]]: in range, [current] never passes [len]. *)
Definition previous (p : Parser) : Token :=
  match current p with
  | O => zeroToken
  | S c => default zeroToken (tokens p !! c)
  end.

Definition check (tokenValue : string) (p : Parser) : bool :=
  if isAtEnd p then false else bool_decide (Value (peek p) = tokenValue).

Definition checkType (tokenType : TokenType) (p : Parser) : bool :=
  if isAtEnd p then false else bool_decide (Type_ (peek p) = tokenType).

Definition checkNext (tokenValue : string) (p : Parser) : bool :=
  match tokens p !! (current p + 1)%nat with
  | None => false
  | Some t => bool_decide (Value t = tokenValue)
  end.

Definition step (p : Parser) : Parser :=
  if isAtEnd p then p
  else mkParser (tokens p) (current p + 1) (errors p) (indent p).

Definition advance : M Token := fun p => Ret (previous (step p)) (step p).

Fixpoint match_ (types : list string) : M bool :=
  match types with
  | [] => ret false
  | t :: rest =>
      fun p => if check t p then (exec advance ;; ret true) p else match_ rest p
  end.

Definition error (message : string) : M unit :=
  fun p =>
    let line := if isAtEnd p then 1 else Line (peek p) in
    Ret tt (mkParser (tokens p) (current p)
              (errors p ++ [("Error en línea " ++ Fmt.d line ++ ": " ++ message)%string])%list
              (indent p)).

(** Reading the parser without changing it. *)
Definition get {A} (f : Parser -> A) : M A := fun p => Ret (f p) p.

(** *** Productions *)

(** The parameter loop of [parseFunctionDef]. *)
Fixpoint parseParams (fuel : nat) (params : list (option ASTNode))
  : M (list (option ASTNode)) :=
  match fuel with
  | O => timeout
  | S n =>
      do isId <- get (checkType IDENTIFIER) ;;
      if negb isId then
        exec error "Se esperaba nombre de parámetro" ;; ret params
      else
        do tok <- advance ;;
        do prev <- get previous ;;
        let param := Node "Parameter" (Value tok) (Line prev) [] in
        let params' := (params ++ [Some param])%list in
        do more <- match_ [","] ;;
        if more then parseParams n params' else ret params'
  end.

Definition comparisonOps : list string := [">"; "<"; ">="; "<="; "=="; "!="].
Definition termOps : list string := ["+"; "-"].

(** [&ASTNode{Type: "BinaryOp", Value: operator, Line: expr.Line,
    Children: {expr, right}}]; reading [expr.Line] through a nil [expr]
    panics. *)
Definition binaryOp (operator : string) (expr right : option ASTNode)
  : M (option ASTNode) :=
  match expr with
  | None => panic
  | Some e => ret (Some (Node "BinaryOp" operator (NodeLine e) [expr; right]))
  end.

#[local] Set Warnings "-non-full-mutual".
Fixpoint parseStatement (fuel : nat) : M (option ASTNode) :=
  match fuel with
  | O => timeout
  | S n =>
      do isDef <- match_ ["def"] ;;
      if isDef then parseFunctionDef n else
      do isIf <- match_ ["if"] ;;
      if isIf then parseIfStatement n else
      do isPrint <- get (check "print") ;;
      if isPrint then parseExpressionStatement n else
      do isId <- get (checkType IDENTIFIER) ;;
      if isId then parseAssignmentOrExpression n else
      parseExpressionStatement n
  end

with parseFunctionDef (fuel : nat) : M (option ASTNode) :=
  match fuel with
  | O => timeout
  | S n =>
      do prev <- get previous ;;
      let line := Line prev in
      do isId <- get (checkType IDENTIFIER) ;;
      if negb isId then (exec error "Se esperaba nombre de función" ;; ret None) else
      do nameTok <- advance ;;
      let name := Value nameTok in
      do lp <- match_ ["("] ;;
      if negb lp then
        exec error "Se esperaba '(' después del nombre de función" ;; ret None
      else
      do closed <- get (check ")") ;;
      do params <- (if negb closed then parseParams n [] else ret []) ;;
      do rp <- match_ [")"] ;;
      if negb rp then
        exec error "Se esperaba ')' después de los parámetros" ;; ret None
      else
      do colon <- match_ [":"] ;;
      if negb colon then
        exec error "Se esperaba ':' después de la definición de función" ;; ret None
      else
      do body <- parseBlock n ;;
      ret (Some (Node "FunctionDef" name line (params ++ [Some body])%list))
  end

with parseIfStatement (fuel : nat) : M (option ASTNode) :=
  match fuel with
  | O => timeout
  | S n =>
      do prev <- get previous ;;
      let line := Line prev in
      do condition <- parseExpression n ;;
      match condition with
      | None => ret None
      | Some _ =>
          do colon <- match_ [":"] ;;
          if negb colon then
            exec error "Se esperaba ':' después de la condición if" ;; ret None
          else
          do thenBranch <- parseBlock n ;;
          ret (Some (Node "IfStatement" EmptyString line [condition; Some thenBranch]))
      end
  end

with parseBlock (fuel : nat) : M ASTNode :=
  match fuel with
  | O => timeout
  | S n =>
      do tok <- get peek ;;
      do children <- parseBlock_loop n [] ;;
      ret (Node "Block" EmptyString (Line tok) children)
  end

with parseBlock_loop (fuel : nat) (children : list (option ASTNode))
  : M (list (option ASTNode)) :=
  match fuel with
  | O => timeout
  | S n =>
      do continue <- get (fun p => negb (isAtEnd p) && negb (check "def" p)
                                && negb (check "if" p)
                                && negb (checkNext "def" p)
                                && negb (checkNext "if" p)) ;;
      if negb continue then ret children else
      do stmt <- parseStatement n ;;
      do children' <- match stmt with
                   | Some _ => ret (children ++ [stmt])%list
                   | None => exec advance ;; ret children
                   end ;;
      do last <- get (fun p => (Z.of_nat (length (tokens p)) - 1 <=? Z.of_nat (current p))) ;;
      if last then ret children' else parseBlock_loop n children'
  end

with parseAssignmentOrExpression (fuel : nat) : M (option ASTNode) :=
  match fuel with
  | O => timeout
  | S n =>
      do isAssign <- get (fun p =>
        match tokens p !! (current p + 1)%nat with
        | Some t => bool_decide (Value t = "=")
        | None => false
        end) ;;
      if isAssign then parseAssignment n else parseExpressionStatement n
  end

with parseAssignment (fuel : nat) : M (option ASTNode) :=
  match fuel with
  | O => timeout
  | S n =>
      do tok <- get peek ;;
      let line := Line tok in
      do isId <- get (checkType IDENTIFIER) ;;
      if negb isId then
        exec error "Se esperaba identificador en asignación" ;; ret None
      else
      do nameTok <- advance ;;
      let name := Value nameTok in
      do eq <- match_ ["="] ;;
      if negb eq then (exec error "Se esperaba '=' en asignación" ;; ret None) else
      do value <- parseExpression n ;;
      match value with
      | None => ret None
      | Some _ => ret (Some (Node "Assignment" name line [value]))
      end
  end

with parseExpressionStatement (fuel : nat) : M (option ASTNode) :=
  match fuel with
  | O => timeout
  | S n =>
      do expr <- parseExpression n ;;
      match expr with
      | None => ret None
      | Some e => ret (Some (Node "ExpressionStatement" EmptyString (NodeLine e) [expr]))
      end
  end

with parseExpression (fuel : nat) : M (option ASTNode) :=
  match fuel with
  | O => timeout
  | S n => parseComparison n
  end

with parseComparison (fuel : nat) : M (option ASTNode) :=
  match fuel with
  | O => timeout
  | S n => do expr <- parseTerm n ;; parseComparison_loop n expr
  end

with parseComparison_loop (fuel : nat) (expr : option ASTNode)
  : M (option ASTNode) :=
  match fuel with
  | O => timeout
  | S n =>
      do more <- match_ comparisonOps ;;
      if negb more then ret expr else
      do opTok <- get previous ;;
      do right <- parseTerm n ;;
      do expr' <- binaryOp (Value opTok) expr right ;;
      parseComparison_loop n expr'
  end

with parseTerm (fuel : nat) : M (option ASTNode) :=
  match fuel with
  | O => timeout
  | S n => do expr <- parseFactor n ;; parseTerm_loop n expr
  end

with parseTerm_loop (fuel : nat) (expr : option ASTNode) : M (option ASTNode) :=
  match fuel with
  | O => timeout
  | S n =>
      do more <- match_ termOps ;;
      if negb more then ret expr else
      do opTok <- get previous ;;
      do right <- parseFactor n ;;
      do expr' <- binaryOp (Value opTok) expr right ;;
      parseTerm_loop n expr'
  end

with parseFactor (fuel : nat) : M (option ASTNode) :=
  match fuel with
  | O => timeout
  | S n =>
      do lp <- match_ ["("] ;;
      if lp then
        do expr <- parseExpression n ;;
        do rp <- match_ [")"] ;;
        exec (if negb rp then error "Se esperaba ')' después de la expresión"
         else ret tt) ;;
        ret expr
      else
      do isNum <- get (checkType NUMBER) ;;
      if isNum then
        do tok <- advance ;;
        do prev <- get previous ;;
        ret (Some (Node "Number" (Value tok) (Line prev) []))
      else
      do isStr <- get (checkType STRING) ;;
      if isStr then
        do tok <- advance ;;
        do prev <- get previous ;;
        ret (Some (Node "String" (Value tok) (Line prev) []))
      else
      do isId <- get (checkType IDENTIFIER) ;;
      if isId then
        do nameTok <- advance ;;
        let name := Value nameTok in
        do call <- match_ ["("] ;;
        if call then
          do closed <- get (check ")") ;;
          do args <- (if negb closed then parseArgs n [] else ret []) ;;
          do rp <- match_ [")"] ;;
          exec (if negb rp then error "Se esperaba ')' después de los argumentos"
           else ret tt) ;;
          do prev <- get previous ;;
          ret (Some (Node "FunctionCall" name (Line prev) args))
        else
        do isDot <- match_ ["."] ;;
        if isDot then
          do isMethod <- get (checkType IDENTIFIER) ;;
          if negb isMethod then
            exec error "Se esperaba nombre de método después de '.'" ;; ret None
          else
          do methodTok <- advance ;;
          let method := Value methodTok in
          do mcall <- match_ ["("] ;;
          if mcall then
            do closed <- get (check ")") ;;
            do args <- (if negb closed then parseArgs n [] else ret []) ;;
            do rp <- match_ [")"] ;;
            exec (if negb rp
             then error "Se esperaba ')' después de los argumentos del método"
             else ret tt) ;;
            do prev <- get previous ;;
            ret (Some (Node "MethodCall" (name ++ "." ++ method) (Line prev) args))
          else
            do prev <- get previous ;;
            ret (Some (Node "Identifier" name (Line prev) []))
        else
          do prev <- get previous ;;
          ret (Some (Node "Identifier" name (Line prev) []))
      else
        exec error "Se esperaba expresión" ;; ret None
  end

(** The argument loop shared by the two call forms of [parseFactor]. *)
with parseArgs (fuel : nat) (args : list (option ASTNode))
  : M (list (option ASTNode)) :=
  match fuel with
  | O => timeout
  | S n =>
      do arg <- parseExpression n ;;
      let args' := match arg with
                   | Some _ => (args ++ [arg])%list
                   | None => args
                   end in
      do more <- match_ [","] ;;
      if more then parseArgs n args' else ret args'
  end.

(** The loop of [parseProgram]. A nil statement is dropped and the loop
    goes round again, with no [advance]. *)
Fixpoint parseProgram_loop (fuel : nat) (children : list (option ASTNode))
  : M (list (option ASTNode)) :=
  match fuel with
  | O => timeout
  | S n =>
      do atEnd <- get isAtEnd ;;
      if atEnd then ret children else
      do stmt <- parseStatement n ;;
      match stmt with
      | Some _ => parseProgram_loop n (children ++ [stmt])%list
      | None => parseProgram_loop n children
      end
  end.

Definition parseProgram (fuel : nat) : M ASTNode :=
  do children <- parseProgram_loop fuel [] ;;
  ret (Node "Program" EmptyString 1 children).

Definition filterTokens (toks : list Token) : list Token :=
  filter (fun token => Type_ token ≠ WHITESPACE ∧ Type_ token ≠ NEWLINE) toks.

(** [len(p.errors) == 0 ? 0 : the line scanned from the first message].
    Every message is written by [error] and starts with
    [Error en línea <n>:], so the [Sscanf] reads back [n]. The verb [%d]
    of [Sscanf] takes an optional sign and then the run of decimal
    digits; with no digit nothing is stored and [line] keeps its zero. *)
Fixpoint scanDigits (s : string) (acc : Z) : Z :=
  match s with
  | String ch s' =>
      if Unicode.IsDigit ch
      then scanDigits s' (10 * acc + (Z.of_N (N_of_ascii ch) - 48))
      else acc
  | EmptyString => acc
  end.

Definition scanInt (s : string) : Z :=
  match s with
  | String "-" s' => - scanDigits s' 0
  | String "+" s' => scanDigits s' 0
  | _ => scanDigits s 0
  end.

Definition getErrorLine (p : Parser) : Z :=
  match errors p with
  | [] => 0
  | errorMsg :: _ =>
      if Str.contains errorMsg "línea "
      then if Str.has_prefix "Error en línea " errorMsg
           then scanInt (Str.from (Str.len "Error en línea ") errorMsg)
           else 0
      else 0
  end.

(** The parser a call of [Analyze] starts from. *)
Definition newParser (toks : list Token) : Parser :=
  mkParser (filterTokens toks) 0 [] 0.

Inductive result (A : Type) :=
  | Done (a : A)
  | Panicked
  | OutOfFuel.
Arguments Done {A} a.
Arguments Panicked {A}.
Arguments OutOfFuel {A}.

Definition Analyze (fuel : nat) (toks : list Token) : result SyntaxResult :=
  match parseProgram fuel (newParser toks) with
  | Ret ast p =>
      Done (mkSyntaxResult (Some ast) (errors p)
              (bool_decide (errors p = [])) (getErrorLine p))
  | Panic => Panicked
  | Timeout => OutOfFuel
  end.

End Parser.

(** ** Package [semantico] *)

Module Semantico.

Import Parser.

Inductive VarType := IntType | StringType | BoolType | UnknownType.

#[global] Instance VarType_eq_dec : EqDecision VarType.
Proof. solve_decision. Defined.

(** The struct [Variable]. *)
Record Variable_ := mkVariable {
  Name : string;
  Type_ : VarType;
  Line : Z
}.

Record SemanticAnalyzer := mkAnalyzer {
  variables : gmap string Variable_;
  errors : list string;
  tokens : list Lexer.Token
}.

Record SemanticResult := mkSemanticResult {
  Errors : list string;
  Variables : gmap string Variable_;
  TypeMismatches : list string;
  Success : bool
}.

Definition addError (line : Z) (message : string) (sa : SemanticAnalyzer)
  : SemanticAnalyzer :=
  mkAnalyzer (variables sa)
    (errors sa ++ [("Error semántico en línea " ++ Fmt.d line ++ ": " ++ message)%string])%list
    (tokens sa).

Definition setVariable (name : string) (v : Variable_) (sa : SemanticAnalyzer)
  : SemanticAnalyzer :=
  mkAnalyzer (<[name := v]> (variables sa)) (errors sa) (tokens sa).

Definition isComparison (operator : string) : bool :=
  bool_decide (operator = ">") || bool_decide (operator = "<")
  || bool_decide (operator = ">=") || bool_decide (operator = "<=")
  || bool_decide (operator = "==") || bool_decide (operator = "!=").

Fixpoint inferType (vars : gmap string Variable_) (node : ASTNode) : VarType :=
  let infer (o : option ASTNode) : VarType :=
    match o with
    | None => UnknownType
    | Some n => inferType vars n
    end in
  match node with
  | Node ty value _ children =>
      if decide (ty = "Number") then IntType
      else if decide (ty = "String") then StringType
      else if decide (ty = "Identifier") then
        match vars !! value with
        | Some variable => Type_ variable
        | None => UnknownType
        end
      else if decide (ty = "BinaryOp") then
        if isComparison value then BoolType
        else
          match children with
          | leftNode :: rightNode :: _ =>
              let leftType := infer leftNode in
              let rightType := infer rightNode in
              if bool_decide (leftType = IntType) && bool_decide (rightType = IntType)
              then IntType
              else if bool_decide (leftType = StringType)
                      || bool_decide (rightType = StringType)
              then StringType
              else UnknownType
          | _ => UnknownType
          end
      else if decide (ty = "MethodCall") then
        if Str.contains value ".lower" then StringType else UnknownType
      else UnknownType
  end.

(** [sa.inferType(node)] on a pointer. *)
Definition inferTypeOf (sa : SemanticAnalyzer) (o : option ASTNode) : VarType :=
  match o with
  | None => UnknownType
  | Some n => inferType (variables sa) n
  end.

(** The methods below call [analyzeNode] on children of their node; they
    take it as the argument [visit] and [analyzeNode] ties the knot. *)
Section Methods.

Variable visit : option ASTNode -> SemanticAnalyzer -> SemanticAnalyzer.

(** [for _, child := range children { sa.analyzeNode(child) }] *)
Definition analyzeChildren (children : list (option ASTNode))
    (sa : SemanticAnalyzer) : SemanticAnalyzer :=
  fold_left (fun acc child => visit child acc) children sa.

Definition analyzeAssignment (node : ASTNode) (sa : SemanticAnalyzer)
  : SemanticAnalyzer :=
  let varName := NodeValue node in
  match Children node with
  | [] => addError (NodeLine node) "Asignación sin valor" sa
  | valueNode :: _ =>
      let varType := inferTypeOf sa valueNode in
      let sa1 := setVariable varName (mkVariable varName varType (NodeLine node)) sa in
      visit valueNode sa1
  end.

Definition compareError (operator : string) (leftType rightType : VarType)
  : option string :=
  if bool_decide (operator = ">") || bool_decide (operator = "<")
     || bool_decide (operator = ">=") || bool_decide (operator = "<=")
  then
    if bool_decide (leftType = StringType) && bool_decide (rightType = IntType)
    then Some ("No se puede comparar string con número usando '" ++ operator ++ "'")
    else if bool_decide (leftType = IntType) && bool_decide (rightType = StringType)
    then Some ("No se puede comparar número con string usando '" ++ operator ++ "'")
    else None
  else if bool_decide (operator = "==") || bool_decide (operator = "!=")
  then
    if bool_decide (leftType = StringType) && bool_decide (rightType = IntType)
    then Some "Comparación entre tipos incompatibles: string y número"
    else if bool_decide (leftType = IntType) && bool_decide (rightType = StringType)
    then Some "Comparación entre tipos incompatibles: número y string"
    else None
  else if bool_decide (operator = "+") || bool_decide (operator = "-")
          || bool_decide (operator = "*") || bool_decide (operator = "/")
  then
    if (bool_decide (leftType = StringType) || bool_decide (rightType = StringType))
       && negb (bool_decide (operator = "+"))
    then Some ("Operador '" ++ operator ++ "' no válido para strings")
    else None
  else None.

Definition analyzeBinaryOperation (node : ASTNode) (sa : SemanticAnalyzer)
  : SemanticAnalyzer :=
  match Children node with
  | leftNode :: rightNode :: _ =>
      let operator := NodeValue node in
      let leftType := inferTypeOf sa leftNode in
      let rightType := inferTypeOf sa rightNode in
      let sa1 := match compareError operator leftType rightType with
                 | Some message => addError (NodeLine node) message sa
                 | None => sa
                 end in
      visit rightNode (visit leftNode sa1)
  | _ => addError (NodeLine node) "Operación binaria incompleta" sa
  end.

Definition analyzeCondition (node : option ASTNode) (sa : SemanticAnalyzer)
  : SemanticAnalyzer :=
  match node with
  | None => sa
  | Some n =>
      if decide (NodeType n = "BinaryOp") then analyzeBinaryOperation n sa
      else visit node sa
  end.

Definition analyzeIfStatement (node : ASTNode) (sa : SemanticAnalyzer)
  : SemanticAnalyzer :=
  match Children node with
  | [] => addError (NodeLine node) "Declaración if sin condición" sa
  | condition :: _ =>
      analyzeChildren (Children node) (analyzeCondition condition sa)
  end.

(** The check of a dotted name [objectName.methodName]. *)
Definition methodError (sa : SemanticAnalyzer) (objectName methodName : string)
  : option string :=
  match variables sa !! objectName with
  | Some variable =>
      if bool_decide (Type_ variable = StringType) && bool_decide (methodName = "lower")
      then None
      else if negb (bool_decide (Type_ variable = StringType))
              && bool_decide (methodName = "lower")
      then Some ("El método 'lower()' no está disponible para el tipo de '"
                 ++ objectName ++ "'")
      else None
  | None => Some ("Variable '" ++ objectName ++ "' no está definida")
  end.

Definition analyzeFunctionCall (node : ASTNode) (sa : SemanticAnalyzer)
  : SemanticAnalyzer :=
  let funcName := NodeValue node in
  let sa1 :=
    if Str.contains funcName "." then
      match Str.split funcName Lexer.dot with
      | [objectName; methodName] =>
          match methodError sa objectName methodName with
          | Some message => addError (NodeLine node) message sa
          | None => sa
          end
      | _ => sa
      end
    else if decide (funcName = "print") then analyzeChildren (Children node) sa
    else sa in
  analyzeChildren (Children node) sa1.

End Methods.

Fixpoint analyzeNode_ (node : ASTNode) (sa : SemanticAnalyzer) {struct node}
  : SemanticAnalyzer :=
  let visit (o : option ASTNode) (acc : SemanticAnalyzer) :=
    match o with
    | None => acc
    | Some n => analyzeNode_ n acc
    end in
  match node with
  | Node ty _ _ children =>
      if decide (ty = "Assignment") then analyzeAssignment visit node sa
      else if decide (ty = "IfStatement") then analyzeIfStatement visit node sa
      else if decide (ty = "BinaryOp") then analyzeBinaryOperation visit node sa
      else if bool_decide (ty = "FunctionCall") || bool_decide (ty = "MethodCall")
      then analyzeFunctionCall visit node sa
      else analyzeChildren visit children sa
  end.

(** [sa.analyzeNode(node)], nil included. *)
Definition analyzeNode (node : option ASTNode) (sa : SemanticAnalyzer)
  : SemanticAnalyzer :=
  match node with
  | None => sa
  | Some n => analyzeNode_ n sa
  end.

Definition getTypeMismatches (sa : SemanticAnalyzer) : list string :=
  filter (fun err => Str.contains err "comparar" = true
                     ∨ Str.contains err "Comparación" = true) (errors sa).

Definition Analyze (toks : list Lexer.Token) (ast : option ASTNode)
  : SemanticResult :=
  let analyzer := analyzeNode ast (mkAnalyzer ∅ [] toks) in
  mkSemanticResult (errors analyzer) (variables analyzer)
    (getTypeMismatches analyzer) (bool_decide (errors analyzer = [])).

End Semantico.

(** ** The handler [analyzeCode], from the decoded request on *)

Record AnalysisResponse := mkResponse {
  LexicalAnalysis : Lexer.LexicalResult;
  SyntaxAnalysis : Parser.SyntaxResult;
  SemanticAnalysis : Semantico.SemanticResult;
  Success : bool;
  Error : string
}.

Definition analyzeCode (fuel : nat) (code : string)
  : Parser.result AnalysisResponse :=
  let lexicalResult := Lexer.Analyze code in
  match Parser.Analyze fuel (Lexer.Tokens lexicalResult) with
  | Parser.Done syntaxResult =>
      let semanticResult :=
        Semantico.Analyze (Lexer.Tokens lexicalResult) (Parser.AST syntaxResult) in
      let success :=
        bool_decide (Parser.Errors syntaxResult = [])
        && bool_decide (Semantico.Errors semanticResult = []) in
      let error :=
        if negb (bool_decide (Parser.Errors syntaxResult = []))
        then "Errores de sintaxis: " ++ Fmt.v (Parser.Errors syntaxResult)
        else if negb (bool_decide (Semantico.Errors semanticResult = []))
        then "Errores semánticos: " ++ Fmt.v (Semantico.Errors semanticResult)
        else EmptyString in
      Parser.Done (mkResponse lexicalResult syntaxResult semanticResult success error)
  | Parser.Panicked => Parser.Panicked
  | Parser.OutOfFuel => Parser.OutOfFuel
  end.

Definition lf : string := Str.of_byte Lexer.linefeed.

(** ** The package-level variables

    [pythonKeywords] and [pythonSymbols] are the only variables the
    three packages and the handler declare outside a function. A Go map
    and a Go slice can be written through, and every request the process
    serves sees the same two objects. [Shared] runs the lexer and the
    handler on an explicit store that holds them: each function takes
    the store and hands it on as the code it models leaves it. Both
    names are unexported, so the packages [parser], [semantico] and
    [main] cannot name them, and [processString], [processNumber] and
    [addToken] do not mention them: these are the functions above. *)

Module Shared.

Import Lexer.

Record Store := mkStore {
  pythonKeywords : gmap string bool;
  pythonSymbols : list string
}.

(** The store when the process starts: the two initialisers. *)
Definition initial : Store := mkStore Lexer.pythonKeywords Lexer.pythonSymbols.

Definition processIdentifier (text : string) (line column : Z) (st : Store)
  : Token * nat * Store :=
  let i := processIdentifier_loop (Str.len text) text 0 in
  let value := Str.upto i text in
  let tokenType :=
    if default false (pythonKeywords st !! value) then KEYWORD else IDENTIFIER in
  (mkToken tokenType value line column, i, st).

Definition inSymbols (x : string) (st : Store) : bool :=
  existsb (fun symbol => bool_decide (symbol = x)) (pythonSymbols st).

Definition processSymbol (text : string) (line column : Z) (st : Store)
  : Token * nat * Store :=
  let twoChar := Str.upto 2 text in
  if (2 <=? Str.len text)%nat && inSymbols twoChar st
  then (mkToken SYMBOL twoChar line column, 2%nat, st)
  else
    let oneChar := match Str.at_ text 0 with
                   | Some ch => Str.of_rune ch
                   | None => EmptyString
                   end in
    if inSymbols oneChar st
    then (mkToken SYMBOL oneChar line column, 1%nat, st)
    else (mkToken ERROR oneChar line column, 1%nat, st).

Fixpoint processLine_loop (fuel : nat) (line : string) (lineNum : Z)
    (i : nat) (column : Z) (r : LexicalResult) (st : Store)
  : LexicalResult * Store :=
  match fuel with
  | O => (r, st)
  | S fuel' =>
      match Str.at_ line i with
      | None => (r, st)
      | Some char =>
          if Unicode.IsSpace char then
            processLine_loop fuel' line lineNum (i + 1) (column + 1) r st
          else if decide (char = hash) then (r, st)
          else if bool_decide (char = dquote) || bool_decide (char = squote) then
            let '(token, length) :=
              Lexer.processString (Str.from i line) lineNum column char in
            processLine_loop fuel' line lineNum (i + length)
              (column + Z.of_nat length) (addToken token r) st
          else if Unicode.IsDigit char then
            let '(token, length) :=
              Lexer.processNumber (Str.from i line) lineNum column in
            processLine_loop fuel' line lineNum (i + length)
              (column + Z.of_nat length) (addToken token r) st
          else if Unicode.IsLetter char || bool_decide (char = underscore) then
            let '(token, length, st1) :=
              processIdentifier (Str.from i line) lineNum column st in
            processLine_loop fuel' line lineNum (i + length)
              (column + Z.of_nat length) (addToken token r) st1
          else
            let '(token, length, st1) :=
              processSymbol (Str.from i line) lineNum column st in
            let r1 :=
              if decide (Type_ token = ERROR)
              then appendError (unrecognized char lineNum column) r
              else r in
            processLine_loop fuel' line lineNum (i + length)
              (column + Z.of_nat length) (addToken token r1) st1
      end
  end.

Definition processLine (line : string) (lineNum : Z) (r : LexicalResult)
    (st : Store) : LexicalResult * Store :=
  processLine_loop (Str.len line) line lineNum 0 1 r st.

Fixpoint processLines (lines : list string) (lineNum : Z) (r : LexicalResult)
    (st : Store) : LexicalResult * Store :=
  match lines with
  | [] => (r, st)
  | line :: rest =>
      let '(r1, st1) := processLine line (lineNum + 1) r st in
      processLines rest (lineNum + 1) r1 st1
  end.

Definition Analyze (code : string) (st : Store) : LexicalResult * Store :=
  let lines := Str.split code linefeed in
  let '(result, st1) := processLines lines 0 emptyResult st in
  (mkLexicalResult (Tokens result) (Table result) (Statistics result)
     (Errors result) (Keywords (Statistics result)), st1).

(** The handler on the store. *)
Definition analyzeCode (fuel : nat) (code : string) (st : Store)
  : Parser.result AnalysisResponse * Store :=
  let '(lexicalResult, st1) := Analyze code st in
  match Parser.Analyze fuel (Lexer.Tokens lexicalResult) with
  | Parser.Done syntaxResult =>
      let semanticResult :=
        Semantico.Analyze (Lexer.Tokens lexicalResult) (Parser.AST syntaxResult) in
      let success :=
        bool_decide (Parser.Errors syntaxResult = [])
        && bool_decide (Semantico.Errors semanticResult = []) in
      let error :=
        if negb (bool_decide (Parser.Errors syntaxResult = []))
        then "Errores de sintaxis: " ++ Fmt.v (Parser.Errors syntaxResult)
        else if negb (bool_decide (Semantico.Errors semanticResult = []))
        then "Errores semánticos: " ++ Fmt.v (Semantico.Errors semanticResult)
        else EmptyString in
      (Parser.Done
         (mkResponse lexicalResult syntaxResult semanticResult success error), st1)
  | Parser.Panicked => (Parser.Panicked, st1)
  | Parser.OutOfFuel => (Parser.OutOfFuel, st1)
  end.

(** The store after the process has served the requests of [history],
    oldest first; a request is its text and the fuel its run is given. *)
Definition serve (history : list (nat * string)) (st : Store) : Store :=
  fold_left (fun st' request => snd (analyzeCode (fst request) (snd request) st'))
            history st.

End Shared.

(** ** Notions the properties are stated with *)

Module Spec.

Import Lexer.

(** A later token is on a later line, or on the same line further right. *)
Definition ordered (a b : Token) : Prop :=
  Line a <= Line b /\ (Line a = Line b -> Column a < Column b).

(** Every token stands before the position [(line, column)]. *)
Definition before (line column : Z) (t : Token) : Prop :=
  Line t < line \/ (Line t = line /\ Column t < column).

(** The body of a string literal, the text after its opening quote, has
    a closing quote: a byte equal to [quote] that is not consumed by a
    backslash before it. *)
Fixpoint hasClosingQuote (quote : ascii) (body : string) : bool :=
  match body with
  | EmptyString => false
  | String ch rest =>
      if decide (ch = quote) then true
      else if decide (ch = backslash) then
        match rest with
        | EmptyString => false
        | String _ rest' => hasClosingQuote quote rest'
        end
      else hasClosingQuote quote rest
  end.

(** An Error token of an unterminated string: its text starts with the
    quote that opened it. *)
Definition startsWithQuote (s : string) : bool :=
  match s with
  | EmptyString => false
  | String ch _ => bool_decide (ch = dquote) || bool_decide (ch = squote)
  end.

(** The Error tokens that are not unterminated strings. *)
Definition otherError (t : Token) : bool :=
  bool_decide (Type_ t = ERROR) && negb (startsWithQuote (Value t)).

(** A run of decimal digits. *)
Fixpoint allDigits (s : string) : bool :=
  match s with
  | EmptyString => true
  | String ch rest => Unicode.IsDigit ch && allDigits rest
  end.

(** No node of the tree is an assignment: the trees [parseExpression]
    builds are of this kind. *)
Fixpoint noAssign (n : Parser.ASTNode) : bool :=
  match n with
  | Parser.Node ty _ _ children =>
      negb (bool_decide (ty = "Assignment"))
      && forallb (fun o => match o with
                           | None => true
                           | Some c => noAssign c
                           end) children
  end.

Definition noAssignO (o : option Parser.ASTNode) : bool :=
  match o with
  | None => true
  | Some n => noAssign n
  end.

(** The diagnostics the analysis of [node] produces, started from the
    variable table of [sa] and an empty list. *)
Definition diagnosticsOf (node : option Parser.ASTNode)
    (sa : Semantico.SemanticAnalyzer) : list string :=
  Semantico.errors
    (Semantico.analyzeNode node
       (Semantico.mkAnalyzer (Semantico.variables sa) [] (Semantico.tokens sa))).

(** A name without a dot, as the identifiers of the lexer are. *)
Fixpoint dotFree (s : string) : bool :=
  match s with
  | EmptyString => true
  | String ch rest => negb (bool_decide (ch = dot)) && dotFree rest
  end.

(** The source text of the reassignment example. *)
Definition reassignment : string := "x = 5" ++ lf ++ "x = 'a'".

(** The texts the parser compares token values with, in [match] and
    [check]. *)
Definition matched : list string :=
  ["def"; "if"; "("; ")"; ","; ":"; "="; "."; "+"; "-";
   ">"; "<"; ">="; "<="; "=="; "!="].

Definition isMatched (value : string) : bool :=
  existsb (fun m => bool_decide (m = value)) matched.

(** No Error token carries a text the parser matches. *)
Definition errorsUnmatched (toks : list Token) : Prop :=
  Forall (fun t => Type_ t = ERROR -> isMatched (Value t) = false) toks.

(** A token that, if it is an Error token, has a text the parser never
    matches. *)
Definition okToken (t : Token) : Prop :=
  Type_ t = ERROR -> isMatched (Value t) = false.

(** Each diagnostic has its Error token, unterminated strings apart. *)
Definition diagnosticsMatch (r : LexicalResult) : Prop :=
  length (Errors r) = length (List.filter otherError (Tokens r)).

End Spec.

Module LexerSpec.

Import Str Lexer Spec.

(** The tokens of one type, and their texts. *)
Definition ofType (ty : TokenType) (toks : list Token) : list Token :=
  List.filter (fun t => bool_decide (Type_ t = ty)) toks.

Definition valuesOf (ty : TokenType) (toks : list Token) : list string :=
  map Value (ofType ty toks).

Definition countOf (ty : TokenType) (toks : list Token) : Z :=
  Z.of_nat (length (ofType ty toks)).

(** The category table and the counters say what the token list says. *)
Definition tallied (r : LexicalResult) : Prop :=
  Table r !! "PR" = Some (valuesOf KEYWORD (Tokens r))
  /\ Table r !! "ID" = Some (valuesOf IDENTIFIER (Tokens r))
  /\ Table r !! "Numeros" = Some (valuesOf NUMBER (Tokens r))
  /\ Table r !! "Simbolos" = Some (valuesOf SYMBOL (Tokens r))
  /\ Table r !! "Error" = Some (valuesOf ERROR (Tokens r))
  /\ dom (Table r) = {["PR"; "ID"; "Numeros"; "Simbolos"; "Error"]}
  /\ Keywords (Statistics r) = countOf KEYWORD (Tokens r)
  /\ Identifiers (Statistics r) = countOf IDENTIFIER (Tokens r)
  /\ Numbers (Statistics r) = countOf NUMBER (Tokens r)
  /\ Strings (Statistics r) = countOf STRING (Tokens r)
  /\ Symbols (Statistics r) = countOf SYMBOL (Tokens r)
  /\ StatErrors (Statistics r) = countOf ERROR (Tokens r).


(** Every byte of the string passes [f]. *)
Fixpoint allChars (f : ascii -> bool) (s : string) : bool :=
  match s with
  | EmptyString => true
  | String ch rest => f ch && allChars f rest
  end.

Definition identStart (ch : ascii) : bool :=
  Unicode.IsLetter ch || bool_decide (ch = underscore).

Definition identChar (ch : ascii) : bool :=
  Unicode.IsLetter ch || Unicode.IsDigit ch || bool_decide (ch = underscore).

(** A name: a letter or underscore, then letters, digits and
    underscores. *)
Definition identShaped (s : string) : bool :=
  match s with
  | EmptyString => false
  | String ch rest => identStart ch && allChars identChar rest
  end.

Definition numberChar (ch : ascii) : bool :=
  Unicode.IsDigit ch || bool_decide (ch = dot).

Fixpoint dots (s : string) : nat :=
  match s with
  | EmptyString => O
  | String ch rest => ((if bool_decide (ch = dot) then 1 else 0) + dots rest)%nat
  end.

(** A number: a digit, then digits and at most one dot. *)
Definition numberShaped (s : string) : bool :=
  match s with
  | EmptyString => false
  | String ch rest =>
      Unicode.IsDigit ch && allChars numberChar rest && (dots rest <=? 1)%nat
  end.

(** A string literal: at least two bytes, the first a quote and the last
    the same quote. *)
Definition stringShaped (s : string) : Prop :=
  exists quote,
    (quote = dquote \/ quote = squote)
    /\ (2 <= len s)%nat
    /\ at_ s 0 = Some quote
    /\ at_ s (len s - 1) = Some quote.

(** The text of a token by its type. *)
Definition shaped (t : Token) : Prop :=
  match Type_ t with
  | KEYWORD => identShaped (Value t) = true /\ isKeyword (Value t) = true
  | IDENTIFIER => identShaped (Value t) = true /\ isKeyword (Value t) = false
  | NUMBER => numberShaped (Value t) = true
  | STRING => stringShaped (Value t)
  | SYMBOL => inSymbols (Value t) = true
  | ERROR =>
      startsWithQuote (Value t) = true
      \/ (inSymbols (Value t) = false
          /\ exists ch, Value t = of_rune ch /\ identStart ch = false
                        /\ Unicode.IsDigit ch = false /\ Unicode.IsSpace ch = false)
  | WHITESPACE | NEWLINE => False
  end.

(** The token scanned at index [i] of [line] carries the bytes of the
    line from [i] on, as many as its text is long; the one exception is
    the Error token of a byte from 128 on, whose text is the two-byte
    encoding of that byte. *)
Definition lexemeAt (line : string) (i : nat) (t : Token) : Prop :=
  (Value t = upto (len (Value t)) (from i line)
   /\ (1 <= len (Value t))%nat /\ (i + len (Value t) <= len line)%nat)
  \/ (Type_ t = ERROR
      /\ exists ch, at_ line i = Some ch /\ (128 <= Unicode.code ch)%N
                    /\ Value t = of_rune ch).

(** The token stands at a line and column of the text that exist, and
    carries what is written there. *)
Definition placed (lines : list string) (t : Token) : Prop :=
  exists k line i,
    lines !! k = Some line
    /\ Line t = Z.of_nat k + 1
    /\ Column t = Z.of_nat i + 1
    /\ lexemeAt line i t.

(** The bytes of all lines together. *)
Definition totalLen (lines : list string) : nat :=
  fold_right (fun line n => (len line + n)%nat) O lines.

(** Line, column, lexeme and shape of a token scanned at index [i]. *)
Definition scannedAt (line : string) (lineNum : Z) (i : nat) (t : Token) : Prop :=
  Line t = lineNum /\ Column t = Z.of_nat i + 1 /\ lexemeAt line i t /\ shaped t.

End LexerSpec.

Module ParserSpec.

Import Lexer Parser.

(** [mle m1 m2]: wherever [m1] answers, [m2] gives the same answer. *)
Definition mle {A} (m1 m2 : M A) : Prop :=
  forall p, m1 p = Timeout \/ m1 p = m2 p.

(** The productions of the grammar, at two amounts of fuel. *)
Definition productions_mle (n m : nat) : Prop :=
  mle (parseStatement n) (parseStatement m)
  /\ mle (parseFunctionDef n) (parseFunctionDef m)
  /\ mle (parseIfStatement n) (parseIfStatement m)
  /\ mle (parseBlock n) (parseBlock m)
  /\ (forall children, mle (parseBlock_loop n children) (parseBlock_loop m children))
  /\ mle (parseAssignmentOrExpression n) (parseAssignmentOrExpression m)
  /\ mle (parseAssignment n) (parseAssignment m)
  /\ mle (parseExpressionStatement n) (parseExpressionStatement m)
  /\ mle (parseExpression n) (parseExpression m)
  /\ mle (parseComparison n) (parseComparison m)
  /\ (forall expr, mle (parseComparison_loop n expr) (parseComparison_loop m expr))
  /\ mle (parseTerm n) (parseTerm m)
  /\ (forall expr, mle (parseTerm_loop n expr) (parseTerm_loop m expr))
  /\ mle (parseFactor n) (parseFactor m)
  /\ (forall args, mle (parseArgs n args) (parseArgs m args)).

(** [post m Q]: every value [m] returns satisfies [Q]. *)
Definition post {A} (m : M A) (Q : A -> Prop) : Prop :=
  forall p a p', m p = Ret a p' -> Q a.

Definition NA (e : option ASTNode) : Prop := Spec.noAssignO e = true.
Definition NAs (l : list (option ASTNode)) : Prop := forallb Spec.noAssignO l = true.

Definition expressions_post (n : nat) : Prop :=
  post (parseExpression n) NA
  /\ post (parseComparison n) NA
  /\ (forall expr, NA expr -> post (parseComparison_loop n expr) NA)
  /\ post (parseTerm n) NA
  /\ (forall expr, NA expr -> post (parseTerm_loop n expr) NA)
  /\ post (parseFactor n) NA
  /\ (forall args, NAs args -> post (parseArgs n args) NAs).

(** The parser standing on a lone [)], with any diagnostics so far. *)
Definition stuck (errs : list string) : Parser :=
  mkParser [mkToken SYMBOL ")" 1 1] 0 errs 0.

Definition expectedExpression : string := "Error en línea 1: Se esperaba expresión".


(** Either a diagnostic is on record, or no token consumed so far is an
    Error token. *)
Definition accounted (p : Parser) : Prop :=
  Parser.errors p <> []
  \/ forall i t, (i < current p)%nat -> tokens p !! i = Some t -> Type_ t <> ERROR.

(** The invariant of a parse over the token list [toks]. *)
Definition Inv (toks : list Token) (p : Parser) : Prop :=
  tokens p = toks /\ accounted p.

(** [wp m Q p]: if [m] returns from [p], the value and the parser it
    leaves satisfy [Q]. *)
Definition wp {A} (m : M A) (Q : A -> Parser -> Prop) (p : Parser) : Prop :=
  match m p with
  | Ret a p' => Q a p'
  | Panic | Timeout => True
  end.

(** After a production that returns a node or nil: a nil comes with a
    diagnostic. *)
Definition PostO (toks : list Token) (o : option ASTNode) (p : Parser) : Prop :=
  Inv toks p /\ (o = None -> Parser.errors p <> []).

Definition PostU {A} (toks : list Token) (_ : A) (p : Parser) : Prop := Inv toks p.

Definition withDiagnostic (o : option ASTNode) (p : Parser) : Prop :=
  o = None -> Parser.errors p <> [].

Definition productions_wp (toks : list Token) (n : nat) : Prop :=
  (forall p, Inv toks p -> wp (parseStatement n) (PostO toks) p)
  /\ (forall p, Inv toks p -> wp (parseFunctionDef n) (PostO toks) p)
  /\ (forall p, Inv toks p -> wp (parseIfStatement n) (PostO toks) p)
  /\ (forall p, Inv toks p -> wp (parseBlock n) (PostU toks) p)
  /\ (forall children p, Inv toks p -> wp (parseBlock_loop n children) (PostU toks) p)
  /\ (forall p, Inv toks p -> wp (parseAssignmentOrExpression n) (PostO toks) p)
  /\ (forall p, Inv toks p -> wp (parseAssignment n) (PostO toks) p)
  /\ (forall p, Inv toks p -> wp (parseExpressionStatement n) (PostO toks) p)
  /\ (forall p, Inv toks p -> wp (parseExpression n) (PostO toks) p)
  /\ (forall p, Inv toks p -> wp (parseComparison n) (PostO toks) p)
  /\ (forall expr p, Inv toks p -> withDiagnostic expr p ->
        wp (parseComparison_loop n expr) (PostO toks) p)
  /\ (forall p, Inv toks p -> wp (parseTerm n) (PostO toks) p)
  /\ (forall expr p, Inv toks p -> withDiagnostic expr p ->
        wp (parseTerm_loop n expr) (PostO toks) p)
  /\ (forall p, Inv toks p -> wp (parseFactor n) (PostO toks) p)
  /\ (forall args p, Inv toks p -> wp (parseArgs n args) (PostU toks) p).


(** A diagnostic as [error] writes it over the tokens [toks]: the line
    is 1 or the line of one of the tokens. *)
Definition diagnostic (toks : list Token) (m : string) : Prop :=
  exists line message,
    m = "Error en línea " ++ Fmt.d line ++ ": " ++ message
    /\ (line = 1 \/ exists t, t ∈ toks /\ Line t = line).

(** [extends p p']: [p'] is [p] further on. The tokens and the indent
    are the same, the position has not moved back and has not passed the
    end, and the diagnostics of [p] are all there, in place, followed by
    what was added. *)
Definition extends (p p' : Parser) : Prop :=
  tokens p' = tokens p
  /\ indent p' = indent p
  /\ (current p <= current p')%nat
  /\ (current p' <= Nat.max (current p) (length (tokens p)))%nat
  /\ exists added,
       Parser.errors p' = (Parser.errors p ++ added)%list
       /\ Forall (diagnostic (tokens p)) added.

Definition forward {A} (m : M A) : Prop :=
  forall p0 p, extends p0 p -> wp m (fun _ p' => extends p0 p') p.

Definition productions_forward (n : nat) : Prop :=
  forward (parseStatement n)
  /\ forward (parseFunctionDef n)
  /\ forward (parseIfStatement n)
  /\ forward (parseBlock n)
  /\ (forall children, forward (parseBlock_loop n children))
  /\ forward (parseAssignmentOrExpression n)
  /\ forward (parseAssignment n)
  /\ forward (parseExpressionStatement n)
  /\ forward (parseExpression n)
  /\ forward (parseComparison n)
  /\ (forall expr, forward (parseComparison_loop n expr))
  /\ forward (parseTerm n)
  /\ (forall expr, forward (parseTerm_loop n expr))
  /\ forward (parseFactor n)
  /\ (forall args, forward (parseArgs n args)).


(** The tokens a statement can start with: the two keywords the
    statement productions match, an opening parenthesis, and the three
    token types [parseFactor] takes. *)
Definition startsStatement (t : Token) : bool :=
  bool_decide (Value t = "def") || bool_decide (Value t = "if")
  || bool_decide (Value t = "(")
  || bool_decide (Type_ t = NUMBER) || bool_decide (Type_ t = STRING)
  || bool_decide (Type_ t = IDENTIFIER).

(** The parser stands on the token [t]. *)
Definition standsOn (t : Token) (p : Parser) : Prop :=
  tokens p !! current p = Some t.

(** An outcome that, if it is a return at all, returns nil and leaves the
    parser on the token it stood on. *)
Definition idle (t : Token) (o : outcome (option ASTNode)) : Prop :=
  match o with
  | Ret a p' => a = None /\ standsOn t p'
  | Panic | Timeout => True
  end.

End ParserSpec.

Module SemanticoSpec.

Import Parser Semantico.

(** [appends f]: [f] leaves the variable table and the tokens as they
    are, and appends to the diagnostics a list that depends on the
    variable table alone. *)
Definition appends (f : SemanticAnalyzer -> SemanticAnalyzer) : Prop :=
  forall vars toks, exists E, forall errs,
    f (mkAnalyzer vars errs toks) = mkAnalyzer vars (errs ++ E)%list toks.


(** [assigned node name line]: the tree holds an assignment node with a
    value, of that name and on that line. *)
Fixpoint assigned (node : ASTNode) (name : string) (line : Z) : Prop :=
  match node with
  | Node ty value l children =>
      (ty = "Assignment" /\ children <> [] /\ value = name /\ l = line)
      \/ (fix any (cs : list (option ASTNode)) : Prop :=
            match cs with
            | [] => False
            | c :: cs' =>
                match c with
                | Some m => assigned m name line
                | None => False
                end \/ any cs'
            end) children
  end.

Definition assignedO (o : option ASTNode) (name : string) (line : Z) : Prop :=
  match o with
  | Some n => assigned n name line
  | None => False
  end.

(** A diagnostic as [addError] writes it. *)
Definition semanticDiagnostic (m : string) : Prop :=
  exists line message,
    m = "Error semántico en línea " ++ Fmt.d line ++ ": " ++ message.

(** Every entry of the variable table stands under its own name and
    comes from an assignment of [A]; every diagnostic was written by
    [addError]. *)
Definition tableFrom (A : string -> Z -> Prop) (sa : SemanticAnalyzer) : Prop :=
  (forall k v, variables sa !! k = Some v -> Name v = k /\ A k (Line v))
  /\ Forall semanticDiagnostic (Semantico.errors sa).

Definition preserves (A : string -> Z -> Prop)
    (f : SemanticAnalyzer -> SemanticAnalyzer) : Prop :=
  forall sa, tableFrom A sa -> tableFrom A (f sa).

End SemanticoSpec.

(** * Properties *)

(** ** Byte strings *)

Module StrFacts.

Import Str.

Lemma at_lt s i c : at_ s i = Some c -> (i < len s)%nat.
Proof.
  revert i; induction s as [|a s IH]; intros [|i]; simpl; try discriminate.
  - lia.
  - intros H. apply IH in H. unfold len in *. lia.
Qed.

Lemma at_ge s i : (len s <= i)%nat -> at_ s i = None.
Proof.
  revert i; induction s as [|a s IH]; intros [|i]; simpl; auto.
  - lia.
  - intros H. apply IH. unfold len in *. lia.
Qed.

Lemma at_None s i : at_ s i = None -> (len s <= i)%nat.
Proof.
  revert i; induction s as [|a s IH]; intros [|i]; simpl; try discriminate; try lia.
  intros H. apply IH in H. unfold len in *. lia.
Qed.

Lemma len_from i s : len (from i s) = (len s - i)%nat.
Proof.
  revert s; induction i as [|i IH]; intros [|a s]; simpl; auto.
Qed.

Lemma at_from i s j : at_ (from i s) j = at_ s (i + j).
Proof.
  revert s; induction i as [|i IH]; intros [|a s]; simpl; auto.
Qed.

Lemma from_cons i s c : at_ s i = Some c -> from i s = String c (from (S i) s).
Proof.
  revert s; induction i as [|i IH]; intros [|a s]; simpl; try discriminate.
  - intros [= ->]. reflexivity.
  - intros H. rewrite (IH _ H). reflexivity.
Qed.

Lemma from_all s i : (len s <= i)%nat -> from i s = EmptyString.
Proof.
  revert s; induction i as [|i IH]; intros [|a s]; simpl; auto.
  - lia.
  - intros H. apply IH. unfold len in *. lia.
Qed.

Lemma len_app a b : len (a ++ b) = (len a + len b)%nat.
Proof. unfold len. induction a as [|c a IH]; simpl; auto. Qed.

Lemma at_app_l a b i : (i < len a)%nat -> at_ (a ++ b) i = at_ a i.
Proof.
  revert i; induction a as [|c a IH]; intros i; simpl.
  - lia.
  - destruct i; auto. intros H. apply IH. unfold len in *. lia.
Qed.

Lemma at_app_r a b j : at_ (a ++ b) (len a + j) = at_ b j.
Proof. unfold len. induction a as [|c a IH]; simpl; auto. Qed.

Lemma from_from a b s : from a (from b s) = from (b + a) s.
Proof. revert s; induction b as [|b IH]; intros [|c s]; simpl; auto. destruct a; auto. Qed.

Lemma upto_app a b : upto (len a) (a ++ b) = a.
Proof.
  unfold len. induction a as [|c a IH]; simpl; [destruct b; reflexivity|].
  congruence.
Qed.

Lemma from_app a b : from (len a) (a ++ b) = b.
Proof. unfold len. induction a as [|c a IH]; simpl; auto. Qed.

End StrFacts.

(** ** The lexer *)

Module LexerFacts.

Import Str StrFacts Lexer Spec.

(** *** What [addToken] and [appendError] touch *)

Lemma Tokens_addToken t r : Tokens (addToken t r) = (Tokens r ++ [t])%list.
Proof. unfold addToken. destruct (Type_ t); reflexivity. Qed.

Lemma Errors_addToken t r : Errors (addToken t r) = Errors r.
Proof. unfold addToken. destruct (Type_ t); reflexivity. Qed.

Lemma Tokens_appendError m r : Tokens (appendError m r) = Tokens r.
Proof. reflexivity. Qed.

(** *** The scanning loops only move forward *)

Lemma processString_loop_ge fuel text quote i :
  (i <= processString_loop fuel text quote i)%nat.
Proof.
  revert i; induction fuel as [|fuel IH]; intros i; simpl; [lia|].
  destruct (at_ text i) as [ch|]; [|lia].
  destruct (decide (ch = quote)); [lia|].
  destruct (_ && _); [specialize (IH (i + 2)%nat) | specialize (IH (i + 1)%nat)]; lia.
Qed.

Lemma processNumber_loop_ge fuel text i h :
  (i <= processNumber_loop fuel text i h)%nat.
Proof.
  revert i h; induction fuel as [|fuel IH]; intros i h; simpl; [lia|].
  destruct (at_ text i) as [ch|]; [|lia].
  destruct (_ || _); [|lia].
  destruct (bool_decide _).
  - destruct h; [lia|]. specialize (IH (i + 1)%nat true); lia.
  - specialize (IH (i + 1)%nat h); lia.
Qed.

Lemma digit_not_dot ch : Unicode.IsDigit ch = true -> ch <> dot.
Proof. intros H ->. discriminate H. Qed.

(** Each of the four token scanners stamps the token with the position it
    is given and consumes at least one byte. *)
Lemma processString_pos text line column quote :
  (1 <= len text)%nat ->
  let '(t, n) := processString text line column quote in
  Line t = line /\ Column t = column /\ (1 <= n)%nat.
Proof.
  intros H. unfold processString.
  destruct (_ <=? _)%nat; simpl; repeat split; auto; lia.
Qed.

Lemma processNumber_pos text line column ch :
  at_ text 0 = Some ch -> Unicode.IsDigit ch = true ->
  let '(t, n) := processNumber text line column in
  Line t = line /\ Column t = column /\ (1 <= n)%nat.
Proof.
  intros Hat Hd. unfold processNumber. simpl. repeat split; auto.
  pose proof (at_lt _ _ _ Hat) as Hlen.
  destruct (len text) as [|fuel]; [lia|]. simpl. rewrite Hat, Hd. simpl.
  rewrite bool_decide_eq_false_2 by (apply digit_not_dot; exact Hd).
  pose proof (processNumber_loop_ge fuel text 1 false). simpl in *. lia.
Qed.

Lemma processIdentifier_loop_ge fuel text i :
  (i <= processIdentifier_loop fuel text i)%nat.
Proof.
  revert i; induction fuel as [|fuel IH]; intros i; simpl; [lia|].
  destruct (at_ text i) as [ch|]; [|lia].
  destruct (_ || _); [|lia]. specialize (IH (i + 1)%nat); lia.
Qed.

Lemma processIdentifier_pos text line column ch :
  at_ text 0 = Some ch ->
  Unicode.IsLetter ch || bool_decide (ch = underscore) = true ->
  let '(t, n) := processIdentifier text line column in
  Line t = line /\ Column t = column /\ (1 <= n)%nat.
Proof.
  intros Hat Hl. unfold processIdentifier. simpl. repeat split; auto.
  pose proof (at_lt _ _ _ Hat) as Hlen.
  destruct (len text) as [|fuel]; [lia|]. simpl. rewrite Hat.
  replace (_ || _ || _) with true.
  2:{ symmetry. apply orb_true_iff in Hl as [->| ->]; simpl; auto using orb_true_r. }
  pose proof (processIdentifier_loop_ge fuel text 1). simpl in *. lia.
Qed.

Lemma processSymbol_pos text line column :
  let '(t, n) := processSymbol text line column in
  Line t = line /\ Column t = column /\ (1 <= n)%nat.
Proof.
  unfold processSymbol.
  destruct (_ && _); [simpl; repeat split; auto; lia|].
  destruct (inSymbols _); simpl; repeat split; auto; lia.
Qed.

(** One round of the loop of [processLine]. *)
Lemma processLine_loop_S fuel line lineNum i column r :
  processLine_loop (S fuel) line lineNum i column r =
  match at_ line i with
  | None => r
  | Some char =>
      if Unicode.IsSpace char then
        processLine_loop fuel line lineNum (i + 1) (column + 1) r
      else if decide (char = hash) then r
      else if bool_decide (char = dquote) || bool_decide (char = squote) then
        let '(token, length) := processString (from i line) lineNum column char in
        processLine_loop fuel line lineNum (i + length)
          (column + Z.of_nat length) (addToken token r)
      else if Unicode.IsDigit char then
        let '(token, length) := processNumber (from i line) lineNum column in
        processLine_loop fuel line lineNum (i + length)
          (column + Z.of_nat length) (addToken token r)
      else if Unicode.IsLetter char || bool_decide (char = underscore) then
        let '(token, length) := processIdentifier (from i line) lineNum column in
        processLine_loop fuel line lineNum (i + length)
          (column + Z.of_nat length) (addToken token r)
      else
        let '(token, length) := processSymbol (from i line) lineNum column in
        let r1 :=
          if decide (Type_ token = ERROR)
          then appendError (unrecognized char lineNum column) r
          else r in
        processLine_loop fuel line lineNum (i + length)
          (column + Z.of_nat length) (addToken token r1)
  end.
Proof. reflexivity. Qed.

Lemma processLine_loop_end fuel line lineNum i column r :
  (len line <= i)%nat -> processLine_loop fuel line lineNum i column r = r.
Proof.
  intros H. destruct fuel; [reflexivity|].
  rewrite processLine_loop_S, at_ge by exact H. reflexivity.
Qed.

(** *** Order of the tokens *)

Lemma before_weaken line column column' t :
  column <= column' -> before line column t -> before line column' t.
Proof. unfold before. lia. Qed.

Lemma before_next_line line column t : before line column t -> before (line + 1) 1 t.
Proof. unfold before. lia. Qed.

Lemma addToken_ordered t n r line column :
  Line t = line -> Column t = column -> (1 <= n)%nat ->
  StronglySorted ordered (Tokens r) -> Forall (before line column) (Tokens r) ->
  StronglySorted ordered (Tokens (addToken t r))
  /\ Forall (before line (column + Z.of_nat n)) (Tokens (addToken t r)).
Proof.
  intros Hl Hc Hn Hs Hb. rewrite Tokens_addToken. split.
  - apply StronglySorted_app_2; auto.
    + intros x1 x2 Hx1 Hx2. apply list_elem_of_singleton in Hx2 as ->.
      rewrite Forall_forall in Hb. specialize (Hb _ Hx1).
      unfold before, ordered in *. lia.
    + repeat constructor.
  - apply Forall_app. split.
    + eapply Forall_impl; [exact Hb|]. intros x. apply before_weaken. lia.
    + constructor; [|constructor]. unfold before. lia.
Qed.

Lemma processLine_loop_ordered fuel line lineNum : forall i column r,
  StronglySorted ordered (Tokens r) ->
  Forall (before lineNum column) (Tokens r) ->
  exists column',
    StronglySorted ordered (Tokens (processLine_loop fuel line lineNum i column r))
    /\ Forall (before lineNum column')
         (Tokens (processLine_loop fuel line lineNum i column r)).
Proof.
  induction fuel as [|fuel IH]; intros i column r Hs Hb; [simpl; eauto|].
  rewrite processLine_loop_S.
  destruct (at_ line i) as [char|] eqn:Hat; [|eauto].
  assert (Hfrom : at_ (from i line) 0 = Some char)
    by (rewrite at_from, Nat.add_0_r; exact Hat).
  destruct (Unicode.IsSpace char).
  { apply IH; auto. eapply Forall_impl; [exact Hb|].
    intros x. apply before_weaken. lia. }
  destruct (decide (char = hash)) as [|Hnh]; [eauto|].
  destruct (bool_decide (char = dquote) || bool_decide (char = squote)).
  { pose proof (processString_pos (from i line) lineNum column char) as Hp.
    destruct (processString _ _ _ _) as [t k].
    destruct Hp as (Hl & Hc & Hn); [apply at_lt in Hfrom; lia|].
    destruct (addToken_ordered t k r lineNum column); auto. }
  destruct (Unicode.IsDigit char) eqn:Hd.
  { pose proof (processNumber_pos (from i line) lineNum column char Hfrom Hd) as Hp.
    destruct (processNumber _ _ _) as [t k]. destruct Hp as (Hl & Hc & Hn).
    destruct (addToken_ordered t k r lineNum column); auto. }
  destruct (Unicode.IsLetter char || bool_decide (char = underscore)) eqn:Hl'.
  { pose proof (processIdentifier_pos (from i line) lineNum column char Hfrom Hl') as Hp.
    destruct (processIdentifier _ _ _) as [t k]. destruct Hp as (Hl & Hc & Hn).
    destruct (addToken_ordered t k r lineNum column); auto. }
  pose proof (processSymbol_pos (from i line) lineNum column) as Hp.
  destruct (processSymbol _ _ _) as [t k]. destruct Hp as (Hl & Hc & Hn).
  set (r1 := if decide (Type_ t = ERROR)
             then appendError (unrecognized char lineNum column) r else r).
  assert (Hr1 : Tokens r1 = Tokens r) by (subst r1; destruct (decide _); reflexivity).
  destruct (addToken_ordered t k r1 lineNum column); auto; rewrite Hr1; auto.
Qed.

Lemma processLines_ordered lines : forall lineNum r,
  StronglySorted ordered (Tokens r) ->
  Forall (before (lineNum + 1) 1) (Tokens r) ->
  StronglySorted ordered (Tokens (processLines lines lineNum r)).
Proof.
  induction lines as [|line lines IH]; intros lineNum r Hs Hb; simpl; auto.
  destruct (processLine_loop_ordered (len line) line (lineNum + 1) 0 1 r Hs Hb)
    as (column' & Hs' & Hb').
  apply IH; auto.
  eapply Forall_impl; [exact Hb'|]. intros x. apply before_next_line.
Qed.

(** C8. For every input text the tokens come out in source order: of two
    tokens, the later one is on a later line, or on the same line at a
    strictly greater column. *)
Theorem tokens_in_source_order (code : string) :
  StronglySorted ordered (Tokens (Analyze code)).
Proof.
  unfold Analyze. simpl. apply processLines_ordered; constructor.
Qed.

(** *** Unterminated strings *)

(** The index loop of [processString] runs off the end of the text
    exactly when the body has no closing quote. *)
Lemma processString_loop_closing fuel text quote : forall i,
  (len text <= i + fuel)%nat ->
  (len text <= processString_loop fuel text quote i)%nat
  <-> hasClosingQuote quote (from i text) = false.
Proof.
  induction fuel as [|fuel IH]; intros i Hf; simpl.
  { rewrite from_all by lia. simpl. split; auto. lia. }
  destruct (at_ text i) as [ch|] eqn:Hat.
  2:{ apply at_None in Hat. rewrite from_all by lia. simpl. split; auto. }
  rewrite (from_cons _ _ _ Hat). cbn [hasClosingQuote].
  pose proof (at_lt _ _ _ Hat) as Hlt.
  destruct (decide (ch = quote)); [split; [lia|discriminate]|].
  destruct (decide (ch = backslash)) as [->|Hb].
  - rewrite bool_decide_eq_true_2 by reflexivity. cbn [andb].
    destruct (i + 1 <? len text)%nat eqn:Hn.
    + apply Nat.ltb_lt in Hn.
      destruct (at_ text (S i)) as [c2|] eqn:Hat2.
      2:{ apply at_None in Hat2. lia. }
      rewrite (from_cons _ _ _ Hat2).
      replace (i + 2)%nat with (S (S i)) by lia. apply IH. lia.
    + apply Nat.ltb_ge in Hn. rewrite (from_all text (S i)) by lia.
      pose proof (processString_loop_ge fuel text quote (i + 1)). split; auto. lia.
  - rewrite bool_decide_eq_false_2 by exact Hb. cbn [andb].
    replace (i + 1)%nat with (S i) by lia. apply IH. lia.
Qed.

Lemma quote_not_space quote :
  quote = dquote \/ quote = squote ->
  Unicode.IsSpace quote = false /\ quote <> hash.
Proof. intros [->| ->]; split; try reflexivity; discriminate. Qed.

(** *** Which Error tokens come with a diagnostic *)

Lemma processString_kind text line column quote ch rest :
  text = String ch rest ->
  bool_decide (ch = dquote) || bool_decide (ch = squote) = true ->
  otherError (fst (processString text line column quote)) = false.
Proof.
  intros -> Hq. unfold processString. destruct (_ <=? _)%nat; [|reflexivity].
  unfold otherError. cbn [fst Type_ Value startsWithQuote]. rewrite Hq.
  apply andb_false_r.
Qed.

Lemma processIdentifier_kind text line column :
  otherError (fst (processIdentifier text line column)) = false.
Proof. unfold processIdentifier. cbn [fst]. destruct (isKeyword _); reflexivity. Qed.

Lemma of_rune_no_quote ch :
  bool_decide (ch = dquote) || bool_decide (ch = squote) = false ->
  startsWithQuote (of_rune ch) = false.
Proof.
  destruct ch as [[] [] [] [] [] [] [] []]; intros H; try discriminate H; reflexivity.
Qed.

Lemma processSymbol_kind text line column ch rest :
  text = String ch rest ->
  bool_decide (ch = dquote) || bool_decide (ch = squote) = false ->
  otherError (fst (processSymbol text line column))
  = bool_decide (Type_ (fst (processSymbol text line column)) = ERROR).
Proof.
  intros -> Hq. unfold processSymbol. destruct (_ && _); [reflexivity|].
  cbn [at_ String.get]. destruct (inSymbols _); [reflexivity|].
  unfold otherError. cbn [fst Type_ Value]. rewrite of_rune_no_quote by exact Hq.
  reflexivity.
Qed.

Lemma diagnosticsMatch_addToken t r :
  otherError t = false -> diagnosticsMatch r -> diagnosticsMatch (addToken t r).
Proof.
  unfold diagnosticsMatch. intros Ht Hr.
  rewrite Errors_addToken, Tokens_addToken, List.filter_app. cbn [List.filter].
  rewrite Ht, app_nil_r. exact Hr.
Qed.

Lemma processLine_loop_diagnostics fuel line lineNum : forall i column r,
  diagnosticsMatch r ->
  diagnosticsMatch (processLine_loop fuel line lineNum i column r).
Proof.
  induction fuel as [|fuel IH]; intros i column r Hr; [exact Hr|].
  rewrite processLine_loop_S.
  destruct (at_ line i) as [char|] eqn:Hat; [|exact Hr].
  pose proof (from_cons _ _ _ Hat) as Hfrom.
  destruct (Unicode.IsSpace char); [apply IH, Hr|].
  destruct (decide (char = hash)) as [|Hnh]; [exact Hr|].
  destruct (bool_decide (char = dquote) || bool_decide (char = squote)) eqn:Hq.
  { pose proof (processString_kind _ lineNum column char _ _ Hfrom Hq) as Hk.
    destruct (processString _ _ _ _) as [t k].
    apply IH, diagnosticsMatch_addToken; assumption. }
  destruct (Unicode.IsDigit char).
  { apply IH, diagnosticsMatch_addToken; [reflexivity | exact Hr]. }
  destruct (Unicode.IsLetter char || bool_decide (char = underscore)).
  { pose proof (processIdentifier_kind (from i line) lineNum column) as Hk.
    destruct (processIdentifier _ _ _) as [t k].
    apply IH, diagnosticsMatch_addToken; assumption. }
  pose proof (processSymbol_kind _ lineNum column _ _ Hfrom Hq) as Hk.
  destruct (processSymbol _ _ _) as [t k]. cbn [fst] in Hk. apply IH.
  destruct (decide (Type_ t = ERROR)) as [He|He].
  - rewrite bool_decide_eq_true_2 in Hk by exact He.
    unfold diagnosticsMatch in *. rewrite Errors_addToken, Tokens_addToken.
    cbn [appendError Errors Tokens]. rewrite List.filter_app. cbn [List.filter].
    rewrite Hk, !length_app, Hr. reflexivity.
  - rewrite bool_decide_eq_false_2 in Hk by exact He.
    apply diagnosticsMatch_addToken; assumption.
Qed.

Lemma processLines_diagnostics lines : forall lineNum r,
  diagnosticsMatch r -> diagnosticsMatch (processLines lines lineNum r).
Proof.
  induction lines as [|line lines IH]; intros lineNum r Hr; [exact Hr|].
  cbn [processLines]. apply IH. apply processLine_loop_diagnostics, Hr.
Qed.

(** C6. When the scanner stands on a quote whose string has no closing
    quote before the end of the line, it emits one Error token whose text
    is the remainder of the line, ends the line there, and leaves the
    list of diagnostic messages as it was. It is the only silent kind:
    for every input the diagnostics are as many as the Error tokens that
    are not unterminated strings. *)
Theorem unterminated_string_is_silent :
  (forall (fuel : nat) (line : string) (lineNum : Z) (i : nat) (column : Z)
          (r : LexicalResult) (quote : ascii),
      at_ line i = Some quote ->
      quote = dquote \/ quote = squote ->
      hasClosingQuote quote (from (S i) line) = false ->
      let r' := processLine_loop (S fuel) line lineNum i column r in
      r' = addToken (mkToken ERROR (from i line) lineNum column) r
      /\ Tokens r' = (Tokens r ++ [mkToken ERROR (from i line) lineNum column])%list
      /\ Errors r' = Errors r)
  /\ (forall code : string,
        length (Errors (Analyze code))
        = length (List.filter otherError (Tokens (Analyze code)))).
Proof.
  split.
  2:{ intros code. unfold Analyze. cbn [Errors Tokens].
      apply processLines_diagnostics. reflexivity. }
  intros fuel line lineNum i column r quote Hat Hq Hopen r'.
  assert (r' = addToken (mkToken ERROR (from i line) lineNum column) r) as ->.
  2:{ rewrite Tokens_addToken, Errors_addToken. auto. }
  subst r'. rewrite processLine_loop_S, Hat.
  destruct (quote_not_space quote Hq) as [-> Hh].
  destruct (decide (quote = hash)); [contradiction|].
  replace (bool_decide (quote = dquote) || bool_decide (quote = squote)) with true
    by (destruct Hq as [->| ->]; reflexivity).
  unfold processString.
  pose proof (at_lt _ _ _ Hat) as Hlt.
  assert (Hend : (len (from i line)
                  <= processString_loop (len (from i line)) (from i line) quote 1)%nat).
  { apply processString_loop_closing; [lia|]. rewrite from_from.
    replace (i + 1)%nat with (S i) by lia. exact Hopen. }
  apply Nat.leb_le in Hend. rewrite Hend.
  rewrite len_from. apply processLine_loop_end. lia.
Qed.

(** At the concrete line [x = 'abc]: the quote at index 4 is never
    closed. *)
Lemma unterminated_string_is_silent_witness :
  let line := "x = 'abc" in
  let r' := processLine_loop 5 line 1 4 5 emptyResult in
  at_ line 4 = Some squote
  /\ Tokens r' = [mkToken ERROR "'abc" 1 5]
  /\ Errors r' = [].
Proof.
  intros line r'.
  destruct (proj1 unterminated_string_is_silent 4%nat line 1 4%nat 5 emptyResult squote)
    as (_ & Ht & He); [reflexivity | right; reflexivity | reflexivity |].
  split; [reflexivity|]. split; [exact Ht | exact He].
Defined.

(** *** Numbers and a second dot *)

Lemma allDigits_at s j :
  allDigits s = true -> (j < len s)%nat ->
  exists ch, at_ s j = Some ch /\ Unicode.IsDigit ch = true.
Proof.
  revert j; induction s as [|c s IH]; intros j Hd Hj; simpl in *.
  - unfold len in Hj; simpl in Hj; lia.
  - apply andb_true_iff in Hd as [Hc Hs]. destruct j as [|j]; [eauto|].
    apply IH; auto. unfold len in *; simpl in Hj; lia.
Qed.

(** Over a run of [k] digits the loop of [processNumber] just walks. *)
Lemma processNumber_loop_digits text h : forall k fuel i,
  (forall j, (j < k)%nat ->
     exists ch, at_ text (i + j) = Some ch /\ Unicode.IsDigit ch = true) ->
  processNumber_loop (k + fuel) text i h = processNumber_loop fuel text (i + k) h.
Proof.
  induction k as [|k IH]; intros fuel i Hd; simpl.
  - rewrite Nat.add_0_r. reflexivity.
  - destruct (Hd 0%nat) as (ch & Hat & Hch); [lia|].
    rewrite Nat.add_0_r in Hat. rewrite Hat, Hch. simpl.
    rewrite bool_decide_eq_false_2 by (apply digit_not_dot; exact Hch).
    rewrite IH.
    + f_equal; lia.
    + intros j Hj. destruct (Hd (S j)) as (c2 & Hat2 & Hc2); [lia|].
      exists c2. split; auto. rewrite <- Hat2. f_equal. lia.
Qed.

Lemma processNumber_loop_dot fuel text i h :
  at_ text i = Some dot ->
  processNumber_loop (S fuel) text i h =
  if h then i else processNumber_loop fuel text (i + 1) true.
Proof. intros Hat. simpl. rewrite Hat. reflexivity. Qed.

(** A number with one dot, followed by a second dot: the number token is
    the text before the second dot. *)
Lemma processNumber_second_dot (d1 d2 rest : string) (line column : Z) :
  allDigits d1 = true -> allDigits d2 = true ->
  let number := d1 ++ "." ++ d2 in
  processNumber (number ++ "." ++ rest) line column
  = (mkToken NUMBER number line column, len number).
Proof.
  intros H1 H2 number.
  set (text := number ++ "." ++ rest).
  assert (Hlen : len text = (len d1 + (1 + (len d2 + (1 + len rest))))%nat).
  { unfold text, number. rewrite !len_app. unfold len; simpl. lia. }
  assert (Hn : len number = (len d1 + 1 + len d2)%nat).
  { unfold number. rewrite !len_app. unfold len; simpl. lia. }
  assert (Hd1 : forall j, (j < len d1)%nat ->
            exists ch, at_ text (0 + j) = Some ch /\ Unicode.IsDigit ch = true).
  { intros j Hj. unfold text, number. simpl.
    rewrite at_app_l by (rewrite !len_app; lia).
    rewrite at_app_l by lia. apply allDigits_at; auto. }
  assert (Hdot1 : at_ text (len d1) = Some dot).
  { unfold text, number. rewrite at_app_l by (rewrite !len_app; unfold len; simpl; lia).
    rewrite <- (Nat.add_0_r (len d1)) at 1. rewrite at_app_r. reflexivity. }
  assert (Hd2 : forall j, (j < len d2)%nat ->
            exists ch, at_ text (len d1 + 1 + j) = Some ch /\ Unicode.IsDigit ch = true).
  { intros j Hj. unfold text, number.
    rewrite at_app_l by (rewrite !len_app; unfold len; simpl; unfold len in Hj; lia).
    replace (len d1 + 1 + j)%nat with (len d1 + S j)%nat by lia.
    rewrite at_app_r. simpl. apply allDigits_at; auto. }
  assert (Hdot2 : at_ text (len d1 + 1 + len d2) = Some dot).
  { unfold text. rewrite <- Hn. rewrite <- (Nat.add_0_r (len number)) at 1.
    rewrite at_app_r. reflexivity. }
  unfold processNumber. fold text.
  assert (Hi : processNumber_loop (len text) text 0 false = len number).
  { rewrite Hlen. rewrite (processNumber_loop_digits text false (len d1)) by exact Hd1.
    replace (1 + (len d2 + (1 + len rest)))%nat with (S (len d2 + (1 + len rest))) by lia.
    rewrite processNumber_loop_dot by exact Hdot1.
    rewrite (processNumber_loop_digits text true (len d2)) by exact Hd2.
    replace (1 + len rest)%nat with (S (len rest)) by lia.
    rewrite processNumber_loop_dot by exact Hdot2. lia. }
  rewrite Hi. unfold text. rewrite upto_app. reflexivity.
Qed.

(** No symbol of two bytes starts with a dot. *)
Lemma no_symbol_after_dot (c : ascii) :
  inSymbols (String dot (String c EmptyString)) = false.
Proof.
  unfold inSymbols, pythonSymbols, dot. simpl.
  repeat (rewrite bool_decide_eq_false_2 by discriminate; simpl).
  reflexivity.
Qed.

(** The dot on its own is in the symbol list. *)
Lemma processSymbol_dot (rest : string) (line column : Z) :
  processSymbol ("." ++ rest) line column = (mkToken SYMBOL "." line column, 1%nat).
Proof.
  unfold processSymbol. destruct rest as [|c rest]; [reflexivity|].
  change (upto 2 ("." ++ String c rest)) with (String dot (String c EmptyString)).
  rewrite no_symbol_after_dot, andb_false_r. reflexivity.
Qed.

Lemma digit_class ch :
  Unicode.IsDigit ch = true ->
  Unicode.IsSpace ch = false /\ ch <> hash
  /\ bool_decide (ch = dquote) || bool_decide (ch = squote) = false.
Proof.
  destruct ch as [[] [] [] [] [] [] [] []]; intros H; try discriminate H;
    repeat split; try reflexivity; discriminate.
Qed.

(** C2, as the code has it. A number that already holds a dot ends before
    the next dot; the scanner then reads that dot as the one-byte symbol
    of the symbol list: a Symbol token, with no Error token and no
    diagnostic. Two rounds of the line loop, standing on the first digit,
    leave it after the dot with exactly these two tokens added. *)
Theorem second_dot_is_a_symbol
    (fuel : nat) (pre d1 d2 rest : string) (lineNum column : Z)
    (r : LexicalResult) :
  allDigits d1 = true -> d1 <> EmptyString -> allDigits d2 = true ->
  let number := d1 ++ "." ++ d2 in
  let line := pre ++ number ++ "." ++ rest in
  let numberToken := mkToken NUMBER number lineNum column in
  let dotToken := mkToken SYMBOL "." lineNum (column + Z.of_nat (len number)) in
  processLine_loop (S (S fuel)) line lineNum (len pre) column r
  = processLine_loop fuel line lineNum (len pre + len number + 1)
      (column + Z.of_nat (len number) + 1)
      (addToken dotToken (addToken numberToken r)).
Proof.
  intros H1 Hne H2 number line numberToken dotToken.
  assert (Hfrom : from (len pre) line = number ++ "." ++ rest)
    by (unfold line; apply from_app).
  assert (Hfrom2 : from (len pre + len number) line = "." ++ rest)
    by (rewrite <- from_from, Hfrom; apply from_app).
  destruct d1 as [|c d1']; [congruence|].
  assert (Hc : Unicode.IsDigit c = true)
    by (simpl in H1; apply andb_true_iff in H1; tauto).
  destruct (digit_class c Hc) as (Hsp & Hh & Hq).
  rewrite processLine_loop_S.
  replace (at_ line (len pre)) with (Some c).
  2:{ symmetry. rewrite <- (Nat.add_0_r (len pre)), <- at_from, Hfrom. reflexivity. }
  rewrite Hsp. destruct (decide (c = hash)); [contradiction|].
  rewrite Hq, Hc, Hfrom.
  fold number. rewrite (processNumber_second_dot (String c d1') d2 rest) by assumption.
  fold number. cbv iota beta. fold numberToken.
  rewrite processLine_loop_S.
  replace (at_ line (len pre + len number)) with (Some dot).
  2:{ symmetry. rewrite <- (Nat.add_0_r (len pre + len number)), <- at_from, Hfrom2.
      reflexivity. }
  change (Unicode.IsSpace dot) with false. cbv iota.
  destruct (decide (dot = hash)); [discriminate|].
  change (bool_decide (dot = dquote) || bool_decide (dot = squote)) with false.
  change (Unicode.IsDigit dot) with false.
  change (Unicode.IsLetter dot || bool_decide (dot = underscore)) with false.
  cbv iota. rewrite Hfrom2, processSymbol_dot. cbv iota beta zeta.
  fold dotToken. destruct (decide (Type_ dotToken = ERROR)); [discriminate|].
  f_equal; lia.
Qed.

(** At the line [1.2.3]. *)
Lemma second_dot_is_a_symbol_witness :
  Tokens (processLine_loop 2 "1.2.3" 1 0 1 emptyResult)
  = Tokens (processLine_loop 0 "1.2.3" 1 4 5
      (addToken (mkToken SYMBOL "." 1 4) (addToken (mkToken NUMBER "1.2" 1 1) emptyResult))).
Proof.
  apply (f_equal Tokens).
  apply (second_dot_is_a_symbol 0 EmptyString "1" "2" "3" 1 1 emptyResult);
    [reflexivity | discriminate | reflexivity].
Defined.

(** C2, as the claim words it, fails on the input [1.2.3]: the three
    tokens are the number [1.2], the symbol [.] and the number [3]; none
    is an Error token and no diagnostic is recorded. *)
Lemma second_dot_is_not_an_error :
  Tokens (Analyze "1.2.3")
  = [mkToken NUMBER "1.2" 1 1; mkToken SYMBOL "." 1 4; mkToken NUMBER "3" 1 5]
  /\ Errors (Analyze "1.2.3") = []
  /\ ~ (exists t, In t (Tokens (Analyze "1.2.3"))
                  /\ Type_ t = ERROR /\ Value t = ".").
Proof.
  assert (Ht : Tokens (Analyze "1.2.3")
    = [mkToken NUMBER "1.2" 1 1; mkToken SYMBOL "." 1 4; mkToken NUMBER "3" 1 5])
    by (vm_compute; reflexivity).
  split; [exact Ht|]. split; [vm_compute; reflexivity|].
  intros (t & Hin & Hty & _). rewrite Ht in Hin. simpl in Hin.
  destruct Hin as [<-|[<-|[<-|[]]]]; discriminate Hty.
Qed.

(** *** Error tokens never look like something the parser matches *)

Lemma quoted_not_matched ch rest :
  bool_decide (ch = dquote) || bool_decide (ch = squote) = true ->
  isMatched (String ch rest) = false.
Proof.
  intros Hq. apply orb_true_iff in Hq as [Hq|Hq]; apply bool_decide_eq_true in Hq;
    subst ch; unfold isMatched, matched; cbn [existsb];
    repeat (rewrite bool_decide_eq_false_2 by discriminate; cbn [orb]); reflexivity.
Qed.

Lemma unknown_rune_not_matched ch :
  inSymbols (of_rune ch) = false -> isMatched (of_rune ch) = false.
Proof.
  destruct ch as [[] [] [] [] [] [] [] []]; vm_compute; intros H;
    first [reflexivity | discriminate H].
Qed.

Lemma processString_ok text line column quote ch rest :
  text = String ch rest ->
  bool_decide (ch = dquote) || bool_decide (ch = squote) = true ->
  okToken (fst (processString text line column quote)).
Proof.
  intros -> Hq. unfold processString, okToken.
  destruct (_ <=? _)%nat; cbn [fst Type_ Value]; [|discriminate].
  intros _. apply quoted_not_matched, Hq.
Qed.

Lemma processIdentifier_ok text line column :
  okToken (fst (processIdentifier text line column)).
Proof.
  unfold processIdentifier, okToken. cbn [fst Type_].
  destruct (isKeyword _); discriminate.
Qed.

Lemma processSymbol_ok text line column ch rest :
  text = String ch rest -> okToken (fst (processSymbol text line column)).
Proof.
  intros ->. unfold processSymbol, okToken.
  destruct (_ && _); [discriminate|]. cbn [at_ String.get].
  destruct (inSymbols (of_rune ch)) eqn:Hs; [discriminate|].
  intros _. cbn [fst Value]. apply unknown_rune_not_matched, Hs.
Qed.

Lemma errorsUnmatched_addToken t r :
  okToken t -> errorsUnmatched (Tokens r) -> errorsUnmatched (Tokens (addToken t r)).
Proof.
  intros Ht Hr. rewrite Tokens_addToken. apply Forall_app. split; [exact Hr|].
  constructor; [exact Ht | constructor].
Qed.

Lemma processLine_loop_unmatched fuel line lineNum : forall i column r,
  errorsUnmatched (Tokens r) ->
  errorsUnmatched (Tokens (processLine_loop fuel line lineNum i column r)).
Proof.
  induction fuel as [|fuel IH]; intros i column r Hr; [exact Hr|].
  rewrite processLine_loop_S.
  destruct (at_ line i) as [char|] eqn:Hat; [|exact Hr].
  pose proof (from_cons _ _ _ Hat) as Hfrom.
  destruct (Unicode.IsSpace char); [apply IH, Hr|].
  destruct (decide (char = hash)) as [|Hnh]; [exact Hr|].
  destruct (bool_decide (char = dquote) || bool_decide (char = squote)) eqn:Hq.
  { pose proof (processString_ok _ lineNum column char _ _ Hfrom Hq) as Hk.
    destruct (processString _ _ _ _) as [t k].
    apply IH, errorsUnmatched_addToken; assumption. }
  destruct (Unicode.IsDigit char).
  { apply IH, errorsUnmatched_addToken; [discriminate | exact Hr]. }
  destruct (Unicode.IsLetter char || bool_decide (char = underscore)).
  { pose proof (processIdentifier_ok (from i line) lineNum column) as Hk.
    destruct (processIdentifier _ _ _) as [t k].
    apply IH, errorsUnmatched_addToken; assumption. }
  pose proof (processSymbol_ok _ lineNum column _ _ Hfrom) as Hk.
  destruct (processSymbol _ _ _) as [t k]. cbn [fst] in Hk. apply IH.
  apply errorsUnmatched_addToken; [exact Hk|].
  destruct (decide (Type_ t = ERROR)); exact Hr.
Qed.

Lemma processLines_unmatched lines : forall lineNum r,
  errorsUnmatched (Tokens r) ->
  errorsUnmatched (Tokens (processLines lines lineNum r)).
Proof.
  induction lines as [|line lines IH]; intros lineNum r Hr; [exact Hr|].
  cbn [processLines]. apply IH. apply processLine_loop_unmatched, Hr.
Qed.

Lemma Analyze_unmatched code : errorsUnmatched (Tokens (Analyze code)).
Proof. unfold Analyze. cbn [Tokens]. apply processLines_unmatched. constructor. Qed.

(** A diagnostic of the lexer has its Error token in the list. *)
Lemma Analyze_diagnostic_token code :
  Errors (Analyze code) <> [] ->
  exists t, t ∈ Tokens (Analyze code) /\ Type_ t = ERROR.
Proof.
  intros He.
  assert (Hm : diagnosticsMatch (Analyze code)).
  { unfold Analyze, diagnosticsMatch. cbn [Errors Tokens].
    apply processLines_diagnostics. reflexivity. }
  unfold diagnosticsMatch in Hm.
  destruct (List.filter otherError (Tokens (Analyze code))) as [|t l] eqn:Hf.
  { destruct (Errors (Analyze code)); [contradiction | discriminate Hm]. }
  assert (Hin : In t (List.filter otherError (Tokens (Analyze code))))
    by (rewrite Hf; left; reflexivity).
  apply List.filter_In in Hin as [Hin Ho]. exists t. split.
  - apply list_elem_of_In, Hin.
  - unfold otherError in Ho. apply andb_true_iff in Ho as [Ho _].
    apply bool_decide_eq_true in Ho. exact Ho.
Qed.

End LexerFacts.

(** ** What the lexer keeps for every text *)

Module LexerInvariants.

Import Str StrFacts Lexer Spec LexerSpec LexerFacts.

(** An invariant of the result that [addToken] and [appendError] keep is
    kept by the whole scan. *)
Section ResultInvariant.

Variable Good : LexicalResult -> Prop.
Hypothesis Good_addToken : forall t r, Good r -> Good (addToken t r).
Hypothesis Good_appendError : forall m r, Good r -> Good (appendError m r).

Lemma processLine_loop_keeps fuel line lineNum : forall i column r,
  Good r -> Good (processLine_loop fuel line lineNum i column r).
Proof.
  induction fuel as [|fuel IH]; intros i column r Hr; [exact Hr|].
  rewrite processLine_loop_S.
  destruct (at_ line i) as [char|]; [|exact Hr].
  destruct (Unicode.IsSpace char); [apply IH, Hr|].
  destruct (decide (char = hash)); [exact Hr|].
  destruct (bool_decide (char = dquote) || bool_decide (char = squote)).
  { destruct (processString _ _ _ _) as [t k]. apply IH, Good_addToken, Hr. }
  destruct (Unicode.IsDigit char).
  { apply IH, Good_addToken, Hr. }
  destruct (Unicode.IsLetter char || bool_decide (char = underscore)).
  { destruct (processIdentifier _ _ _) as [t k]. apply IH, Good_addToken, Hr. }
  destruct (processSymbol _ _ _) as [t k]. apply IH, Good_addToken.
  destruct (decide (Type_ t = ERROR)); [apply Good_appendError|]; exact Hr.
Qed.

Lemma processLines_keeps lines : forall lineNum r,
  Good r -> Good (processLines lines lineNum r).
Proof.
  induction lines as [|line lines IH]; intros lineNum r Hr; [exact Hr|].
  cbn [processLines]. apply IH, processLine_loop_keeps, Hr.
Qed.

End ResultInvariant.

Lemma ofType_snoc ty toks t :
  ofType ty (toks ++ [t]) =
  (ofType ty toks ++ if bool_decide (Type_ t = ty) then [t] else [])%list.
Proof.
  unfold ofType. rewrite List.filter_app. cbn [List.filter].
  destruct (bool_decide _); reflexivity.
Qed.

Lemma valuesOf_snoc_eq ty toks t :
  Type_ t = ty -> valuesOf ty (toks ++ [t]) = (valuesOf ty toks ++ [Value t])%list.
Proof.
  intros H. unfold valuesOf. rewrite ofType_snoc, bool_decide_eq_true_2 by exact H.
  rewrite map_app. reflexivity.
Qed.

Lemma valuesOf_snoc_ne ty toks t :
  Type_ t <> ty -> valuesOf ty (toks ++ [t]) = valuesOf ty toks.
Proof.
  intros H. unfold valuesOf. rewrite ofType_snoc, bool_decide_eq_false_2 by exact H.
  rewrite app_nil_r. reflexivity.
Qed.

Lemma countOf_snoc_eq ty toks t :
  Type_ t = ty -> countOf ty (toks ++ [t]) = countOf ty toks + 1.
Proof.
  intros H. unfold countOf. rewrite ofType_snoc, bool_decide_eq_true_2 by exact H.
  rewrite length_app. cbn [length]. lia.
Qed.

Lemma countOf_snoc_ne ty toks t :
  Type_ t <> ty -> countOf ty (toks ++ [t]) = countOf ty toks.
Proof.
  intros H. unfold countOf. rewrite ofType_snoc, bool_decide_eq_false_2 by exact H.
  rewrite app_nil_r. reflexivity.
Qed.

Lemma tallied_addToken t r : tallied r -> tallied (addToken t r).
Proof.
  unfold tallied. intros (HPR & HID & HNu & HSi & HEr & Hdom & Hk & Hi & Hn & Hs & Hy & He).
  unfold addToken, tableAppend.
  destruct (Type_ t) eqn:Hty; cbn [Table Tokens Statistics Keywords Identifiers
    Numbers Strings Symbols StatErrors];
    rewrite ?HPR, ?HID, ?HNu, ?HSi, ?HEr; cbn [default];
    repeat match goal with
    | |- _ /\ _ => split
    | |- <[?k := _]> _ !! ?k = _ => rewrite lookup_insert_eq
    | |- <[?k := _]> _ !! ?k' = _ => rewrite lookup_insert_ne by discriminate
    | |- Some _ = Some _ => f_equal
    | |- context [valuesOf ?ty (_ ++ [t])] =>
        first [ rewrite (valuesOf_snoc_eq ty) by exact Hty
              | rewrite (valuesOf_snoc_ne ty) by (rewrite Hty; discriminate) ]
    | |- context [countOf ?ty (_ ++ [t])] =>
        first [ rewrite (countOf_snoc_eq ty) by exact Hty
              | rewrite (countOf_snoc_ne ty) by (rewrite Hty; discriminate) ]
    end; try assumption; try congruence; try lia; try reflexivity;
    try (rewrite dom_insert_L, Hdom; set_solver).
Qed.

Lemma tallied_appendError m r : tallied r -> tallied (appendError m r).
Proof. intros H. exact H. Qed.

Lemma tallied_empty : tallied emptyResult.
Proof.
  unfold tallied, emptyResult. cbn [Table Tokens Statistics].
  repeat split; reflexivity.
Qed.

(** The category table and the six counters of a result are a function
    of its token list: under each of the five keys stand the texts of
    the tokens of that type in source order, string tokens are counted
    and not listed, the table has no other key, and the reserved word
    count is the number of keyword tokens. *)
Theorem table_and_counters_match_tokens (code : string) :
  tallied (Analyze code)
  /\ ReservedWords (Analyze code) = countOf KEYWORD (Tokens (Analyze code)).
Proof.
  assert (H : tallied (processLines (split code linefeed) 0 emptyResult)).
  { apply processLines_keeps; auto using tallied_addToken, tallied_appendError, tallied_empty. }
  unfold Analyze. split.
  - exact H.
  - cbn [ReservedWords Tokens]. apply H.
Qed.

(** *** Line, column and text of each token *)

(** What a token scanned at index [i] of [line], line number [lineNum],
    may be asked to satisfy. *)
Section TokenInvariant.

Variable Q : string -> Z -> nat -> Token -> Prop.

Hypothesis Q_string : forall line lineNum i char,
  at_ line i = Some char ->
  bool_decide (char = dquote) || bool_decide (char = squote) = true ->
  Q line lineNum i (fst (processString (from i line) lineNum (Z.of_nat i + 1) char)).
Hypothesis Q_number : forall line lineNum i char,
  at_ line i = Some char -> Unicode.IsDigit char = true ->
  Q line lineNum i (fst (processNumber (from i line) lineNum (Z.of_nat i + 1))).
Hypothesis Q_identifier : forall line lineNum i char,
  at_ line i = Some char ->
  Unicode.IsLetter char || bool_decide (char = underscore) = true ->
  Q line lineNum i (fst (processIdentifier (from i line) lineNum (Z.of_nat i + 1))).
Hypothesis Q_symbol : forall line lineNum i char,
  at_ line i = Some char ->
  Unicode.IsSpace char = false -> char <> hash ->
  bool_decide (char = dquote) || bool_decide (char = squote) = false ->
  Unicode.IsDigit char = false ->
  Unicode.IsLetter char || bool_decide (char = underscore) = false ->
  Q line lineNum i (fst (processSymbol (from i line) lineNum (Z.of_nat i + 1))).

Lemma processLine_loop_tokens fuel line lineNum P : forall i r,
  (forall i t, Q line lineNum i t -> P t) ->
  Forall P (Tokens r) ->
  Forall P (Tokens (processLine_loop fuel line lineNum i (Z.of_nat i + 1) r)).
Proof.
  intros i r HP. revert i r.
  assert (Hadd : forall i t r, Q line lineNum i t -> Forall P (Tokens r) ->
            Forall P (Tokens (addToken t r))).
  { intros i t r Ht Hr. rewrite Tokens_addToken. apply Forall_app. split; [exact Hr|].
    constructor; [eapply HP, Ht | constructor]. }
  assert (Hcol : forall i k, Z.of_nat i + 1 + Z.of_nat k = Z.of_nat (i + k) + 1) by (intros; lia).
  induction fuel as [|fuel IH]; intros i r Hr; [exact Hr|].
  rewrite processLine_loop_S.
  destruct (at_ line i) as [char|] eqn:Hat; [|exact Hr].
  destruct (Unicode.IsSpace char) eqn:Hsp.
  { replace (Z.of_nat i + 1 + 1) with (Z.of_nat (i + 1) + 1) by lia. apply IH, Hr. }
  destruct (decide (char = hash)) as [|Hnh]; [exact Hr|].
  destruct (bool_decide (char = dquote) || bool_decide (char = squote)) eqn:Hq.
  { pose proof (Q_string line lineNum i char Hat Hq) as Hk.
    destruct (processString _ _ _ _) as [t k]. rewrite Hcol. apply IH. eapply Hadd; eauto. }
  destruct (Unicode.IsDigit char) eqn:Hd.
  { pose proof (Q_number line lineNum i char Hat Hd) as Hk.
    destruct (processNumber _ _ _) as [t k]. rewrite Hcol. apply IH. eapply Hadd; eauto. }
  destruct (Unicode.IsLetter char || bool_decide (char = underscore)) eqn:Hl.
  { pose proof (Q_identifier line lineNum i char Hat Hl) as Hk.
    destruct (processIdentifier _ _ _) as [t k]. rewrite Hcol. apply IH. eapply Hadd; eauto. }
  pose proof (Q_symbol line lineNum i char Hat Hsp Hnh Hq Hd Hl) as Hk.
  destruct (processSymbol _ _ _) as [t k]. rewrite Hcol. apply IH.
  eapply Hadd; [exact Hk|]. destruct (decide (Type_ t = ERROR)); exact Hr.
Qed.

(** Every token of the result was scanned at some index of some line of
    the text, numbered from 1. *)
Lemma processLines_tokens (all : list string) P :
  (forall k line i t, all !! k = Some line -> Q line (Z.of_nat k + 1) i t -> P t) ->
  forall lines done r,
    all = (done ++ lines)%list ->
    Forall P (Tokens r) ->
    Forall P (Tokens (processLines lines (Z.of_nat (length done)) r)).
Proof.
  intros HP. induction lines as [|line lines IH]; intros done r Hall Hr; [exact Hr|].
  cbn [processLines].
  replace (Z.of_nat (length done) + 1) with (Z.of_nat (length (done ++ [line]))).
  2:{ rewrite length_app. cbn [length]. lia. }
  apply IH.
  - rewrite <- app_assoc. exact Hall.
  - unfold processLine. change 1 with (Z.of_nat 0 + 1).
    apply processLine_loop_tokens; [|exact Hr].
    intros i t. rewrite length_app. cbn [length].
    replace (Z.of_nat (length done + 1)) with (Z.of_nat (length done) + 1) by lia.
    apply HP. rewrite Hall. rewrite lookup_app_r by lia.
    rewrite Nat.sub_diag. reflexivity.
Qed.

Lemma Analyze_tokens (code : string) P :
  (forall k line i t,
     split code linefeed !! k = Some line -> Q line (Z.of_nat k + 1) i t -> P t) ->
  Forall P (Tokens (Analyze code)).
Proof.
  intros HP. unfold Analyze. cbn [Tokens].
  apply (processLines_tokens (split code linefeed) P HP (split code linefeed) []);
    [reflexivity | constructor].
Qed.

End TokenInvariant.

(** *** Prefixes of a string *)

Lemma len_upto n s : len (upto n s) = Nat.min n (len s).
Proof.
  unfold len. revert s; induction n as [|n IH]; intros [|c s]; simpl; auto.
Qed.

Lemma at_upto n s j : (j < n)%nat -> at_ (upto n s) j = at_ s j.
Proof.
  revert s j; induction n as [|n IH]; intros [|c s] j Hj; simpl; try lia; auto.
  destruct j; [reflexivity|]. apply IH. lia.
Qed.

Lemma upto_all s n : (len s <= n)%nat -> upto n s = s.
Proof.
  unfold len. revert s; induction n as [|n IH]; intros [|c s] H; simpl in *; auto; try lia.
  f_equal. apply IH. lia.
Qed.

Lemma upto_upto n s : (n <= len s)%nat -> upto (len (upto n s)) s = upto n s.
Proof. intros H. rewrite len_upto, Nat.min_l by exact H. reflexivity. Qed.

Lemma allChars_upto f : forall n s,
  (forall j, (j < n)%nat -> exists ch, at_ s j = Some ch /\ f ch = true) ->
  allChars f (upto n s) = true.
Proof.
  induction n as [|n IH]; intros s H; [destruct s; reflexivity|].
  destruct (H 0%nat) as (ch & Hat & Hf); [lia|].
  destruct s as [|c s]; [discriminate Hat|]. injection Hat as ->.
  cbn [upto allChars]. rewrite Hf. apply IH.
  intros j Hj. apply (H (S j)). lia.
Qed.

Lemma upto_shift n s : forall c, upto (S n) (String c s) = String c (upto n s).
Proof. reflexivity. Qed.

(* ---------- the four scanners ---------- *)

Lemma processIdentifier_loop_chars text : forall fuel i j,
  (i <= j)%nat -> (j < processIdentifier_loop fuel text i)%nat ->
  exists ch, at_ text j = Some ch /\ identChar ch = true.
Proof.
  induction fuel as [|fuel IH]; intros i j Hij Hj; simpl in Hj; [lia|].
  destruct (at_ text i) as [ch|] eqn:Hat; [|lia].
  destruct (Unicode.IsLetter ch || Unicode.IsDigit ch || bool_decide (ch = underscore))
    eqn:Hc; [|lia].
  destruct (decide (j = i)) as [->|Hne]; [eauto|].
  apply (IH (i + 1)%nat); [lia | exact Hj].
Qed.

Lemma processIdentifier_loop_le text : forall fuel i,
  (i <= len text)%nat -> (processIdentifier_loop fuel text i <= len text)%nat.
Proof.
  induction fuel as [|fuel IH]; intros i Hi; simpl; [exact Hi|].
  destruct (at_ text i) as [ch|] eqn:Hat; [|exact Hi].
  destruct (_ || _); [|exact Hi]. apply IH. apply at_lt in Hat. lia.
Qed.

Lemma processNumber_loop_chars text : forall fuel i h j,
  (i <= j)%nat -> (j < processNumber_loop fuel text i h)%nat ->
  exists ch, at_ text j = Some ch /\ numberChar ch = true.
Proof.
  induction fuel as [|fuel IH]; intros i h j Hij Hj; simpl in Hj; [lia|].
  destruct (at_ text i) as [ch|] eqn:Hat; [|lia].
  destruct (Unicode.IsDigit ch || bool_decide (ch = dot)) eqn:Hc; [|lia].
  destruct (decide (j = i)) as [->|Hne]; [eauto|].
  destruct (bool_decide (ch = dot)).
  - destruct h; [lia|]. apply (IH (i + 1)%nat true); [lia | exact Hj].
  - apply (IH (i + 1)%nat h); [lia | exact Hj].
Qed.

Lemma processNumber_loop_le text : forall fuel i h,
  (i <= len text)%nat -> (processNumber_loop fuel text i h <= len text)%nat.
Proof.
  induction fuel as [|fuel IH]; intros i h Hi; simpl; [exact Hi|].
  destruct (at_ text i) as [ch|] eqn:Hat; [|exact Hi].
  apply at_lt in Hat.
  destruct (_ || _); [|exact Hi].
  destruct (bool_decide _); [destruct h; [exact Hi|]|]; apply IH; lia.
Qed.

Lemma dots_upto_S text : forall i ch,
  at_ text i = Some ch ->
  dots (upto (S i) text)
  = (dots (upto i text) + if bool_decide (ch = dot) then 1 else 0)%nat.
Proof.
  induction text as [|c text IH]; intros i ch Hat; [destruct i; discriminate Hat|].
  destruct i as [|i].
  - injection Hat as ->. cbn [upto dots]. destruct text; cbn [upto dots]; lia.
  - change (upto (S (S i)) (String c text)) with (String c (upto (S i) text)).
    change (upto (S i) (String c text)) with (String c (upto i text)).
    cbn [dots]. rewrite (IH i ch Hat). lia.
Qed.

Lemma processNumber_loop_dots text : forall fuel i h,
  (dots (upto (processNumber_loop fuel text i h) text)
   <= dots (upto i text) + if h then 0 else 1)%nat.
Proof.
  induction fuel as [|fuel IH]; intros i h; simpl; [lia|].
  destruct (at_ text i) as [ch|] eqn:Hat; [|lia].
  destruct (Unicode.IsDigit ch || bool_decide (ch = dot)) eqn:Hc; [|lia].
  pose proof (dots_upto_S text i ch Hat) as Hd.
  replace (i + 1)%nat with (S i) by lia.
  destruct (bool_decide (ch = dot)) eqn:Hdot.
  - destruct h; [lia|]. specialize (IH (S i) true). cbv iota in IH. lia.
  - specialize (IH (S i) h). lia.
Qed.

Lemma processString_loop_stops text quote : forall fuel i,
  (len text <= i + fuel)%nat ->
  (processString_loop fuel text quote i < len text)%nat ->
  at_ text (processString_loop fuel text quote i) = Some quote.
Proof.
  induction fuel as [|fuel IH]; intros i Hf Hr; simpl in *; [lia|].
  destruct (at_ text i) as [ch|] eqn:Hat; [|apply at_None in Hat; lia].
  destruct (decide (ch = quote)) as [->|]; [exact Hat|].
  destruct (_ && _); apply IH; try lia; exact Hr.
Qed.

Lemma symbol_rune_is_byte ch :
  inSymbols (of_rune ch) = true -> of_rune ch = of_byte ch.
Proof.
  destruct ch as [[] [] [] [] [] [] [] []]; vm_compute; intros H;
    first [reflexivity | discriminate H].
Qed.

Lemma low_rune_is_byte ch : (Unicode.code ch < 128)%N -> of_rune ch = of_byte ch.
Proof. intros H. unfold of_rune. apply N.ltb_lt in H. unfold Unicode.code in H. rewrite H. reflexivity. Qed.
Lemma lexemeAt_upto line i t n :
  Value t = upto n (from i line) -> (1 <= n)%nat -> (n <= len (from i line))%nat ->
  (i < len line)%nat -> lexemeAt line i t.
Proof.
  intros Hv Hn Hle Hi. left. rewrite len_from in Hle.
  assert (Hl : len (Value t) = n) by (rewrite Hv, len_upto, len_from; lia).
  rewrite Hl. repeat split; [exact Hv | lia | lia].
Qed.

Lemma processString_scanned line lineNum i char :
  at_ line i = Some char ->
  bool_decide (char = dquote) || bool_decide (char = squote) = true ->
  scannedAt line lineNum i
    (fst (processString (from i line) lineNum (Z.of_nat i + 1) char)).
Proof.
  intros Hat Hq. pose proof (at_lt _ _ _ Hat) as Hi.
  pose proof (from_cons _ _ _ Hat) as Hfrom.
  set (text := from i line) in *.
  assert (Hlen : len text = (len line - i)%nat) by apply len_from.
  unfold processString.
  pose proof (processString_loop_ge (len text) text char 1) as Hge.
  pose proof (processString_loop_stops text char (len text) 1 ltac:(lia)) as Hstop.
  set (k := processString_loop (len text) text char 1) in *.
  destruct (len text <=? k)%nat eqn:Hk; cbn [fst];
    (split; [reflexivity|]; split; [reflexivity|]; split).
  - apply (lexemeAt_upto line i _ (len text)); cbn [Value]; fold text; try lia.
    symmetry. apply upto_all. lia.
  - unfold shaped. cbn [Type_ Value]. left. rewrite Hfrom. exact Hq.
  - apply Nat.leb_gt in Hk.
    apply (lexemeAt_upto line i _ (k + 1)); cbn [Value]; fold text; try lia. reflexivity.
  - apply Nat.leb_gt in Hk. unfold shaped. cbn [Type_ Value]. exists char.
    assert (Hl : len (upto (k + 1) text) = (k + 1)%nat) by (rewrite len_upto; lia).
    split; [|split; [|split]].
    + apply orb_true_iff in Hq as [Hq|Hq]; apply bool_decide_eq_true in Hq; auto.
    + lia.
    + rewrite at_upto by lia. rewrite Hfrom. reflexivity.
    + rewrite Hl, at_upto by lia. replace (k + 1 - 1)%nat with k by lia. apply Hstop, Hk.
Qed.

Lemma processNumber_scanned line lineNum i char :
  at_ line i = Some char -> Unicode.IsDigit char = true ->
  scannedAt line lineNum i (fst (processNumber (from i line) lineNum (Z.of_nat i + 1))).
Proof.
  intros Hat Hd. pose proof (at_lt _ _ _ Hat) as Hi.
  pose proof (from_cons _ _ _ Hat) as Hfrom.
  assert (Hat0 : at_ (from i line) 0 = Some char) by (rewrite Hfrom; reflexivity).
  pose proof (processNumber_pos (from i line) lineNum (Z.of_nat i + 1) char Hat0 Hd) as Hp.
  unfold processNumber in *. cbn [fst] in *. destruct Hp as (_ & _ & Hn).
  set (text := from i line) in *.
  pose proof (processNumber_loop_le text (len text) 0 false ltac:(lia)) as Hle.
  pose proof (processNumber_loop_chars text (len text) 0 false) as Hch.
  pose proof (processNumber_loop_dots text (len text) 0 false) as Hdots.
  set (n := processNumber_loop (len text) text 0 false) in *.
  split; [reflexivity|]. split; [reflexivity|]. split.
  - apply (lexemeAt_upto line i _ n); cbn [Value]; fold text; try lia. reflexivity.
  - unfold shaped. cbn [Type_ Value].
    assert (Hall : allChars numberChar (upto n text) = true).
    { apply allChars_upto. intros j Hj. apply Hch; [lia | exact Hj]. }
    destruct n as [|n']; [lia|]. cbn [upto dots] in Hdots.
    rewrite Hfrom in *. cbn [upto allChars dots numberShaped] in *.
    apply andb_true_iff in Hall as [_ Hall]. rewrite Hd, Hall. cbn [andb].
    apply Nat.leb_le. destruct (bool_decide (char = dot)); lia.
Qed.

Lemma processIdentifier_scanned line lineNum i char :
  at_ line i = Some char ->
  Unicode.IsLetter char || bool_decide (char = underscore) = true ->
  scannedAt line lineNum i
    (fst (processIdentifier (from i line) lineNum (Z.of_nat i + 1))).
Proof.
  intros Hat Hl. pose proof (at_lt _ _ _ Hat) as Hi.
  pose proof (from_cons _ _ _ Hat) as Hfrom.
  assert (Hat0 : at_ (from i line) 0 = Some char) by (rewrite Hfrom; reflexivity).
  pose proof (processIdentifier_pos (from i line) lineNum (Z.of_nat i + 1) char Hat0 Hl)
    as Hp.
  unfold processIdentifier in *. cbn [fst] in *. destruct Hp as (_ & _ & Hn).
  set (text := from i line) in *.
  pose proof (processIdentifier_loop_le text (len text) 0 ltac:(lia)) as Hle.
  pose proof (processIdentifier_loop_chars text (len text) 0) as Hch.
  set (n := processIdentifier_loop (len text) text 0) in *.
  assert (Hshape : identShaped (upto n text) = true).
  { assert (Hall : allChars identChar (upto n text) = true).
    { apply allChars_upto. intros j Hj. apply Hch; [lia | exact Hj]. }
    destruct n as [|n']; [lia|]. rewrite Hfrom in *.
    cbn [upto allChars identShaped] in *.
    apply andb_true_iff in Hall as [_ Hall]. unfold identStart. rewrite Hl, Hall.
    reflexivity. }
  split; [reflexivity|]. split; [reflexivity|]. split.
  - apply (lexemeAt_upto line i _ n); cbn [Value]; fold text; try lia. reflexivity.
  - unfold shaped. cbn [Type_ Value].
    destruct (isKeyword (upto n text)) eqn:Hk; cbn [Type_]; auto.
Qed.

Lemma processSymbol_scanned line lineNum i char :
  at_ line i = Some char ->
  Unicode.IsSpace char = false -> char <> hash ->
  bool_decide (char = dquote) || bool_decide (char = squote) = false ->
  Unicode.IsDigit char = false ->
  Unicode.IsLetter char || bool_decide (char = underscore) = false ->
  scannedAt line lineNum i (fst (processSymbol (from i line) lineNum (Z.of_nat i + 1))).
Proof.
  intros Hat Hsp Hnh Hq Hd Hl. pose proof (at_lt _ _ _ Hat) as Hi.
  pose proof (from_cons _ _ _ Hat) as Hfrom.
  set (text := from i line) in *.
  assert (Hlen : len text = (len line - i)%nat) by apply len_from.
  assert (Hat0 : at_ text 0 = Some char) by (rewrite Hfrom; reflexivity).
  assert (Hone : upto 1 text = of_byte char) by (rewrite Hfrom; reflexivity).
  unfold processSymbol. rewrite Hat0.
  destruct ((2 <=? len text)%nat && inSymbols (upto 2 text)) eqn:H2.
  { apply andb_true_iff in H2 as [H2 Hin]. apply Nat.leb_le in H2.
    cbn [fst]. split; [reflexivity|]. split; [reflexivity|]. split; [|exact Hin].
    apply (lexemeAt_upto line i _ 2); cbn [Value]; fold text; try lia. reflexivity. }
  destruct (inSymbols (of_rune char)) eqn:Hin; cbn [fst];
    (split; [reflexivity|]; split; [reflexivity|]; split).
  - apply (lexemeAt_upto line i _ 1); cbn [Value]; fold text; try lia.
    rewrite Hone. apply symbol_rune_is_byte, Hin.
  - exact Hin.
  - destruct (N.ltb_spec (Unicode.code char) 128) as [Hlow|Hhigh].
    + apply (lexemeAt_upto line i _ 1); cbn [Value]; fold text; try lia.
      rewrite Hone. apply low_rune_is_byte, Hlow.
    + right. split; [reflexivity|]. exists char. auto.
  - unfold shaped. cbn [Type_ Value]. right. split; [exact Hin|].
    exists char. unfold identStart. auto.
Qed.

Lemma Analyze_scanned (code : string) :
  Forall (fun t => exists k line i,
            split code linefeed !! k = Some line
            /\ scannedAt line (Z.of_nat k + 1) i t)
         (Tokens (Analyze code)).
Proof.
  apply (Analyze_tokens scannedAt processString_scanned processNumber_scanned
           processIdentifier_scanned processSymbol_scanned).
  intros k line i t Hk Ht. eauto.
Qed.

(** *** Every token of every text *)

(** Every token points into the text: its line is a line of the input,
    its column a byte of that line, and its text is what the line holds
    from that byte on (for the Error token of a byte from 128 on, the
    two-byte encoding of that byte). *)
Theorem tokens_are_placed (code : string) :
  Forall (placed (split code linefeed)) (Tokens (Analyze code)).
Proof.
  eapply Forall_impl; [apply Analyze_scanned|].
  intros t (k & line & i & Hk & Hl & Hc & Hlex & _). exists k, line, i. auto.
Qed.


(** The lexer emits no whitespace and no newline token, so the filter
    the parser starts with returns the token list of the lexer as it
    is. *)
Theorem lexer_tokens_pass_the_filter (code : string) :
  Parser.filterTokens (Tokens (Analyze code)) = Tokens (Analyze code).
Proof.
  assert (H : Forall (fun t => Type_ t <> WHITESPACE /\ Type_ t <> NEWLINE)
                (Tokens (Analyze code))).
  { eapply Forall_impl; [apply Analyze_scanned|].
    intros t (k & line & i & _ & _ & _ & _ & Hs). unfold shaped in Hs.
    destruct (Type_ t); try contradiction; split; discriminate. }
  unfold Parser.filterTokens. induction H as [|t l Ht Hl IH]; [reflexivity|].
  rewrite filter_cons_True by exact Ht. f_equal. exact IH.
Qed.

End LexerInvariants.

(** ** The parser *)

Module ParserFacts.

Import Lexer Parser Spec ParserSpec.

(** *** Fuel only decides whether an answer is reached, not which *)

Lemma mle_refl {A} (m : M A) : mle m m.
Proof. intros p. right. reflexivity. Qed.

Lemma mle_timeout {A} (m : M A) : mle timeout m.
Proof. intros p. left. reflexivity. Qed.

Lemma mle_bind {A B} (m1 m2 : M A) (k1 k2 : A -> M B) :
  mle m1 m2 -> (forall a, mle (k1 a) (k2 a)) -> mle (bind m1 k1) (bind m2 k2).
Proof.
  intros Hm Hk p. unfold bind. destruct (Hm p) as [->| <-]; [left; reflexivity|].
  destruct (m1 p) as [a p'| |]; auto. apply Hk.
Qed.

Ltac mono :=
  repeat first
    [ apply mle_refl
    | assumption
    | match goal with H : forall _, mle _ _ |- _ => apply H end
    | apply mle_bind; [|intros ?]
    | match goal with
      | |- mle (if ?b then _ else _) _ => destruct b
      | |- mle (match ?o with Some _ => _ | None => _ end) _ => destruct o
      end ].

Lemma parseParams_mono n : forall m params,
  (n <= m)%nat -> mle (parseParams n params) (parseParams m params).
Proof.
  induction n as [|n IH]; intros m params Hle; [apply mle_timeout|].
  destruct m as [|m]; [lia|]. specialize (IH m).
  assert (IH' : forall params, mle (parseParams n params) (parseParams m params))
    by (intros; apply IH; lia).
  cbn [parseParams]. mono.
Qed.

Lemma productions_mono n : forall m, (n <= m)%nat -> productions_mle n m.
Proof.
  induction n as [|n IH]; intros m Hle.
  { repeat split; intros; apply mle_timeout. }
  destruct m as [|m]; [lia|].
  destruct (IH m ltac:(lia))
    as (HSt & HFd & HIf & HBl & HBll & HAe & HAs & HEs & HEx & HCo & HCol
        & HTe & HTel & HFa & HAr).
  assert (HPa : forall params, mle (parseParams n params) (parseParams m params))
    by (intros; apply parseParams_mono; lia).
  repeat split; intros.
  - cbn [parseStatement]. mono.
  - cbn [parseFunctionDef]. mono.
  - cbn [parseIfStatement]. mono.
  - cbn [parseBlock]. mono.
  - cbn [parseBlock_loop]. mono.
  - cbn [parseAssignmentOrExpression]. mono.
  - cbn [parseAssignment]. mono.
  - cbn [parseExpressionStatement]. mono.
  - cbn [parseExpression]. mono.
  - cbn [parseComparison]. mono.
  - cbn [parseComparison_loop]. mono.
  - cbn [parseTerm]. mono.
  - cbn [parseTerm_loop]. mono.
  - cbn [parseFactor]. mono.
  - cbn [parseArgs]. mono.
Qed.

Lemma parseProgram_loop_mono n : forall m children,
  (n <= m)%nat -> mle (parseProgram_loop n children) (parseProgram_loop m children).
Proof.
  induction n as [|n IH]; intros m children Hle; [apply mle_timeout|].
  destruct m as [|m]; [lia|].
  assert (IH' : forall children,
            mle (parseProgram_loop n children) (parseProgram_loop m children))
    by (intros; apply IH; lia).
  destruct (productions_mono n m ltac:(lia)) as (HSt & _).
  cbn [parseProgram_loop]. mono.
Qed.

Lemma parseProgram_mono n m : (n <= m)%nat -> mle (parseProgram n) (parseProgram m).
Proof.
  intros Hle. unfold parseProgram. apply mle_bind; [|intros; apply mle_refl].
  apply parseProgram_loop_mono, Hle.
Qed.

(** More fuel never changes an answer that was reached. *)
Lemma Analyze_more_fuel n m toks :
  (n <= m)%nat -> Analyze n toks <> OutOfFuel -> Analyze m toks = Analyze n toks.
Proof.
  intros Hle Hn. unfold Analyze in *.
  destruct (parseProgram_mono n m Hle (newParser toks)) as [Ht| <-]; [|reflexivity].
  rewrite Ht in Hn. contradiction.
Qed.

(** Two runs that both reach an answer reach the same one. *)
Lemma Analyze_fuel_independent n m toks :
  Analyze n toks <> OutOfFuel -> Analyze m toks <> OutOfFuel ->
  Analyze n toks = Analyze m toks.
Proof.
  intros Hn Hm. destruct (Nat.le_ge_cases n m).
  - symmetry. apply Analyze_more_fuel; assumption.
  - apply Analyze_more_fuel; assumption.
Qed.

(** *** What the expression productions build *)

Lemma post_ret {A} (a : A) (Q : A -> Prop) : Q a -> post (ret a) Q.
Proof. intros H p a' p' [= <- _]. exact H. Qed.

Lemma post_true {A} (m : M A) : post m (fun _ => True).
Proof. intros p a p' _. exact I. Qed.

Lemma post_timeout {A} (Q : A -> Prop) : post timeout Q.
Proof. intros p a p' [=]. Qed.

Lemma post_panic {A} (Q : A -> Prop) : post panic Q.
Proof. intros p a p' [=]. Qed.

Lemma post_bind {A B} (m : M A) (k : A -> M B) (Q1 : A -> Prop) (Q : B -> Prop) :
  post m Q1 -> (forall a, Q1 a -> post (k a) Q) -> post (bind m k) Q.
Proof.
  intros Hm Hk p b p'. unfold bind. destruct (m p) as [a p1| |] eqn:E; try discriminate.
  intros Hb. exact (Hk a (Hm _ _ _ E) _ _ _ Hb).
Qed.

Lemma NA_node ty value line children :
  ty <> "Assignment" -> NAs children -> NA (Some (Node ty value line children)).
Proof.
  intros Hty Hch. unfold NA, NAs in *. cbn [Spec.noAssignO Spec.noAssign].
  rewrite bool_decide_eq_false_2 by exact Hty. exact Hch.
Qed.

Lemma NAs_snoc l e : NAs l -> NA e -> NAs (l ++ [e]).
Proof.
  unfold NAs, NA. intros Hl He. rewrite forallb_app, Hl. cbn [forallb].
  rewrite He. reflexivity.
Qed.

Lemma post_binaryOp operator expr right :
  NA expr -> NA right -> post (binaryOp operator expr right) NA.
Proof.
  intros He Hr. unfold binaryOp. destruct expr as [e|]; [|apply post_panic].
  apply post_ret, NA_node; [discriminate|].
  unfold NAs, NA in *. cbn [forallb]. rewrite He, Hr. reflexivity.
Qed.

Lemma post_args n (c : bool) :
  (forall args, NAs args -> post (parseArgs n args) NAs) ->
  post (if c then parseArgs n [] else ret []) NAs.
Proof. intros H. destruct c; [apply H | apply post_ret]; reflexivity. Qed.

Ltac posts :=
  repeat first
    [ apply post_timeout
    | apply post_binaryOp; assumption
    | match goal with
      | H : post ?m _ |- post ?m _ => exact H
      | H : forall _, _ -> post _ _ |- post _ _ => apply H; try assumption
      end
    | apply post_ret
    | eapply post_bind;
      [ first [ match goal with H : post ?m _ |- post ?m _ => exact H end
              | apply post_binaryOp; assumption
              | apply post_args; assumption
              | match goal with
                | H : forall _, _ -> post _ _ |- post _ _ => apply H; try assumption
                end
              | apply post_true ]
      | intros ? ? ]
    | match goal with
      | |- post (if ?b then _ else _) _ => destruct b
      | |- post (match ?o with Some _ => _ | None => _ end) _ => destruct o eqn:?
      end
    | apply NA_node; [discriminate|]
    | apply NAs_snoc; [assumption|]
    | assumption
    | reflexivity ].

Lemma expressions_noAssign n : expressions_post n.
Proof.
  induction n as [|n (HEx & HCo & HCol & HTe & HTel & HFa & HAr)].
  { repeat split; intros; apply post_timeout. }
  repeat split; intros.
  - cbn [parseExpression]. posts.
  - cbn [parseComparison]. posts.
  - cbn [parseComparison_loop]. posts.
  - cbn [parseTerm]. posts.
  - cbn [parseTerm_loop]. posts.
  - cbn [parseFactor]. posts.
  - cbn [parseArgs]. posts;
      match goal with
      | |- NAs (match ?a with Some _ => _ | None => _ end) =>
          destruct a; [apply NAs_snoc|]; assumption
      end.
Qed.

(** Every node [parseExpression] returns is free of assignments. *)
Lemma parseExpression_noAssign n p e p' :
  parseExpression n p = Ret e p' -> Spec.noAssignO e = true.
Proof. apply (proj1 (expressions_noAssign n)). Qed.

(** Every if-statement node the parser builds has two children, and its
    condition is free of assignments. *)
Lemma parseIfStatement_builds n p node p' :
  parseIfStatement n p = Ret (Some node) p' ->
  NodeType node = "IfStatement"
  /\ exists condition thenBranch,
       Children node = [condition; Some thenBranch]
       /\ Spec.noAssignO condition = true.
Proof.
  assert (H : post (parseIfStatement n)
            (fun o => match o with
                      | None => True
                      | Some node =>
                          NodeType node = "IfStatement"
                          /\ exists condition thenBranch,
                               Children node = [condition; Some thenBranch]
                               /\ Spec.noAssignO condition = true
                      end)).
  { destruct n as [|n]; [apply post_timeout|]. cbn [parseIfStatement].
    eapply post_bind; [apply post_true|intros prev _].
    eapply post_bind; [apply (proj1 (expressions_noAssign n))|intros condition Hc].
    destruct condition as [c|]; [|apply post_ret; exact I].
    eapply post_bind; [apply post_true|intros colon _].
    destruct colon; cbn [negb].
    - eapply post_bind; [apply post_true|intros thenBranch _].
      apply post_ret. split; [reflexivity|]. eauto.
    - eapply post_bind; [apply post_true|intros ? _]. apply post_ret. exact I. }
  intros Hp. exact (H _ _ _ Hp).
Qed.

(** Every assignment node the parser builds has one child, its value,
    free of assignments. *)
Lemma parseAssignment_builds n p node p' :
  parseAssignment n p = Ret (Some node) p' ->
  NodeType node = "Assignment"
  /\ exists value, Children node = [value] /\ Spec.noAssignO value = true.
Proof.
  assert (H : post (parseAssignment n)
            (fun o => match o with
                      | None => True
                      | Some node =>
                          NodeType node = "Assignment"
                          /\ exists value, Children node = [value]
                                           /\ Spec.noAssignO value = true
                      end)).
  { destruct n as [|n]; [apply post_timeout|]. cbn [parseAssignment].
    eapply post_bind; [apply post_true|intros tok _].
    eapply post_bind; [apply post_true|intros isId _].
    destruct isId; cbn [negb].
    2:{ eapply post_bind; [apply post_true|intros ? _]. apply post_ret. exact I. }
    eapply post_bind; [apply post_true|intros nameTok _].
    eapply post_bind; [apply post_true|intros eq _].
    destruct eq; cbn [negb].
    2:{ eapply post_bind; [apply post_true|intros ? _]. apply post_ret. exact I. }
    eapply post_bind; [apply (proj1 (expressions_noAssign n))|intros value Hv].
    destruct value as [v|]; apply post_ret; [|exact I].
    split; [reflexivity|]. eauto. }
  intros Hp. exact (H _ _ _ Hp).
Qed.

(** *** A statement that fails at top level is retried for ever *)

Lemma parseStatement_stuck n errs :
  parseStatement n (stuck errs) = Timeout
  \/ parseStatement n (stuck errs) = Ret None (stuck (errs ++ [expectedExpression])%list).
Proof.
  do 6 (destruct n as [|n]; [left; reflexivity|]).
  right. reflexivity.
Qed.

Lemma parseProgram_loop_stuck n : forall children errs,
  parseProgram_loop n children (stuck errs) = Timeout.
Proof.
  induction n as [|n IH]; intros children errs; [reflexivity|].
  cbn [parseProgram_loop]. unfold bind at 1. cbn [get isAtEnd stuck].
  change (bind (parseStatement n)
            (fun stmt => match stmt with
                         | Some _ => parseProgram_loop n (children ++ [stmt])%list
                         | None => parseProgram_loop n children
                         end) (stuck errs) = Timeout).
  unfold bind. destruct (parseStatement_stuck n errs) as [->| ->]; [reflexivity|].
  apply IH.
Qed.

(** C1, on the code. On the one-token input [)] the top-level loop never
    ends: [parseStatement] records a diagnostic and returns nil without
    consuming the token, and [parseProgram] calls it again from the same
    position. No amount of fuel yields a tree, for the token sequence and
    for the source text alike. *)
Theorem parseProgram_never_returns (fuel : nat) :
  Parser.Analyze fuel [mkToken SYMBOL ")" 1 1] = OutOfFuel
  /\ Parser.Analyze fuel (Lexer.Tokens (Lexer.Analyze ")")) = OutOfFuel.
Proof.
  assert (H : Parser.Analyze fuel [mkToken SYMBOL ")" 1 1] = OutOfFuel).
  { unfold Parser.Analyze, parseProgram, bind.
    change (newParser [mkToken SYMBOL ")" 1 1]) with (stuck []).
    rewrite parseProgram_loop_stuck. reflexivity. }
  split; [exact H|]. exact H.
Qed.

(** A nil left operand is dereferenced when the operator follows: the
    input [+1] ends in the run-time panic. *)
Lemma parseTerm_nil_dereference :
  Parser.Analyze 8 (Lexer.Tokens (Lexer.Analyze "+1")) = Panicked.
Proof. vm_compute. reflexivity. Qed.

(** The block loop, by contrast, skips one token after a nil statement. *)
Lemma parseBlock_loop_skips_one_token n children p p' :
  negb (isAtEnd p) && negb (check "def" p) && negb (check "if" p)
  && negb (checkNext "def" p) && negb (checkNext "if" p) = true ->
  parseStatement n p = Ret None p' ->
  parseBlock_loop (S n) children p =
  if (Z.of_nat (length (tokens p')) - 1 <=? Z.of_nat (current (step p')))
  then Ret children (step p')
  else parseBlock_loop n children (step p').
Proof.
  intros Hc Hs. cbn [parseBlock_loop]. unfold bind at 1. unfold get at 1.
  rewrite Hc. cbn [negb]. unfold bind at 1. rewrite Hs.
  unfold bind at 1. unfold bind at 1. unfold advance at 1.
  unfold ret at 1. unfold bind, get.
  assert (Ht : tokens (step p') = tokens p') by (unfold step; destruct (isAtEnd p'); reflexivity).
  rewrite Ht. destruct (_ <=? _); reflexivity.
Qed.

(** *** Where a block ends *)



(** *** An Error token is never consumed without a diagnostic *)

Lemma wp_bind {A B} (m : M A) (k : A -> M B) Q p :
  wp m (fun a p1 => wp (k a) Q p1) p -> wp (bind m k) Q p.
Proof. unfold wp, bind. destruct (m p); auto. Qed.

Lemma wp_ret {A} (a : A) (Q : A -> Parser -> Prop) p : Q a p -> wp (ret a) Q p.
Proof. auto. Qed.

Lemma wp_get {A} (f : Parser -> A) (Q : A -> Parser -> Prop) p :
  Q (f p) p -> wp (get f) Q p.
Proof. auto. Qed.

Lemma wp_conseq {A} (m : M A) (Q1 Q : A -> Parser -> Prop) p :
  wp m Q1 p -> (forall a p1, Q1 a p1 -> Q a p1) -> wp m Q p.
Proof. unfold wp. destruct (m p); auto. Qed.

Lemma tokens_step p : tokens (step p) = tokens p.
Proof. unfold step. destruct (isAtEnd p); reflexivity. Qed.

Lemma errors_step p : Parser.errors (step p) = Parser.errors p.
Proof. unfold step. destruct (isAtEnd p); reflexivity. Qed.

Lemma peek_lookup p :
  isAtEnd p = false -> tokens p !! current p = Some (peek p).
Proof.
  intros H. unfold peek. rewrite H. unfold isAtEnd in H. apply Nat.leb_gt in H.
  destruct (tokens p !! current p) eqn:E; [reflexivity|].
  apply lookup_ge_None in E. lia.
Qed.

(** Consuming a token that is not an Error token keeps the invariant. *)
Lemma Inv_step toks p :
  Inv toks p ->
  (isAtEnd p = false -> Type_ (peek p) <> ERROR) ->
  Inv toks (step p).
Proof.
  intros [Ht Ha] Hty. split; [rewrite tokens_step; exact Ht|].
  unfold step. destruct (isAtEnd p) eqn:He; [exact Ha|].
  destruct Ha as [Ha|Ha]; [left; exact Ha|]. right. cbn [current tokens].
  intros i t Hi Hl. destruct (decide (i = current p)) as [->|Hne].
  - rewrite peek_lookup in Hl by exact He. injection Hl as <-. auto.
  - apply (Ha i t); [lia | exact Hl].
Qed.

Lemma Inv_step_type toks p ty :
  Inv toks p -> checkType ty p = true -> ty <> ERROR -> Inv toks (step p).
Proof.
  intros HI Hc Hty. apply Inv_step; [exact HI|]. intros He.
  unfold checkType in Hc. rewrite He in Hc. apply bool_decide_eq_true in Hc. congruence.
Qed.

Lemma Inv_step_err toks p :
  Inv toks p -> Parser.errors p <> [] -> Inv toks (step p).
Proof.
  intros [Ht _] He. split; [rewrite tokens_step; exact Ht|].
  left. rewrite errors_step. exact He.
Qed.

Lemma Inv_step_check toks p v :
  errorsUnmatched toks -> Inv toks p -> check v p = true -> isMatched v = true ->
  Inv toks (step p).
Proof.
  intros Hu HI Hc Hm. apply Inv_step; [exact HI|]. intros He Hty.
  unfold check in Hc. rewrite He in Hc. apply bool_decide_eq_true in Hc.
  destruct HI as [Ht _]. unfold errorsUnmatched in Hu. rewrite Forall_forall in Hu.
  assert (Hin : peek p ∈ toks).
  { rewrite <- Ht. apply list_elem_of_lookup. exists (current p). apply peek_lookup, He. }
  specialize (Hu _ Hin Hty). rewrite Hc in Hu. congruence.
Qed.

Lemma wp_advance_type toks ty (Q : Token -> Parser -> Prop) p :
  Inv toks p -> checkType ty p = true -> ty <> ERROR ->
  (Inv toks (step p) -> Parser.errors (step p) = Parser.errors p ->
   Q (previous (step p)) (step p)) ->
  wp advance Q p.
Proof.
  intros HI Hc Hty HQ. unfold wp, advance. apply HQ.
  - eapply Inv_step_type; eauto.
  - apply errors_step.
Qed.

Lemma wp_advance_err toks (Q : Token -> Parser -> Prop) p :
  Inv toks p -> Parser.errors p <> [] ->
  (Inv toks (step p) -> Parser.errors (step p) <> [] ->
   Q (previous (step p)) (step p)) ->
  wp advance Q p.
Proof.
  intros HI He HQ. unfold wp, advance. apply HQ.
  - apply Inv_step_err; assumption.
  - rewrite errors_step. exact He.
Qed.

Lemma wp_match toks types (Q : bool -> Parser -> Prop) p :
  errorsUnmatched toks -> Inv toks p ->
  forallb isMatched types = true ->
  (forall b p1, Inv toks p1 -> Parser.errors p1 = Parser.errors p -> Q b p1) ->
  wp (match_ types) Q p.
Proof.
  intros Hu HI Hts HQ. unfold wp.
  induction types as [|t types IH]; cbn [match_].
  - apply HQ; auto.
  - cbn [forallb] in Hts. apply andb_true_iff in Hts as [Ht Hts].
    destruct (check t p) eqn:Hc.
    + unfold bind, advance, ret. apply HQ.
      * eapply Inv_step_check; eauto.
      * apply errors_step.
    + apply IH, Hts.
Qed.

Lemma wp_error toks message (Q : unit -> Parser -> Prop) p :
  Inv toks p ->
  (forall p1, Inv toks p1 -> Parser.errors p1 <> [] -> Q tt p1) ->
  wp (error message) Q p.
Proof.
  intros [Ht Ha] HQ. unfold wp, error. apply HQ.
  - split; [exact Ht|]. left. cbn [Parser.errors]. intros H.
    apply app_eq_nil in H as [_ H]. discriminate H.
  - cbn [Parser.errors]. intros H. apply app_eq_nil in H as [_ H]. discriminate H.
Qed.

Ltac solve_errors :=
  intros; subst; try discriminate;
  repeat match goal with
         | H : Parser.errors ?a = Parser.errors _ |- context [Parser.errors ?a] =>
             rewrite H
         end;
  auto; try congruence.

Ltac solve_post :=
  unfold PostO, PostU, withDiagnostic in *;
  repeat match goal with
         | H : Inv _ _ /\ _ |- _ => destruct H
         end;
  first [ eassumption
        | split; [eassumption | solve_errors]
        | solve_errors ].

Ltac use_IH :=
  match goal with
  | H : context [wp] |- wp _ _ _ => eapply H; [eassumption | ..]; try solve [solve_post]
  end.

Ltac wp_step toks :=
  lazymatch goal with
  | |- wp (bind _ _) _ _ => apply wp_bind
  | |- wp (ret _) _ _ => apply wp_ret
  | |- wp (get _) _ _ => apply wp_get; cbv beta
  | |- wp timeout _ _ => exact I
  | |- wp panic _ _ => exact I
  | |- wp advance _ _ =>
      first [ eapply (wp_advance_type toks);
                [eassumption | eassumption | discriminate | intros ? ?]
            | eapply (wp_advance_err toks);
                [eassumption | solve [solve_post] | intros ? ?] ]
  | |- wp (match_ _) _ _ =>
      eapply (wp_match toks); [eassumption | eassumption | reflexivity | intros ? ? ? ?]
  | |- wp (error _) _ _ => eapply (wp_error toks); [eassumption | intros ? ? ?]
  | |- wp (binaryOp _ ?e _) _ _ => unfold binaryOp; destruct e
  | |- wp (if negb ?c then _ else _) _ _ => destruct c eqn:?; cbn [negb]
  | |- wp (if ?c then _ else _) _ _ => destruct c eqn:?
  | |- wp (match ?o with Some _ => _ | None => _ end) _ _ => destruct o eqn:?
  | |- wp _ _ _ =>
      eapply wp_conseq;
        [ use_IH
        | cbv beta;
          let HP := fresh "HP" in
          intros ? ? HP; unfold PostO, PostU in HP;
          lazymatch type of HP with
          | Inv _ _ /\ _ => destruct HP
          | _ => idtac
          end ]
  | |- _ => solve_post
  end.

Ltac wps toks := repeat (wp_step toks).

Section Invariant.

Variable toks : list Token.
Hypothesis Hunmatched : errorsUnmatched toks.

Lemma parseParams_wp n : forall params p,
  Inv toks p -> wp (parseParams n params) (PostU toks) p.
Proof.
  induction n as [|n IH]; intros params p HI; [exact I|].
  cbn [parseParams]. wps toks.
Qed.

Lemma productions_keep_Inv n : productions_wp toks n.
Proof.
  induction n as [|n (HSt & HFd & HIf & HBl & HBll & HAe & HAs & HEs & HEx & HCo
                      & HCol & HTe & HTel & HFa & HAr)].
  { repeat split; intros; exact I. }
  pose proof (parseParams_wp n) as HPa.
  repeat split; intros.
  - cbn [parseStatement]. wps toks.
  - cbn [parseFunctionDef]. wps toks.
  - cbn [parseIfStatement]. wps toks.
  - cbn [parseBlock]. wps toks.
  - cbn [parseBlock_loop]. wps toks.
  - cbn [parseAssignmentOrExpression]. wps toks.
  - cbn [parseAssignment]. wps toks.
  - cbn [parseExpressionStatement]. wps toks.
  - cbn [parseExpression]. wps toks.
  - cbn [parseComparison]. wps toks.
  - cbn [parseComparison_loop]. wps toks.
  - cbn [parseTerm]. wps toks.
  - cbn [parseTerm_loop]. wps toks.
  - cbn [parseFactor]. wps toks.
  - cbn [parseArgs]. wps toks.
Qed.

End Invariant.

Section Program.

Variable toks : list Token.
Hypothesis Hunmatched : errorsUnmatched toks.

Lemma parseProgram_loop_wp n : forall children p,
  Inv toks p ->
  wp (parseProgram_loop n children)
     (fun _ p' => Inv toks p' /\ isAtEnd p' = true) p.
Proof.
  induction n as [|n IH]; intros children p HI; [exact I|].
  destruct (productions_keep_Inv toks Hunmatched n) as (HSt & _).
  cbn [parseProgram_loop]. apply wp_bind, wp_get. cbv beta.
  destruct (isAtEnd p) eqn:He; [apply wp_ret; auto|].
  apply wp_bind. eapply wp_conseq; [apply HSt, HI|]. cbv beta.
  intros stmt p1 [HI1 _]. destruct stmt; apply IH, HI1.
Qed.

End Program.

(** A parse that returns, over tokens among which there is an Error
    token, has recorded a diagnostic. *)
Lemma Analyze_error_token fuel toks syntaxResult t :
  errorsUnmatched toks -> t ∈ toks -> Type_ t = ERROR ->
  Parser.Analyze fuel toks = Done syntaxResult ->
  Parser.Errors syntaxResult <> [].
Proof.
  intros Hu Hin Hty. unfold Parser.Analyze, parseProgram, bind.
  assert (Hu' : errorsUnmatched (filterTokens toks)).
  { unfold errorsUnmatched, filterTokens in *. rewrite Forall_forall in *.
    intros x Hx. apply Hu. apply list_elem_of_filter in Hx. tauto. }
  assert (Hin' : t ∈ filterTokens toks).
  { unfold filterTokens. apply list_elem_of_filter. split; [|exact Hin].
    rewrite Hty. split; discriminate. }
  assert (HI : Inv (filterTokens toks) (newParser toks)).
  { split; [reflexivity|]. right. cbn [newParser current]. intros; lia. }
  pose proof (parseProgram_loop_wp _ Hu' fuel [] _ HI) as Hwp. unfold wp in Hwp.
  destruct (parseProgram_loop fuel [] (newParser toks)) as [children p'| |];
    try discriminate.
  cbn [ret]. intros [= <-]. cbn [Parser.Errors].
  destruct Hwp as [[Ht Ha] He]. destruct Ha as [Ha|Ha]; [exact Ha|]. exfalso.
  apply list_elem_of_lookup in Hin' as [i Hi].
  unfold isAtEnd in He. apply Nat.leb_le in He.
  apply (Ha i t); [|rewrite Ht; exact Hi|exact Hty].
  apply lookup_lt_Some in Hi. rewrite Ht in He. lia.
Qed.

End ParserFacts.

(** ** What the parser keeps on every token list *)

Module ParserInvariants.

Import Lexer Parser Spec ParserSpec ParserFacts.

Lemma extends_refl p : extends p p.
Proof.
  repeat split; try lia. exists []. split; [symmetry; apply app_nil_r|constructor].
Qed.

Lemma extends_trans p0 p1 p2 : extends p0 p1 -> extends p1 p2 -> extends p0 p2.
Proof.
  intros (Ht1 & Hi1 & Hc1 & Hb1 & a1 & He1 & Hd1) (Ht2 & Hi2 & Hc2 & Hb2 & a2 & He2 & Hd2).
  rewrite Ht1 in *. repeat split; try congruence; try lia.
  exists (a1 ++ a2)%list. split.
  - rewrite He2, He1. symmetry. apply app_assoc.
  - apply Forall_app. split; assumption.
Qed.

Lemma extends_step p : extends p (step p).
Proof.
  unfold step. destruct (isAtEnd p) eqn:He; [apply extends_refl|].
  unfold isAtEnd in He. apply Nat.leb_gt in He.
  repeat split; cbn [tokens indent current Parser.errors]; try lia.
  exists []. split; [symmetry; apply app_nil_r|constructor].
Qed.

Lemma extends_error p message :
  exists p', error message p = Ret tt p' /\ extends p p'.
Proof.
  unfold error. eexists. split; [reflexivity|].
  repeat split; cbn [tokens indent current Parser.errors]; try lia.
  eexists. split; [reflexivity|]. constructor; [|constructor].
  eexists _, message. split; [reflexivity|].
  destruct (isAtEnd p) eqn:He; [left; reflexivity|]. right.
  exists (peek p). split; [|reflexivity].
  apply list_elem_of_lookup. exists (current p). apply peek_lookup, He.
Qed.

Lemma wp_forward_advance p0 (Q : Token -> Parser -> Prop) p :
  extends p0 p -> (forall a p1, extends p0 p1 -> Q a p1) -> wp advance Q p.
Proof.
  intros H HQ. unfold wp, advance. apply HQ.
  eapply extends_trans; [exact H|apply extends_step].
Qed.

Lemma wp_forward_match p0 types (Q : bool -> Parser -> Prop) p :
  extends p0 p -> (forall b p1, extends p0 p1 -> Q b p1) -> wp (match_ types) Q p.
Proof.
  intros H HQ. unfold wp. induction types as [|t types IH]; cbn [match_].
  - apply HQ, H.
  - destruct (check t p); [|exact IH].
    unfold bind, advance, ret. apply HQ.
    eapply extends_trans; [exact H|apply extends_step].
Qed.

Lemma wp_forward_error p0 message (Q : unit -> Parser -> Prop) p :
  extends p0 p -> (forall p1, extends p0 p1 -> Q tt p1) -> wp (error message) Q p.
Proof.
  intros H HQ. unfold wp. destruct (extends_error p message) as (p' & -> & He).
  apply HQ. eapply extends_trans; eassumption.
Qed.

Ltac fw_step :=
  lazymatch goal with
  | |- wp (bind _ _) _ _ => apply wp_bind
  | |- wp (ret _) _ _ => apply wp_ret
  | |- wp (get _) _ _ => apply wp_get; cbv beta
  | |- wp timeout _ _ => exact I
  | |- wp panic _ _ => exact I
  | |- wp advance _ _ => eapply wp_forward_advance; [eassumption | intros ? ? ?]
  | |- wp (match_ _) _ _ => eapply wp_forward_match; [eassumption | intros ? ? ?]
  | |- wp (error _) _ _ => eapply wp_forward_error; [eassumption | intros ? ?]
  | |- wp (binaryOp _ ?e _) _ _ => unfold binaryOp; destruct e
  | |- wp (if negb ?c then _ else _) _ _ => destruct c eqn:?; cbn [negb]
  | |- wp (if ?c then _ else _) _ _ => destruct c eqn:?
  | |- wp (match ?o with Some _ => _ | None => _ end) _ _ => destruct o eqn:?
  | |- wp _ _ _ =>
      eapply wp_conseq;
        [ match goal with
          | H : context [forward] |- _ => eapply H; eassumption
          end
        | cbv beta; intros ? ? ? ]
  | |- extends _ _ => eassumption
  end.

Ltac fws := repeat fw_step.

Lemma parseParams_forward n : forall params, forward (parseParams n params).
Proof.
  induction n as [|n IH]; intros params p0 p H; [exact I|].
  cbn [parseParams]. fws.
Qed.

Lemma productions_move_forward n : productions_forward n.
Proof.
  induction n as [|n (HSt & HFd & HIf & HBl & HBll & HAe & HAs & HEs & HEx & HCo
                      & HCol & HTe & HTel & HFa & HAr)].
  { repeat split; intros; intros ? ? ?; exact I. }
  pose proof (parseParams_forward n) as HPa.
  repeat split; intros; intros p0 p H.
  - cbn [parseStatement]. fws.
  - cbn [parseFunctionDef]. fws.
  - cbn [parseIfStatement]. fws.
  - cbn [parseBlock]. fws.
  - cbn [parseBlock_loop]. fws.
  - cbn [parseAssignmentOrExpression]. fws.
  - cbn [parseAssignment]. fws.
  - cbn [parseExpressionStatement]. fws.
  - cbn [parseExpression]. fws.
  - cbn [parseComparison]. fws.
  - cbn [parseComparison_loop]. fws.
  - cbn [parseTerm]. fws.
  - cbn [parseTerm_loop]. fws.
  - cbn [parseFactor]. fws.
  - cbn [parseArgs]. fws.
Qed.

(** *** The line read back from a diagnostic *)

Lemma digit_char x :
  (x < 10)%N ->
  Unicode.IsDigit (pretty_N_char x) = true
  /\ Z.of_N (N_of_ascii (pretty_N_char x)) - 48 = Z.of_N x.
Proof.
  intros H.
  destruct x as [|p]; [split; reflexivity|].
  do 4 (destruct p as [p|p|]; try lia; try (split; reflexivity)).
Qed.

Lemma scanDigits_pretty_go x : forall s acc,
  exists k, scanDigits (pretty_N_go x s) acc = scanDigits s (acc * 10 ^ k + Z.of_N x)
            /\ 0 <= k.
Proof.
  induction x as [x IH] using (well_founded_induction N.lt_wf_0). intros s acc.
  destruct (decide (x = 0%N)) as [->|Hx].
  { rewrite pretty_N_go_0. exists 0. split; [f_equal; lia | lia]. }
  rewrite pretty_N_go_step by lia.
  assert (Hlt : (x `div` 10 < x)%N) by (apply N.div_lt; lia).
  destruct (IH _ Hlt (String (pretty_N_char (x `mod` 10)) s) acc) as (k & -> & Hk).
  assert (Hm : (x `mod` 10 < 10)%N) by (apply N.mod_lt; lia).
  destruct (digit_char _ Hm) as [Hd Hv].
  cbn [scanDigits]. rewrite Hd, Hv. exists (k + 1). split; [|lia]. f_equal.
  rewrite Z.pow_add_r by lia. rewrite (N.div_mod x 10) at 3 by lia.
  rewrite N2Z.inj_add, N2Z.inj_mul. change (Z.of_N 10) with 10. lia.
Qed.

Lemma pretty_go_app x : forall s t,
  (pretty_N_go x s ++ t)%string = pretty_N_go x (s ++ t)%string.
Proof.
  induction x as [x IH] using (well_founded_induction N.lt_wf_0). intros s t.
  destruct (decide (x = 0%N)) as [->|Hx]; [rewrite !pretty_N_go_0; reflexivity|].
  rewrite (pretty_N_go_step x s), (pretty_N_go_step x (s ++ t)) by lia.
  rewrite IH by (apply N.div_lt; lia). reflexivity.
Qed.

Lemma pretty_go_head x : forall s,
  (0 < x)%N ->
  exists ch rest, pretty_N_go x s = String ch rest /\ Unicode.IsDigit ch = true.
Proof.
  induction x as [x IH] using (well_founded_induction N.lt_wf_0). intros s Hx.
  rewrite pretty_N_go_step by lia.
  assert (Hm : (x `mod` 10 < 10)%N) by (apply N.mod_lt; lia).
  destruct (decide (x `div` 10 = 0)%N) as [->|Hd].
  - rewrite pretty_N_go_0. eexists _, _. split; [reflexivity|]. apply digit_char, Hm.
  - apply IH; [apply N.div_lt; lia | apply N.neq_0_lt_0; exact Hd].
Qed.

Lemma scanInt_digits s ch rest :
  s = String ch rest -> Unicode.IsDigit ch = true -> scanInt s = scanDigits s 0.
Proof.
  intros -> Hd. unfold scanInt.
  destruct (decide (ch = "-"%char)) as [->|H1]; [discriminate Hd|].
  destruct (decide (ch = "+"%char)) as [->|H2]; [discriminate Hd|].
  destruct ch as [[] [] [] [] [] [] [] []]; try reflexivity; congruence.
Qed.

Lemma scanDigits_stop s acc :
  scanDigits (": " ++ s) acc = acc.
Proof. reflexivity. Qed.

Lemma scan_pretty_pos p message :
  scanDigits (pretty (N.pos p) ++ ": " ++ message) 0 = Z.pos p
  /\ exists ch rest, (pretty (N.pos p) ++ ": " ++ message)%string = String ch rest
                     /\ Unicode.IsDigit ch = true.
Proof.
  unfold pretty, pretty_N. rewrite decide_False by discriminate.
  rewrite pretty_go_app. split.
  - destruct (scanDigits_pretty_go (N.pos p) (EmptyString ++ ": " ++ message) 0)
      as (k & -> & _).
    change (EmptyString ++ ": " ++ message)%string with (": " ++ message)%string.
    rewrite scanDigits_stop. reflexivity.
  - apply pretty_go_head. lia.
Qed.

(** [Sscanf] reads back the line [error] wrote with [%d]. *)
Lemma scanInt_pretty (line : Z) (message : string) :
  scanInt (Fmt.d line ++ ": " ++ message) = line.
Proof.
  unfold Fmt.d. destruct line as [|p|p].
  - reflexivity.
  - change (pretty (Z.pos p)) with (pretty (N.pos p)).
    destruct (scan_pretty_pos p message) as (Hs & ch & rest & He & Hd).
    rewrite (scanInt_digits _ _ _ He Hd). exact Hs.
  - change (pretty (Z.neg p)) with ("-" ++ pretty (N.pos p))%string.
    change (("-" ++ pretty (N.pos p)) ++ ": " ++ message)%string
      with (String "-" (pretty (N.pos p) ++ ": " ++ message)).
    cbn [scanInt]. destruct (scan_pretty_pos p message) as (Hs & _). rewrite Hs.
    reflexivity.
Qed.

Lemma getErrorLine_first p line message rest :
  Parser.errors p = ("Error en línea " ++ Fmt.d line ++ ": " ++ message)%string :: rest ->
  getErrorLine p = line.
Proof.
  intros He. unfold getErrorLine. rewrite He.
  set (tail := (Fmt.d line ++ ": " ++ message)%string).
  assert (Hc : Str.contains ("Error en línea " ++ tail) "línea " = true)
    by (vm_compute; reflexivity).
  assert (Hp : Str.has_prefix "Error en línea " ("Error en línea " ++ tail) = true)
    by (vm_compute; reflexivity).
  assert (Hf : Str.from (Str.len "Error en línea ") ("Error en línea " ++ tail) = tail)
    by (vm_compute; reflexivity).
  rewrite Hc, Hp, Hf. apply scanInt_pretty.
Qed.

(** *** The parse as a whole *)

(** A statement production that returns has left the token list and the
    indent alone, has not moved the position back nor past the end of
    the tokens, and has kept every diagnostic it found, in place, adding
    only messages of the form [error] writes, each for line 1 or for the
    line of a token. *)
Theorem statement_moves_forward (n : nat) (p p' : Parser) (stmt : option ASTNode) :
  parseStatement n p = Ret stmt p' -> extends p p'.
Proof.
  intros H. destruct (productions_move_forward n) as (HSt & _).
  specialize (HSt p p (extends_refl p)). unfold wp in HSt. rewrite H in HSt. exact HSt.
Qed.

Lemma statement_moves_forward_witness :
  extends (newParser (Tokens (Lexer.Analyze "x = (1 + ")))
          (mkParser (Tokens (Lexer.Analyze "x = (1 + ")) 5
             ["Error en línea 1: Se esperaba expresión";
              "Error en línea 1: Se esperaba ')' después de la expresión"] 0).
Proof.
  apply (statement_moves_forward 20 _ _
           (Some (Node "Assignment" "x" 1
              [Some (Node "BinaryOp" "+" 1 [Some (Node "Number" "1" 1 []); None])]))).
  vm_compute. reflexivity.
Defined.

Lemma parseProgram_loop_forward n : forall children, forward (parseProgram_loop n children).
Proof.
  induction n as [|n IH]; intros children p0 p H; [exact I|].
  destruct (productions_move_forward n) as (HSt & _).
  cbn [parseProgram_loop]. fws.
Qed.

(** In the result of a parse every diagnostic has the form [error]
    writes. The error line is 0 when there is none; otherwise it is the
    number written in the first diagnostic, negative numbers included,
    which is 1 or the line of one of the tokens parsed. *)
Theorem error_line_is_read_from_the_first_diagnostic
    (fuel : nat) (toks : list Token) (syntaxResult : SyntaxResult) :
  Parser.Analyze fuel toks = Done syntaxResult ->
  Forall (diagnostic (filterTokens toks)) (Errors syntaxResult)
  /\ (Errors syntaxResult = [] -> ErrorLine syntaxResult = 0)
  /\ (forall first rest,
        Errors syntaxResult = first :: rest ->
        exists message,
          first = "Error en línea " ++ Fmt.d (ErrorLine syntaxResult) ++ ": " ++ message
          /\ (ErrorLine syntaxResult = 1
              \/ exists t, t ∈ filterTokens toks /\ Line t = ErrorLine syntaxResult)).
Proof.
  unfold Parser.Analyze, parseProgram, bind.
  pose proof (parseProgram_loop_forward fuel [] _ _ (extends_refl (newParser toks))) as H.
  unfold wp in H.
  destruct (parseProgram_loop fuel [] (newParser toks)) as [children p| |];
    try discriminate.
  cbn [ret]. intros [= <-]. cbn [Errors ErrorLine].
  destruct H as (_ & _ & _ & _ & added & He & Hd).
  cbn [newParser Parser.errors tokens] in He, Hd. cbn [app] in He.
  split; [rewrite He; exact Hd|]. split.
  - intros Hn. unfold getErrorLine. rewrite Hn. reflexivity.
  - intros first rest Hf. rewrite He in Hf. rewrite Hf in Hd, He.
    apply List.Forall_inv in Hd. destruct Hd as (line & message & -> & Hl).
    rewrite (getErrorLine_first p line message rest) by exact He.
    exists message. split; [reflexivity|exact Hl].
Qed.

Lemma error_line_is_read_from_the_first_diagnostic_witness :
  exists syntaxResult,
    Parser.Analyze 20 (Tokens (Lexer.Analyze ("if x:" ++ lf ++ "  `")))
    = Done syntaxResult
    /\ Errors syntaxResult = ["Error en línea 2: Se esperaba expresión"]
    /\ ErrorLine syntaxResult = 2
    /\ Forall (diagnostic
                 (filterTokens (Tokens (Lexer.Analyze ("if x:" ++ lf ++ "  `")))))
              (Errors syntaxResult).
Proof.
  eexists. split; [vm_compute; reflexivity|].
  split; [reflexivity|]. split; [reflexivity|].
  eapply (proj1 (error_line_is_read_from_the_first_diagnostic 20 _ _ _)).
  Unshelve. vm_compute. reflexivity.
Defined.

(** *** A token that starts no statement *)

Section NonStarter.

Variable t : Token.
Hypothesis Hstart : startsStatement t = false.

Lemma standsOn_notEnd p : standsOn t p -> isAtEnd p = false.
Proof.
  unfold standsOn, isAtEnd. intros H. apply lookup_lt_Some in H.
  apply Nat.leb_gt. exact H.
Qed.

Lemma standsOn_peek p : standsOn t p -> peek p = t.
Proof.
  intros H. pose proof (peek_lookup p (standsOn_notEnd p H)) as Hp.
  unfold standsOn in H. congruence.
Qed.

Lemma standsOn_check p v :
  standsOn t p -> check v p = bool_decide (Value t = v).
Proof.
  intros H. unfold check. rewrite (standsOn_notEnd p H), (standsOn_peek p H). reflexivity.
Qed.

Lemma standsOn_checkType p ty :
  standsOn t p -> checkType ty p = bool_decide (Type_ t = ty).
Proof.
  intros H. unfold checkType. rewrite (standsOn_notEnd p H), (standsOn_peek p H).
  reflexivity.
Qed.

Lemma match_cases types p :
  match_ types p = Ret false p \/ match_ types p = Ret true (step p).
Proof.
  induction types as [|v types IH]; cbn [match_]; [left; reflexivity|].
  destruct (check v p); [right; reflexivity|exact IH].
Qed.

Lemma match_one_false v p :
  standsOn t p -> Value t <> v -> match_ [v] p = Ret false p.
Proof.
  intros H Hv. cbn [match_]. rewrite (standsOn_check p v H).
  rewrite bool_decide_eq_false_2 by exact Hv. reflexivity.
Qed.

Lemma not_starter :
  Value t <> "def" /\ Value t <> "if" /\ Value t <> "("
  /\ Type_ t <> NUMBER /\ Type_ t <> STRING /\ Type_ t <> IDENTIFIER.
Proof.
  unfold startsStatement in Hstart.
  repeat (apply orb_false_iff in Hstart as [Hstart ?]).
  repeat match goal with
         | H : bool_decide _ = false |- _ => apply bool_decide_eq_false in H
         end.
  auto 10.
Qed.

Lemma standsOn_error message p :
  standsOn t p -> exists p', error message p = Ret tt p' /\ standsOn t p'.
Proof.
  intros H. unfold error. eexists. split; [reflexivity|]. exact H.
Qed.

Lemma parseFactor_idle n p : standsOn t p -> idle t (parseFactor n p).
Proof.
  intros H. destruct not_starter as (_ & _ & Hlp & Hnum & Hstr & Hid).
  destruct n as [|n]; [exact I|]. cbn [parseFactor]. unfold bind at 1.
  rewrite (match_one_false "(" p H Hlp).
  unfold bind at 1, get at 1.
  rewrite (standsOn_checkType p NUMBER H), bool_decide_eq_false_2 by exact Hnum.
  unfold bind at 1, get at 1.
  rewrite (standsOn_checkType p STRING H), bool_decide_eq_false_2 by exact Hstr.
  unfold bind at 1, get at 1.
  rewrite (standsOn_checkType p IDENTIFIER H), bool_decide_eq_false_2 by exact Hid.
  unfold bind.
  destruct (standsOn_error "Se esperaba expresión" p H) as (p' & -> & H').
  cbn [ret idle]. auto.
Qed.

(** An operator after a nil left operand ends in the nil dereference. *)
Lemma parseTerm_loop_idle n p : standsOn t p -> idle t (parseTerm_loop n None p).
Proof.
  intros H. destruct n as [|n]; [exact I|]. cbn [parseTerm_loop]. unfold bind at 1.
  destruct (match_cases termOps p) as [-> | ->]; cbn [negb].
  - cbn [ret idle]. auto.
  - unfold bind at 1, get at 1. unfold bind at 1.
    destruct (parseFactor n (step p)); exact I.
Qed.

Lemma parseTerm_idle n p : standsOn t p -> idle t (parseTerm n p).
Proof.
  intros H. destruct n as [|n]; [exact I|]. cbn [parseTerm]. unfold bind.
  pose proof (parseFactor_idle n p H) as Hf.
  destruct (parseFactor n p) as [a p'| |]; try exact I.
  destruct Hf as [-> H']. apply parseTerm_loop_idle, H'.
Qed.

Lemma parseComparison_loop_idle n p :
  standsOn t p -> idle t (parseComparison_loop n None p).
Proof.
  intros H. destruct n as [|n]; [exact I|]. cbn [parseComparison_loop]. unfold bind at 1.
  destruct (match_cases comparisonOps p) as [-> | ->]; cbn [negb].
  - cbn [ret idle]. auto.
  - unfold bind at 1, get at 1. unfold bind at 1.
    destruct (parseTerm n (step p)); exact I.
Qed.

Lemma parseExpression_idle n p : standsOn t p -> idle t (parseExpression n p).
Proof.
  intros H. destruct n as [|n]; [exact I|]. cbn [parseExpression].
  destruct n as [|n]; [exact I|]. cbn [parseComparison]. unfold bind.
  pose proof (parseTerm_idle n p H) as Hf.
  destruct (parseTerm n p) as [a p'| |]; try exact I.
  destruct Hf as [-> H']. apply parseComparison_loop_idle, H'.
Qed.

Lemma parseExpressionStatement_idle n p :
  standsOn t p -> idle t (parseExpressionStatement n p).
Proof.
  intros H. destruct n as [|n]; [exact I|]. cbn [parseExpressionStatement]. unfold bind.
  pose proof (parseExpression_idle n p H) as Hf.
  destruct (parseExpression n p) as [a p'| |]; try exact I.
  destruct Hf as [-> H']. cbn [ret idle]. auto.
Qed.

Lemma parseStatement_idle n p : standsOn t p -> idle t (parseStatement n p).
Proof.
  intros H. destruct not_starter as (Hdef & Hif & _ & _ & _ & Hid).
  destruct n as [|n]; [exact I|]. cbn [parseStatement]. unfold bind at 1.
  rewrite (match_one_false "def" p H Hdef). unfold bind at 1.
  rewrite (match_one_false "if" p H Hif). unfold bind at 1, get at 1.
  destruct (check "print" p); [apply parseExpressionStatement_idle, H|].
  unfold bind at 1, get at 1.
  rewrite (standsOn_checkType p IDENTIFIER H), bool_decide_eq_false_2 by exact Hid.
  apply parseExpressionStatement_idle, H.
Qed.

(** The loop of [parseProgram] on such a token: the statement comes back
    nil with the parser where it was, and the loop asks again. *)
Lemma parseProgram_loop_spins n : forall children p,
  standsOn t p ->
  parseProgram_loop n children p = Panic \/ parseProgram_loop n children p = Timeout.
Proof.
  induction n as [|n IH]; intros children p H; [right; reflexivity|].
  cbn [parseProgram_loop]. unfold bind, get.
  rewrite (standsOn_notEnd p H).
  pose proof (parseStatement_idle n p H) as Hs.
  destruct (parseStatement n p) as [a p'| |]; [|left; reflexivity|right; reflexivity].
  destruct Hs as [-> H']. apply IH, H'.
Qed.

End NonStarter.

(** A token list whose first token starts no statement gets no answer:
    the statement comes back nil with the token still there,
    [parseProgram] asks again and never stops, unless the token is an
    operator, on which the nil left operand is dereferenced. Reserved
    words other than [def] and [if], [print] among them, symbols other
    than the opening parenthesis and Error tokens are all of this kind. *)
Theorem first_token_must_start_a_statement
    (fuel : nat) (t : Token) (rest : list Token) :
  startsStatement t = false ->
  Type_ t <> WHITESPACE -> Type_ t <> NEWLINE ->
  Parser.Analyze fuel (t :: rest) = Panicked
  \/ Parser.Analyze fuel (t :: rest) = OutOfFuel.
Proof.
  intros Hs Hw Hn. unfold Parser.Analyze, parseProgram, bind.
  assert (H : standsOn t (newParser (t :: rest))).
  { unfold standsOn, newParser, filterTokens. cbn [tokens current].
    rewrite filter_cons_True by auto. reflexivity. }
  destruct (parseProgram_loop_spins t Hs fuel [] _ H) as [-> | ->]; auto.
Qed.

Lemma first_token_must_start_a_statement_witness :
  Parser.Analyze 50 (Tokens (Lexer.Analyze "print(1)")) = Panicked
  \/ Parser.Analyze 50 (Tokens (Lexer.Analyze "print(1)")) = OutOfFuel.
Proof.
  change (Tokens (Lexer.Analyze "print(1)"))
    with (mkToken KEYWORD "print" 1 1
          :: [mkToken SYMBOL "(" 1 6; mkToken NUMBER "1" 1 7; mkToken SYMBOL ")" 1 8]).
  apply first_token_must_start_a_statement; [reflexivity | discriminate | discriminate].
Defined.

End ParserInvariants.

(** ** The semantic checker *)

Module SemanticoFacts.

Import Parser Semantico Spec SemanticoSpec.

(** [analyzeNode], one level unfolded. *)
Lemma analyzeNode_unfold ty value line children sa :
  analyzeNode (Some (Node ty value line children)) sa =
  let node := Node ty value line children in
  if decide (ty = "Assignment") then analyzeAssignment analyzeNode node sa
  else if decide (ty = "IfStatement") then analyzeIfStatement analyzeNode node sa
  else if decide (ty = "BinaryOp") then analyzeBinaryOperation analyzeNode node sa
  else if bool_decide (ty = "FunctionCall") || bool_decide (ty = "MethodCall")
  then analyzeFunctionCall analyzeNode node sa
  else analyzeChildren analyzeNode children sa.
Proof. reflexivity. Qed.

(** The dedicated analysis of a condition is the ordinary analysis of the
    node: a [BinaryOp] goes to [analyzeBinaryOperation] either way. *)
Lemma analyzeCondition_analyzeNode condition sa :
  analyzeCondition analyzeNode condition sa = analyzeNode condition sa.
Proof.
  destruct condition as [[ty value line children]|]; [|reflexivity].
  unfold analyzeCondition. cbn [NodeType].
  destruct (decide (ty = "BinaryOp")) as [->|]; reflexivity.
Qed.

(** *** Steps that only append diagnostics *)
Lemma appends_id : appends (fun sa => sa).
Proof. intros vars toks. exists []. intros. rewrite app_nil_r. reflexivity. Qed.

Lemma appends_addError line message : appends (addError line message).
Proof. intros vars toks. eexists. intros. reflexivity. Qed.

Lemma appends_comp f g : appends f -> appends g -> appends (fun sa => g (f sa)).
Proof.
  intros Hf Hg vars toks. destruct (Hf vars toks) as [E1 H1].
  destruct (Hg vars toks) as [E2 H2]. exists (E1 ++ E2)%list. intros errs.
  rewrite H1, H2, app_assoc. reflexivity.
Qed.

Lemma appends_ext f g : (forall sa, f sa = g sa) -> appends g -> appends f.
Proof.
  intros He Hg vars toks. destruct (Hg vars toks) as [E H]. exists E.
  intros. rewrite He. apply H.
Qed.

(** A step chosen by looking at the variable table only. *)
Lemma appends_by_vars (f : SemanticAnalyzer -> SemanticAnalyzer) :
  (forall vars toks, exists g, appends g /\
     forall errs, f (mkAnalyzer vars errs toks) = g (mkAnalyzer vars errs toks)) ->
  appends f.
Proof.
  intros H vars toks. destruct (H vars toks) as (g & Hg & He).
  destruct (Hg vars toks) as [E HE]. exists E. intros. rewrite He. apply HE.
Qed.

Section Visit.

Variable visit : option ASTNode -> SemanticAnalyzer -> SemanticAnalyzer.

Lemma appends_analyzeChildren children :
  Forall (fun c => appends (visit c)) children ->
  appends (analyzeChildren visit children).
Proof.
  unfold analyzeChildren. induction 1 as [|c l Hc Hl IH]; simpl.
  - apply appends_id.
  - apply (appends_comp (visit c) _ Hc IH).
Qed.

Lemma appends_analyzeBinaryOperation node :
  Forall (fun c => appends (visit c)) (Children node) ->
  appends (analyzeBinaryOperation visit node).
Proof.
  intros Hch. unfold analyzeBinaryOperation.
  destruct (Children node) as [|leftNode [|rightNode rest]];
    try apply appends_addError.
  inversion Hch as [|? ? Hl Hch']; subst. inversion Hch' as [|? ? Hr _]; subst.
  apply appends_by_vars. intros vars toks.
  destruct (compareError (NodeValue node)
              (inferTypeOf (mkAnalyzer vars [] toks) leftNode)
              (inferTypeOf (mkAnalyzer vars [] toks) rightNode)) as [message|] eqn:Hce.
  - exists (fun sa => visit rightNode (visit leftNode (addError (NodeLine node) message sa))).
    split.
    + apply appends_comp; [|exact Hr]. apply appends_comp; [|exact Hl].
      apply appends_addError.
    + intros errs. unfold inferTypeOf in *. cbn [variables] in *. rewrite Hce. reflexivity.
  - exists (fun sa => visit rightNode (visit leftNode sa)). split.
    + apply appends_comp; assumption.
    + intros errs. unfold inferTypeOf in *. cbn [variables] in *. rewrite Hce. reflexivity.
Qed.

Lemma appends_analyzeFunctionCall node :
  Forall (fun c => appends (visit c)) (Children node) ->
  appends (analyzeFunctionCall visit node).
Proof.
  intros Hch. pose proof (appends_analyzeChildren _ Hch) as Hall.
  unfold analyzeFunctionCall.
  apply (appends_comp _ (analyzeChildren visit (Children node))); [|exact Hall].
  destruct (Str.contains (NodeValue node) ".").
  - destruct (Str.split (NodeValue node) Lexer.dot) as [|objectName [|methodName [|? ?]]];
      try apply appends_id.
    apply appends_by_vars. intros vars toks.
    destruct (methodError (mkAnalyzer vars [] toks) objectName methodName)
      as [message|] eqn:Hme.
    + exists (addError (NodeLine node) message). split; [apply appends_addError|].
      intros errs. unfold methodError in *. cbn [variables] in *. rewrite Hme. reflexivity.
    + exists (fun sa => sa). split; [apply appends_id|].
      intros errs. unfold methodError in *. cbn [variables] in *. rewrite Hme. reflexivity.
  - destruct (decide (NodeValue node = "print")); [exact Hall | apply appends_id].
Qed.

End Visit.

Lemma appends_analyzeIfStatement node :
  Forall (fun c => appends (analyzeNode c)) (Children node) ->
  appends (analyzeIfStatement analyzeNode node).
Proof.
  intros Hch. unfold analyzeIfStatement.
  destruct (Children node) as [|condition rest] eqn:Hc; [apply appends_addError|].
  apply (appends_comp (analyzeCondition analyzeNode condition)
           (analyzeChildren analyzeNode (condition :: rest))).
  - eapply appends_ext; [apply analyzeCondition_analyzeNode|].
    inversion Hch; assumption.
  - apply appends_analyzeChildren, Hch.
Qed.

(** The analysis of a tree without assignments only appends diagnostics. *)
Lemma appends_analyzeNode (n : ASTNode) :
  noAssign n = true -> appends (analyzeNode (Some n)).
Proof.
  induction n as [ty value line children IH] using ASTNode_nested_ind.
  cbn [noAssign]. intros Hn. apply andb_true_iff in Hn as [Hty Hch].
  apply negb_true_iff, bool_decide_eq_false in Hty.
  assert (Hall : Forall (fun c => appends (analyzeNode c)) children).
  { rewrite forallb_forall in Hch. rewrite Forall_forall in IH |- *.
    intros [c|] Hin; [|apply appends_id].
    apply (IH _ Hin). apply (Hch (Some c)). apply list_elem_of_In, Hin. }
  eapply appends_ext; [intros sa; apply analyzeNode_unfold|]. cbv zeta.
  destruct (decide (ty = "Assignment")); [contradiction|].
  destruct (decide (ty = "IfStatement")); [apply appends_analyzeIfStatement, Hall|].
  destruct (decide (ty = "BinaryOp")); [apply appends_analyzeBinaryOperation, Hall|].
  destruct (_ || _); [apply appends_analyzeFunctionCall, Hall|].
  apply appends_analyzeChildren, Hall.
Qed.

Lemma appends_analyzeNodeO (o : option ASTNode) :
  noAssignO o = true -> appends (analyzeNode o).
Proof. destruct o; [apply appends_analyzeNode | intros _; apply appends_id]. Qed.

(** What such an analysis does to any analyzer. *)
Lemma analyzeNode_appends (o : option ASTNode) (sa : SemanticAnalyzer) :
  noAssignO o = true ->
  analyzeNode o sa
  = mkAnalyzer (variables sa) (errors sa ++ diagnosticsOf o sa)%list (tokens sa).
Proof.
  intros Hn. destruct (appends_analyzeNodeO o Hn (variables sa) (tokens sa)) as [E HE].
  unfold diagnosticsOf. rewrite (HE []). cbn [errors app].
  destruct sa as [vars errs toks]. apply HE.
Qed.

(** *** The condition of an if-statement *)

(** C10. For every if-statement node with at least one child the
    condition is analysed twice: by [analyzeCondition], then once more as
    the first child in the loop over the children. When the condition is
    a tree without assignments, as every condition the parser builds is,
    both passes meet the same variable table, and the diagnostics [D] of
    the condition stand in the list twice. *)
Theorem condition_is_analyzed_twice
    (node : ASTNode) (condition : option ASTNode)
    (rest : list (option ASTNode)) (sa : SemanticAnalyzer) :
  NodeType node = "IfStatement" ->
  Children node = condition :: rest ->
  analyzeNode (Some node) sa
  = analyzeChildren analyzeNode rest (analyzeNode condition (analyzeNode condition sa))
  /\ (noAssignO condition = true ->
      let D := diagnosticsOf condition sa in
      errors (analyzeNode condition sa) = (errors sa ++ D)%list
      /\ analyzeNode condition (analyzeNode condition sa)
         = mkAnalyzer (variables sa) (errors sa ++ D ++ D)%list (tokens sa)).
Proof.
  intros Hty Hch. split.
  - destruct node as [ty value line children]. cbn [NodeType Children] in *.
    subst ty children. rewrite analyzeNode_unfold. cbv zeta.
    change (analyzeIfStatement analyzeNode
              (Node "IfStatement" value line (condition :: rest)) sa
            = analyzeChildren analyzeNode rest
                (analyzeNode condition (analyzeNode condition sa))).
    unfold analyzeIfStatement. cbn [Children].
    rewrite analyzeCondition_analyzeNode. reflexivity.
  - intros Hn D. split.
    { rewrite analyzeNode_appends by exact Hn. reflexivity. }
    rewrite (analyzeNode_appends condition sa Hn). fold D.
    rewrite analyzeNode_appends by exact Hn. cbn [variables errors tokens].
    unfold diagnosticsOf at 1. cbn [variables tokens]. fold (diagnosticsOf condition sa).
    fold D. rewrite <- app_assoc. reflexivity.
Qed.

(** With [x] an integer, the condition [x > 'a'] of an if-statement. *)
Lemma condition_is_analyzed_twice_witness :
  let condition := Some (Node "BinaryOp" ">" 2
                     [Some (Node "Identifier" "x" 2 []);
                      Some (Node "String" "'a'" 2 [])]) in
  let node := Node "IfStatement" EmptyString 2
                [condition; Some (Node "Block" EmptyString 3 [])] in
  let sa := mkAnalyzer {["x" := mkVariable "x" IntType 1]} [] [] in
  let message :=
    "Error semántico en línea 2: No se puede comparar número con string usando '>'" in
  diagnosticsOf condition sa = [message]
  /\ errors (analyzeNode (Some node) sa) = [message; message].
Proof.
  intros condition node sa message.
  assert (HD : diagnosticsOf condition sa = [message]) by (vm_compute; reflexivity).
  split; [exact HD|].
  destruct (condition_is_analyzed_twice node condition
              [Some (Node "Block" EmptyString 3 [])] sa) as [H1 H2];
    [reflexivity | reflexivity |].
  destruct (H2 eq_refl) as [_ H3]. rewrite H1, H3, HD. reflexivity.
Defined.

(** The same through the whole pipeline: one relational mismatch in the
    source, two diagnostics in the report. *)
Lemma condition_diagnostic_is_doubled :
  exists response,
    analyzeCode 20 ("x = 5" ++ lf ++ "if x > 'a':" ++ lf ++ "  y = 1")
    = Parser.Done response
    /\ Semantico.Errors (SemanticAnalysis response)
       = ["Error semántico en línea 2: No se puede comparar número con string usando '>'";
          "Error semántico en línea 2: No se puede comparar número con string usando '>'"].
Proof. eexists. split; vm_compute; reflexivity. Qed.

(** *** Assignments *)

(** C5. An assignment with a value overwrites the entry of its name with
    the type inferred for the value and the line of the assignment,
    whatever entry was there, and touches no other entry; the only
    diagnostics it adds are those of the value expression, a tree without
    assignments as every value the parser builds is. On the example the table ends with the single
    entry [x : String], of line 2, and every diagnostic list is empty. *)
Theorem assignment_last_write_wins :
  (forall (node : ASTNode) (value : option ASTNode)
          (rest : list (option ASTNode)) (sa : SemanticAnalyzer),
      NodeType node = "Assignment" ->
      Children node = value :: rest ->
      noAssignO value = true ->
      let name := NodeValue node in
      let entry := mkVariable name (inferTypeOf sa value) (NodeLine node) in
      let sa' := analyzeNode (Some node) sa in
      variables sa' = <[name := entry]> (variables sa)
      /\ variables sa' !! name = Some entry
      /\ errors sa' = (errors sa ++ diagnosticsOf value (setVariable name entry sa))%list)
  /\ (exists response,
        analyzeCode 20 reassignment = Parser.Done response
        /\ Semantico.Variables (SemanticAnalysis response)
           = {["x" := mkVariable "x" StringType 2]}
        /\ Semantico.Errors (SemanticAnalysis response) = []
        /\ Parser.Errors (SyntaxAnalysis response) = []
        /\ Lexer.Errors (LexicalAnalysis response) = []).
Proof.
  split.
  - intros node value rest sa Hty Hch Hn name entry sa'.
    assert (Hsa' : sa' = analyzeNode value (setVariable name entry sa)).
    { subst sa'. destruct node as [ty v line children].
      cbn [NodeType Children] in *. subst ty children.
      rewrite analyzeNode_unfold. reflexivity. }
    rewrite Hsa', analyzeNode_appends by exact Hn. cbn [variables errors setVariable].
    repeat split. apply lookup_insert_eq.
  - eexists. split; [vm_compute; reflexivity|].
    repeat split; vm_compute; reflexivity.
Qed.

(** The second assignment of the example, met with [x : Int] in the
    table. *)
Lemma assignment_last_write_wins_witness :
  let node := Node "Assignment" "x" 2 [Some (Node "String" "'a'" 2 [])] in
  let sa := mkAnalyzer {["x" := mkVariable "x" IntType 1]} [] [] in
  variables (analyzeNode (Some node) sa) !! "x" = Some (mkVariable "x" StringType 2).
Proof.
  intros node sa.
  destruct (proj1 assignment_last_write_wins node
              (Some (Node "String" "'a'" 2 [])) [] sa) as (_ & H & _);
    [reflexivity | reflexivity | reflexivity |].
  exact H.
Defined.

(** *** Method calls *)

Lemma append_nil (b : string) : EmptyString ++ b = b.
Proof. reflexivity. Qed.

Lemma append_cons (x : ascii) (a b : string) : String x a ++ b = String x (a ++ b).
Proof. reflexivity. Qed.

Lemma append_assoc (a b c : string) : (a ++ b) ++ c = a ++ b ++ c.
Proof.
  induction a as [|x a IH]; [reflexivity|]. rewrite !append_cons. congruence.
Qed.

Lemma append_empty_r (a : string) : a ++ EmptyString = a.
Proof. induction a as [|x a IH]; [reflexivity|]. rewrite append_cons. congruence. Qed.

Lemma contains_dotted (a b : string) : Str.contains (a ++ "." ++ b) "." = true.
Proof.
  induction a as [|x a IH]; [reflexivity|].
  rewrite append_cons. cbn [Str.contains]. rewrite IH. apply orb_true_r.
Qed.

Lemma split_go_dotFree (s cur : string) :
  dotFree s = true -> Str.split_go Lexer.dot cur s = [cur ++ s].
Proof.
  revert cur; induction s as [|x s IH]; intros cur Hs; cbn [dotFree Str.split_go] in *.
  - rewrite append_empty_r. reflexivity.
  - apply andb_true_iff in Hs as [Hx Hs].
    apply negb_true_iff, bool_decide_eq_false in Hx.
    destruct (decide (x = Lexer.dot)); [contradiction|].
    rewrite IH by exact Hs. unfold Str.of_byte. rewrite append_assoc. reflexivity.
Qed.

Lemma split_dotted (a b cur : string) :
  dotFree a = true -> dotFree b = true ->
  Str.split_go Lexer.dot cur (a ++ "." ++ b) = [cur ++ a; b].
Proof.
  revert cur; induction a as [|x a IH]; intros cur Ha Hb.
  - rewrite append_nil, append_cons. cbn [Str.split_go].
    destruct (decide (Lexer.dot = Lexer.dot)); [|contradiction].
    rewrite split_go_dotFree by exact Hb. rewrite append_empty_r. reflexivity.
  - cbn [dotFree] in Ha. apply andb_true_iff in Ha as [Hx Ha].
    apply negb_true_iff, bool_decide_eq_false in Hx.
    rewrite append_cons. cbn [Str.split_go].
    destruct (decide (x = Lexer.dot)); [contradiction|].
    rewrite IH by assumption. unfold Str.of_byte. rewrite append_assoc. reflexivity.
Qed.

(** C4. For a method-call node named [objectName.methodName]: when the
    object is not in the variable table the check adds the diagnostic
    that the variable is not defined; when it is, the check adds the
    diagnostic naming the variable exactly when the method is [lower] and
    the type of the object is not String, and nothing otherwise. The
    arguments are analysed afterwards. *)
Theorem method_call_check
    (node : ASTNode) (objectName methodName : string) (sa : SemanticAnalyzer) :
  NodeType node = "MethodCall" ->
  NodeValue node = objectName ++ "." ++ methodName ->
  dotFree objectName = true -> dotFree methodName = true ->
  analyzeNode (Some node) sa
  = analyzeChildren analyzeNode (Children node)
      match variables sa !! objectName with
      | None =>
          addError (NodeLine node)
            ("Variable '" ++ objectName ++ "' no está definida") sa
      | Some variable =>
          if decide (methodName = "lower" /\ Type_ variable <> StringType)
          then addError (NodeLine node)
                 ("El método 'lower()' no está disponible para el tipo de '"
                  ++ objectName ++ "'") sa
          else sa
      end.
Proof.
  intros Hty Hv Ho Hm. destruct node as [ty value line children].
  cbn [NodeType NodeValue NodeLine Children] in *. subst ty value.
  rewrite analyzeNode_unfold. cbv zeta.
  change (analyzeFunctionCall analyzeNode
            (Node "MethodCall" (objectName ++ "." ++ methodName) line children) sa = 
          analyzeChildren analyzeNode children
            match variables sa !! objectName with
            | None => addError line ("Variable '" ++ objectName ++ "' no está definida") sa
            | Some variable =>
                if decide (methodName = "lower" /\ Type_ variable <> StringType)
                then addError line
                       ("El método 'lower()' no está disponible para el tipo de '"
                        ++ objectName ++ "'") sa
                else sa
            end).
  unfold analyzeFunctionCall. cbn [NodeValue NodeLine Children].
  rewrite contains_dotted. unfold Str.split.
  rewrite split_dotted by assumption. rewrite append_nil.
  f_equal. unfold methodError.
  destruct (variables sa !! objectName) as [variable|]; [|reflexivity].
  destruct (decide (Type_ variable = StringType)) as [Hs|Hs],
           (decide (methodName = "lower")) as [Hl|Hl].
  - rewrite !bool_decide_eq_true_2 by assumption. cbn [andb].
    destruct (decide _) as [[_ H]|]; [contradiction|reflexivity].
  - rewrite (bool_decide_eq_false_2 (methodName = "lower")) by assumption.
    rewrite !andb_false_r.
    destruct (decide _) as [[H _]|]; [contradiction|reflexivity].
  - rewrite (bool_decide_eq_false_2 (Type_ variable = StringType)) by assumption.
    rewrite bool_decide_eq_true_2 by assumption. cbn [andb negb].
    destruct (decide _) as [|H]; [reflexivity|]. exfalso. apply H. auto.
  - rewrite (bool_decide_eq_false_2 (methodName = "lower")) by assumption.
    rewrite !andb_false_r.
    destruct (decide _) as [[H _]|]; [contradiction|reflexivity].
Qed.

(** [x.lower()] with [x] an integer. *)
Lemma method_call_check_witness :
  let node := Node "MethodCall" "x.lower" 2 [] in
  let sa := mkAnalyzer {["x" := mkVariable "x" IntType 1]} [] [] in
  errors (analyzeNode (Some node) sa)
  = ["Error semántico en línea 2: El método 'lower()' no está disponible para el tipo de 'x'"].
Proof.
  intros node sa.
  rewrite (method_call_check node "x" "lower" sa);
    [reflexivity | reflexivity | reflexivity | reflexivity | reflexivity].
Defined.

(** The two inputs of the method example, through the whole pipeline. *)
Lemma method_call_examples :
  (exists response,
     analyzeCode 20 ("x = 5" ++ lf ++ "x.lower()") = Parser.Done response
     /\ Semantico.Errors (SemanticAnalysis response)
        = ["Error semántico en línea 2: El método 'lower()' no está disponible para el tipo de 'x'"])
  /\ (exists response,
        analyzeCode 20 ("x = 'hi'" ++ lf ++ "x.lower()") = Parser.Done response
        /\ Semantico.Errors (SemanticAnalysis response) = []).
Proof. split; eexists; split; vm_compute; reflexivity. Qed.

End SemanticoFacts.

(** ** What the checker keeps on every tree *)

Module SemanticoInvariants.

Import Parser Semantico Spec SemanticoSpec SemanticoFacts.

Lemma assigned_child ty value l children c name line :
  Some c ∈ children -> assigned c name line ->
  assigned (Node ty value l children) name line.
Proof.
  intros Hin Hc. cbn [assigned]. right.
  induction children as [|o cs IH]; [inversion Hin|].
  apply elem_of_cons in Hin as [<-|Hin]; [left; exact Hc|right; apply IH, Hin].
Qed.

Section Preserves.

Variable A : string -> Z -> Prop.

Lemma preserves_id : preserves A (fun sa => sa).
Proof. intros sa H. exact H. Qed.

Lemma preserves_comp f g :
  preserves A f -> preserves A g -> preserves A (fun sa => g (f sa)).
Proof. intros Hf Hg sa H. apply Hg, Hf, H. Qed.

Lemma preserves_addError line message : preserves A (addError line message).
Proof.
  intros sa [Hv He]. split; [exact Hv|]. cbn [addError Semantico.errors].
  apply Forall_app. split; [exact He|]. constructor; [|constructor].
  exists line, message. reflexivity.
Qed.

Lemma preserves_setVariable name ty line :
  A name line -> preserves A (setVariable name (mkVariable name ty line)).
Proof.
  intros HA sa [Hv He]. split; [|exact He]. cbn [setVariable variables].
  intros k v Hl. destruct (decide (k = name)) as [->|Hne].
  - rewrite lookup_insert_eq in Hl. injection Hl as <-. split; [reflexivity|exact HA].
  - rewrite lookup_insert_ne in Hl by congruence. apply Hv, Hl.
Qed.

Variable visit : option ASTNode -> SemanticAnalyzer -> SemanticAnalyzer.

Lemma preserves_analyzeChildren children :
  Forall (fun c => preserves A (visit c)) children ->
  preserves A (analyzeChildren visit children).
Proof.
  unfold analyzeChildren. induction 1 as [|c l Hc Hl IH]; simpl.
  - apply preserves_id.
  - apply (preserves_comp (visit c) _ Hc IH).
Qed.

Lemma preserves_analyzeAssignment node :
  (Children node <> [] -> A (NodeValue node) (NodeLine node)) ->
  Forall (fun c => preserves A (visit c)) (Children node) ->
  preserves A (analyzeAssignment visit node).
Proof.
  intros HA Hch. unfold analyzeAssignment.
  destruct (Children node) as [|valueNode rest]; [apply preserves_addError|].
  intros sa H. apply List.Forall_inv in Hch. apply Hch.
  apply preserves_setVariable; [apply HA; discriminate|exact H].
Qed.

Lemma preserves_analyzeBinaryOperation node :
  Forall (fun c => preserves A (visit c)) (Children node) ->
  preserves A (analyzeBinaryOperation visit node).
Proof.
  intros Hch. unfold analyzeBinaryOperation.
  destruct (Children node) as [|leftNode [|rightNode rest]];
    try apply preserves_addError.
  inversion Hch as [|? ? Hl Hch']; subst. inversion Hch' as [|? ? Hr _]; subst.
  intros sa H. apply Hr, Hl.
  destruct (compareError _ _ _); [apply preserves_addError|]; exact H.
Qed.

Lemma preserves_analyzeCondition condition :
  preserves A (visit condition) ->
  (forall n, condition = Some n ->
     Forall (fun c => preserves A (visit c)) (Children n)) ->
  preserves A (analyzeCondition visit condition).
Proof.
  intros Hv Hch. unfold analyzeCondition. destruct condition as [n|]; [|apply preserves_id].
  destruct (decide (NodeType n = "BinaryOp")); [|exact Hv].
  apply preserves_analyzeBinaryOperation, Hch. reflexivity.
Qed.

Lemma preserves_analyzeFunctionCall node :
  Forall (fun c => preserves A (visit c)) (Children node) ->
  preserves A (analyzeFunctionCall visit node).
Proof.
  intros Hch. pose proof (preserves_analyzeChildren _ Hch) as Hall.
  unfold analyzeFunctionCall. intros sa H. apply Hall.
  destruct (Str.contains (NodeValue node) ".").
  - destruct (Str.split (NodeValue node) Lexer.dot) as [|objectName [|methodName [|? ?]]];
      try exact H.
    destruct (methodError sa objectName methodName); [apply preserves_addError|]; exact H.
  - destruct (decide (NodeValue node = "print")); [apply Hall|]; exact H.
Qed.

End Preserves.

Lemma preserves_analyzeNode (n : ASTNode) : forall A,
  (forall name line, assigned n name line -> A name line) ->
  preserves A (analyzeNode (Some n)).
Proof.
  induction n as [ty value line children IH] using ASTNode_nested_ind.
  intros A HA.
  assert (Hall : Forall (fun c => preserves A (analyzeNode c)) children).
  { rewrite Forall_forall in IH |- *.
    intros [c|] Hin; [|apply preserves_id].
    apply (IH _ Hin). intros name l Hc. apply HA. eapply assigned_child; eassumption. }
  intros sa H. rewrite analyzeNode_unfold. cbv zeta.
  destruct (decide (ty = "Assignment")) as [Hty|].
  { apply preserves_analyzeAssignment; [|exact Hall|exact H].
    cbn [Children NodeValue NodeLine]. intros Hne. apply HA. cbn [assigned]. left. auto. }
  destruct (decide (ty = "IfStatement")).
  { unfold analyzeIfStatement. cbn [Children NodeLine].
    destruct children as [|condition rest] eqn:Hc; [apply preserves_addError, H|].
    apply preserves_analyzeChildren; [exact Hall|].
    rewrite analyzeCondition_analyzeNode.
    apply List.Forall_inv in Hall. apply Hall, H. }
  destruct (decide (ty = "BinaryOp")); [apply preserves_analyzeBinaryOperation; assumption|].
  destruct (_ || _); [apply preserves_analyzeFunctionCall; assumption|].
  apply preserves_analyzeChildren; assumption.
Qed.

(** Whatever tree is analyzed, every entry of the resulting variable
    table stands under the name it carries and has the line of an
    assignment node of the tree with that name and a value; and every
    diagnostic has the form [addError] writes. *)
Theorem variables_come_from_assignments
    (toks : list Lexer.Token) (ast : option ASTNode) :
  (forall k v,
     Variables (Semantico.Analyze toks ast) !! k = Some v ->
     Name v = k /\ assignedO ast k (Line v))
  /\ Forall semanticDiagnostic (Semantico.Errors (Semantico.Analyze toks ast)).
Proof.
  unfold Semantico.Analyze. cbn [Variables Semantico.Errors].
  assert (H0 : tableFrom (assignedO ast) (mkAnalyzer ∅ [] toks)).
  { split; [|constructor]. intros k v Hl. cbn [variables] in Hl.
    rewrite lookup_empty in Hl. discriminate. }
  destruct ast as [n|]; [|exact H0].
  exact (preserves_analyzeNode n (assignedO (Some n)) (fun _ _ H => H) _ H0).
Qed.

Lemma variables_come_from_assignments_witness :
  Name (mkVariable "x" StringType 2) = "x"
  /\ assignedO
       (Some (Node "Program" EmptyString 1
          [Some (Node "Assignment" "x" 1 [Some (Node "Number" "5" 1 [])]);
           Some (Node "Assignment" "x" 2 [Some (Node "String" "'a'" 2 [])])]))
       "x" (Line (mkVariable "x" StringType 2)).
Proof.
  apply (proj1 (variables_come_from_assignments [] _) "x" (mkVariable "x" StringType 2)).
  vm_compute. reflexivity.
Defined.

End SemanticoInvariants.

(** ** The handler *)

Module PipelineFacts.

Import Spec ParserSpec ParserFacts.

Lemma analyzeCode_Done fuel code response :
  analyzeCode fuel code = Parser.Done response ->
  exists syntaxResult,
    Parser.Analyze fuel (Lexer.Tokens (Lexer.Analyze code)) = Parser.Done syntaxResult
    /\ LexicalAnalysis response = Lexer.Analyze code
    /\ SyntaxAnalysis response = syntaxResult
    /\ SemanticAnalysis response
       = Semantico.Analyze (Lexer.Tokens (Lexer.Analyze code)) (Parser.AST syntaxResult)
    /\ Success response
       = bool_decide (Parser.Errors syntaxResult = [])
         && bool_decide (Semantico.Errors (SemanticAnalysis response) = []).
Proof.
  unfold analyzeCode.
  destruct (Parser.Analyze fuel (Lexer.Tokens (Lexer.Analyze code)))
    as [syntaxResult| |]; try discriminate.
  intros [= <-]. exists syntaxResult. repeat split.
Qed.

(** An unrecognized character at top level: the Error token reaches
    [parseProgram], which never gets past it. *)
Lemma unrecognized_character_at_top_level (fuel : nat) :
  analyzeCode fuel "`" = Parser.OutOfFuel.
Proof.
  unfold analyzeCode.
  assert (H : Parser.Analyze fuel (Lexer.Tokens (Lexer.Analyze "`")) = Parser.OutOfFuel).
  { unfold Parser.Analyze, Parser.parseProgram, Parser.bind.
    assert (Hl : forall n children errs,
              Parser.parseProgram_loop n children
                (Parser.mkParser [Lexer.mkToken Lexer.ERROR "`" 1 1] 0 errs 0)
              = Parser.Timeout).
    { induction n as [|n IH]; intros children errs; [reflexivity|].
      assert (Hs : Parser.parseStatement n
                     (Parser.mkParser [Lexer.mkToken Lexer.ERROR "`" 1 1] 0 errs 0)
                   = Parser.Timeout
                   \/ Parser.parseStatement n
                        (Parser.mkParser [Lexer.mkToken Lexer.ERROR "`" 1 1] 0 errs 0)
                      = Parser.Ret None
                          (Parser.mkParser [Lexer.mkToken Lexer.ERROR "`" 1 1] 0
                             (errs ++ [expectedExpression])%list 0)).
      { clear IH. do 6 (destruct n as [|n]; [left; reflexivity|]). right. reflexivity. }
      cbn [Parser.parseProgram_loop]. unfold Parser.bind at 1.
      cbn [Parser.get Parser.isAtEnd].
      change (Parser.bind (Parser.parseStatement n)
                (fun stmt => match stmt with
                             | Some _ => Parser.parseProgram_loop n (children ++ [stmt])%list
                             | None => Parser.parseProgram_loop n children
                             end)
                (Parser.mkParser [Lexer.mkToken Lexer.ERROR "`" 1 1] 0 errs 0)
              = Parser.Timeout).
      unfold Parser.bind. destruct Hs as [->| ->]; [reflexivity|]. apply IH. }
    change (Parser.newParser (Lexer.Tokens (Lexer.Analyze "`")))
      with (Parser.mkParser [Lexer.mkToken Lexer.ERROR "`" 1 1] 0 [] 0).
    rewrite Hl. reflexivity. }
  rewrite H. reflexivity.
Qed.

(** A response with a lexical diagnostic has a syntax diagnostic too: the
    Error token is handed to the parser, which cannot consume it without
    recording one. The success flag of such a response is false. *)
Lemma lexical_diagnostic_reaches_the_parser
    (fuel : nat) (code : string) (response : AnalysisResponse) :
  analyzeCode fuel code = Parser.Done response ->
  Lexer.Errors (LexicalAnalysis response) <> [] ->
  Parser.Errors (SyntaxAnalysis response) <> [] /\ Success response = false.
Proof.
  intros H Hl. destruct (analyzeCode_Done _ _ _ H) as (sr & Hp & Hlex & Hs & _ & Hf).
  subst sr. rewrite Hlex in Hl.
  destruct (LexerFacts.Analyze_diagnostic_token code Hl) as (t & Hin & Hty).
  assert (He : Parser.Errors (SyntaxAnalysis response) <> []).
  { eapply Analyze_error_token; eauto. apply LexerFacts.Analyze_unmatched. }
  split; [exact He|]. rewrite Hf.
  rewrite (bool_decide_eq_false_2 _ He). reflexivity.
Qed.

(** C3. In every response the top-level success flag is the conjunction
    of "the syntax error list is empty" and "the semantic error list is
    empty"; the lexical error list is not read. A lexical diagnostic
    never stands alone, though: the unrecognized character is handed to
    the parser as an Error token, no production takes it, and the
    response has a syntax diagnostic and the flag unset. *)
Theorem lexical_diagnostic_unsets_success
    (fuel : nat) (code : string) (response : AnalysisResponse) :
  analyzeCode fuel code = Parser.Done response ->
  Success response
  = bool_decide (Parser.Errors (SyntaxAnalysis response) = [])
    && bool_decide (Semantico.Errors (SemanticAnalysis response) = [])
  /\ (Lexer.Errors (LexicalAnalysis response) <> [] ->
      Parser.Errors (SyntaxAnalysis response) <> []
      /\ Success response = false).
Proof.
  intros H. split.
  - destruct (analyzeCode_Done _ _ _ H) as (sr & _ & _ & Hs & _ & Hf).
    subst sr. exact Hf.
  - intros Hl. exact (lexical_diagnostic_reaches_the_parser _ _ _ H Hl).
Qed.

Lemma lexical_diagnostic_unsets_success_witness :
  exists response,
    analyzeCode 20 ("if x:" ++ lf ++ "  `") = Parser.Done response
    /\ Lexer.Errors (LexicalAnalysis response) <> []
    /\ Parser.Errors (SyntaxAnalysis response) <> []
    /\ Success response = false.
Proof.
  eexists. split; [vm_compute; reflexivity|].
  match goal with
  | |- ?l <> [] /\ _ => assert (Hl : l <> []) by (vm_compute; discriminate)
  end.
  split; [exact Hl|].
  eapply (proj2 (lexical_diagnostic_unsets_success 20 ("if x:" ++ lf ++ "  `") _ _)), Hl.
  Unshelve. vm_compute; reflexivity.
Defined.

(** The claim as it stands fails on a text whose one defect is an
    unrecognized character: the response has the lexical diagnostic, a
    syntax diagnostic for the same character, no semantic diagnostic, and
    the flag unset. *)
Lemma lexical_diagnostic_alone_is_not_a_success :
  exists response,
    analyzeCode 20 ("if x:" ++ lf ++ "  `") = Parser.Done response
    /\ Lexer.Errors (LexicalAnalysis response)
       = ["Carácter no reconocido '`' en línea 2, columna 3"]
    /\ Parser.Errors (SyntaxAnalysis response)
       = ["Error en línea 2: Se esperaba expresión"]
    /\ Semantico.Errors (SemanticAnalysis response) = []
    /\ Success response = false.
Proof.
  eexists. split; [vm_compute; reflexivity|].
  repeat split; vm_compute; reflexivity.
Qed.

(** Two runs of the handler on the same text that both answer give the
    same report, whatever fuel each was given. *)
Lemma analyzeCode_fuel_independent
    (fuel1 fuel2 : nat) (code : string) (r1 r2 : AnalysisResponse) :
  analyzeCode fuel1 code = Parser.Done r1 ->
  analyzeCode fuel2 code = Parser.Done r2 ->
  r1 = r2.
Proof.
  intros H1 H2.
  assert (He : Parser.Analyze fuel1 (Lexer.Tokens (Lexer.Analyze code))
               = Parser.Analyze fuel2 (Lexer.Tokens (Lexer.Analyze code))).
  { destruct (analyzeCode_Done _ _ _ H1) as (s1 & Hs1 & _).
    destruct (analyzeCode_Done _ _ _ H2) as (s2 & Hs2 & _).
    apply Analyze_fuel_independent; congruence. }
  unfold analyzeCode in H1, H2. rewrite He in H1. congruence.
Qed.

(** *** The store of package-level variables *)

Lemma processLine_loop_store fuel line lineNum i column r st :
  snd (Shared.processLine_loop fuel line lineNum i column r st) = st.
Proof.
  revert i column r.
  induction fuel as [|fuel IH]; intros i column r; [reflexivity|].
  cbn [Shared.processLine_loop].
  destruct (Str.at_ line i) as [char|]; [|reflexivity].
  destruct (Unicode.IsSpace char); [apply IH|].
  destruct (decide (char = Lexer.hash)); [reflexivity|].
  destruct (bool_decide (char = Lexer.dquote) || bool_decide (char = Lexer.squote)).
  { destruct (Lexer.processString _ _ _ _) as [token length]. apply IH. }
  destruct (Unicode.IsDigit char).
  { destruct (Lexer.processNumber _ _ _) as [token length]. apply IH. }
  destruct (Unicode.IsLetter char || bool_decide (char = Lexer.underscore)).
  { unfold Shared.processIdentifier. apply IH. }
  unfold Shared.processSymbol.
  destruct ((2 <=? Str.len (Str.from i line))%nat
            && Shared.inSymbols (Str.upto 2 (Str.from i line)) st); [apply IH|].
  destruct (Shared.inSymbols _ st); apply IH.
Qed.

Lemma processLines_store lines lineNum r st :
  snd (Shared.processLines lines lineNum r st) = st.
Proof.
  revert lineNum r. induction lines as [|line rest IH]; intros lineNum r; [reflexivity|].
  cbn [Shared.processLines]. unfold Shared.processLine.
  pose proof (processLine_loop_store (Str.len line) line (lineNum + 1) 0 1 r st) as H.
  destruct (Shared.processLine_loop _ _ _ _ _ _ _) as [r1 st1].
  cbn [snd] in H. subst st1. apply IH.
Qed.

Lemma Analyze_store code st : snd (Shared.Analyze code st) = st.
Proof.
  unfold Shared.Analyze.
  pose proof (processLines_store (Str.split code Lexer.linefeed) 0 Lexer.emptyResult st)
    as H.
  destruct (Shared.processLines _ _ _ _) as [r1 st1]. exact H.
Qed.

(** The handler leaves the two variables as it found them, whatever they
    hold. *)
Lemma analyzeCode_store fuel code st : snd (Shared.analyzeCode fuel code st) = st.
Proof.
  unfold Shared.analyzeCode. pose proof (Analyze_store code st) as H.
  destruct (Shared.Analyze code st) as [lexicalResult st1]. cbn [snd] in H. subst st1.
  destruct (Parser.Analyze fuel (Lexer.Tokens lexicalResult)); reflexivity.
Qed.

Lemma serve_store history st : Shared.serve history st = st.
Proof.
  unfold Shared.serve. revert st.
  induction history as [|request rest IH]; intros st; [reflexivity|].
  cbn [fold_left]. rewrite analyzeCode_store. apply IH.
Qed.

(** On the initial store the lexer is the function [Lexer.Analyze]. *)
Lemma processLine_loop_initial fuel line lineNum i column r :
  fst (Shared.processLine_loop fuel line lineNum i column r Shared.initial)
  = Lexer.processLine_loop fuel line lineNum i column r.
Proof.
  revert i column r.
  induction fuel as [|fuel IH]; intros i column r; [reflexivity|].
  rewrite LexerFacts.processLine_loop_S. cbn [Shared.processLine_loop].
  destruct (Str.at_ line i) as [char|]; [|reflexivity].
  destruct (Unicode.IsSpace char); [apply IH|].
  destruct (decide (char = Lexer.hash)); [reflexivity|].
  destruct (bool_decide (char = Lexer.dquote) || bool_decide (char = Lexer.squote)).
  { destruct (Lexer.processString _ _ _ _) as [token length]. apply IH. }
  destruct (Unicode.IsDigit char).
  { destruct (Lexer.processNumber _ _ _) as [token length]. apply IH. }
  destruct (Unicode.IsLetter char || bool_decide (char = Lexer.underscore)).
  { unfold Shared.processIdentifier, Lexer.processIdentifier. apply IH. }
  unfold Shared.processSymbol, Lexer.processSymbol.
  change (Shared.inSymbols ?x Shared.initial) with (Lexer.inSymbols x).
  destruct ((2 <=? Str.len (Str.from i line))%nat
            && Lexer.inSymbols (Str.upto 2 (Str.from i line))); [apply IH|].
  destruct (Lexer.inSymbols _); apply IH.
Qed.

Lemma processLines_initial lines lineNum r :
  fst (Shared.processLines lines lineNum r Shared.initial)
  = Lexer.processLines lines lineNum r.
Proof.
  revert lineNum r. induction lines as [|line rest IH]; intros lineNum r; [reflexivity|].
  cbn [Shared.processLines Lexer.processLines].
  unfold Shared.processLine, Lexer.processLine.
  pose proof (processLine_loop_store (Str.len line) line (lineNum + 1) 0 1 r
                Shared.initial) as Hs.
  pose proof (processLine_loop_initial (Str.len line) line (lineNum + 1) 0 1 r) as Hr.
  destruct (Shared.processLine_loop _ _ _ _ _ _ _) as [r1 st1].
  cbn [fst snd] in Hs, Hr. subst st1 r1. apply IH.
Qed.

Lemma Analyze_initial code :
  fst (Shared.Analyze code Shared.initial) = Lexer.Analyze code.
Proof.
  unfold Shared.Analyze, Lexer.Analyze.
  pose proof (processLines_initial (Str.split code Lexer.linefeed) 0 Lexer.emptyResult)
    as H.
  destruct (Shared.processLines _ _ _ _) as [r1 st1]. cbn [fst] in *. subst r1.
  reflexivity.
Qed.

(** On the initial store the handler is the function [analyzeCode]. *)
Lemma analyzeCode_initial fuel code :
  fst (Shared.analyzeCode fuel code Shared.initial) = analyzeCode fuel code.
Proof.
  unfold Shared.analyzeCode, analyzeCode.
  pose proof (Analyze_initial code) as H.
  destruct (Shared.Analyze code Shared.initial) as [lexicalResult st1].
  cbn [fst] in H. subst lexicalResult.
  destruct (Parser.Analyze fuel (Lexer.Tokens (Lexer.Analyze code))); reflexivity.
Qed.

Lemma shared_fuel_independent fuel1 fuel2 code st r1 r2 :
  fst (Shared.analyzeCode fuel1 code st) = Parser.Done r1 ->
  fst (Shared.analyzeCode fuel2 code st) = Parser.Done r2 ->
  r1 = r2.
Proof.
  unfold Shared.analyzeCode.
  destruct (Shared.Analyze code st) as [lexicalResult st1].
  destruct (Parser.Analyze fuel1 (Lexer.Tokens lexicalResult)) as [s1| |] eqn:H1;
    try discriminate.
  destruct (Parser.Analyze fuel2 (Lexer.Tokens lexicalResult)) as [s2| |] eqn:H2;
    try discriminate.
  assert (He : Parser.Analyze fuel1 (Lexer.Tokens lexicalResult)
               = Parser.Analyze fuel2 (Lexer.Tokens lexicalResult))
    by (apply Analyze_fuel_independent; congruence).
  assert (s1 = s2) by congruence. subst s2.
  cbn [fst]. congruence.
Qed.

(** The store is read: with an empty reserved word table the text [if]
    is an identifier. *)
Lemma the_store_decides_the_tokens :
  map Lexer.Type_
    (Lexer.Tokens (fst (Shared.Analyze "if" (Shared.mkStore ∅ Lexer.pythonSymbols))))
  = [Lexer.IDENTIFIER]
  /\ map Lexer.Type_ (Lexer.Tokens (fst (Shared.Analyze "if" Shared.initial)))
     = [Lexer.KEYWORD].
Proof. split; vm_compute; reflexivity. Qed.

(** C9. The two package-level tables are the one state requests share.
    The handler hands them back as it received them, whatever they hold
    and whatever it was asked, so the store a request meets is the store
    the process started with, however many requests were served before;
    its outcome is the outcome of the same request on the untouched
    store, and two requests with the same text that both answer, one
    before and one after any history, carry identical reports. *)
Theorem reports_do_not_depend_on_history
    (st : Shared.Store) (history : list (nat * string))
    (fuel : nat) (code : string) :
  Shared.serve history st = st
  /\ Shared.analyzeCode fuel code (Shared.serve history st)
     = Shared.analyzeCode fuel code st
  /\ (forall fuel' r r',
        fst (Shared.analyzeCode fuel code st) = Parser.Done r ->
        fst (Shared.analyzeCode fuel' code (Shared.serve history st))
        = Parser.Done r' ->
        r = r').
Proof.
  pose proof (serve_store history st) as Hs. rewrite Hs.
  split; [reflexivity|]. split; [reflexivity|].
  intros fuel' r r' H1 H2. exact (shared_fuel_independent _ _ _ _ _ _ H1 H2).
Qed.

Lemma reports_do_not_depend_on_history_witness :
  exists r r',
    fst (Shared.analyzeCode 20 reassignment Shared.initial) = Parser.Done r
    /\ fst (Shared.analyzeCode 30 reassignment
              (Shared.serve [(20%nat, "print = 1"); (20%nat, "x.lower()")]
                 Shared.initial))
       = Parser.Done r'
    /\ r = r'.
Proof.
  eexists. eexists. split; [vm_compute; reflexivity|]. split; [vm_compute; reflexivity|].
  eapply (proj2 (proj2 (reports_do_not_depend_on_history Shared.initial
                          [(20%nat, "print = 1"); (20%nat, "x.lower()")]
                          20 reassignment)) 30%nat);
    vm_compute; reflexivity.
Defined.

End PipelineFacts.
